(** * Bank-alert matching engine: the extractor and the scorer

    A shallow embedding of [src/services/transaction-matcher.ts] (the
    [TransactionMatcher] class and, in the same file, the [BankAlertParser]
    class with its [BANK_PATTERNS] table), followed by the properties of the
    specification that were checked against it.

    Conventions of the embedding:
    - a JavaScript string is the list of its UTF-16 code units ([jsstring]);
    - a JavaScript number is [number]: the IEEE special values [NaN],
      [PInf], [NInf], and the finite values, carried as rationals.
      [parseFloat] rounds what it reads to binary64 ([binary64]); the
      arithmetic of the scorer is exact, and is compared with the rounded
      one at the constants that decide an outcome ([Binary64]). The sign of
      zero is not represented;
    - [Date.now()] is an oracle [Date_now], read through a tick counter; the
      host's date parser is a parameter [Date_parse], and so is the host's
      [toLowerCase] where the scorer lowers whole descriptions
      ([String_toLowerCase]): nothing is assumed of its case mapping;
    - a thrown [TypeError] is the [Throw] outcome. *)

From Stdlib Require Import QArith Qabs Lqa Ascii String Sorting.Sorted.
From Stdlib Require PrimFloat FloatOps Qcanon.
From stdpp Require Import gmap list strings pretty.

Local Open Scope Q_scope.

(** ** Host values *)

Module JS.

(** *** Numbers *)

Inductive number : Type :=
| NaN
| PInf
| NInf
| Num (q : Q).

Definition num_neg (a : number) : number :=
  match a with
  | NaN => NaN
  | PInf => NInf
  | NInf => PInf
  | Num q => Num (- q)
  end.

Definition num_add (a b : number) : number :=
  match a, b with
  | NaN, _ | _, NaN => NaN
  | PInf, NInf | NInf, PInf => NaN
  | PInf, _ | _, PInf => PInf
  | NInf, _ | _, NInf => NInf
  | Num x, Num y => Num (x + y)
  end.

Definition num_sub (a b : number) : number := num_add a (num_neg b).

(** Sign of a finite value: [Lt], [Eq] or [Gt] against zero. *)
Definition Qsign (q : Q) : comparison := (q ?= 0)%Q.

Definition num_mul (a b : number) : number :=
  match a, b with
  | NaN, _ | _, NaN => NaN
  | Num x, Num y => Num (x * y)
  | PInf, PInf | NInf, NInf => PInf
  | PInf, NInf | NInf, PInf => NInf
  | PInf, Num y | Num y, PInf =>
      match Qsign y with Eq => NaN | Gt => PInf | Lt => NInf end
  | NInf, Num y | Num y, NInf =>
      match Qsign y with Eq => NaN | Gt => NInf | Lt => PInf end
  end.

(** Division; a zero divisor is taken as [+0]. *)
Definition num_div (a b : number) : number :=
  match a, b with
  | NaN, _ | _, NaN => NaN
  | (PInf | NInf), (PInf | NInf) => NaN
  | Num _, (PInf | NInf) => Num 0
  | PInf, Num y => match Qsign y with Lt => NInf | _ => PInf end
  | NInf, Num y => match Qsign y with Lt => PInf | _ => NInf end
  | Num x, Num y =>
      match Qsign y with
      | Eq => match Qsign x with Eq => NaN | Gt => PInf | Lt => NInf end
      | _ => Num (x / y)
      end
  end.

(** [Math.abs] *)
Definition Math_abs (a : number) : number :=
  match a with
  | NaN => NaN
  | PInf | NInf => PInf
  | Num q => Num (Qabs q)
  end.

(** [a < b]; every comparison with [NaN] is false. *)
Definition num_ltb (a b : number) : bool :=
  match a, b with
  | NaN, _ | _, NaN => false
  | _, NInf => false
  | NInf, _ => true
  | PInf, _ => false
  | _, PInf => true
  | Num x, Num y => match (x ?= y)%Q with Lt => true | _ => false end
  end.

(** [a <= b] *)
Definition num_leb (a b : number) : bool :=
  match a, b with
  | NaN, _ | _, NaN => false
  | NInf, _ => true
  | _, PInf => true
  | _, NInf => false
  | PInf, _ => false
  | Num x, Num y => Qle_bool x y
  end.

Definition num_gtb (a b : number) : bool := num_ltb b a.
Definition num_geb (a b : number) : bool := num_leb b a.

(** [ToBoolean] on a number: [NaN] and zero are falsy. *)
Definition num_truthy (a : number) : bool :=
  match a with
  | NaN => false
  | PInf | NInf => true
  | Num q => negb (Qeq_bool q 0)
  end.

(** [a === b] on numbers: [NaN] equals nothing. *)
Definition num_eqb (a b : number) : bool :=
  match a, b with
  | PInf, PInf | NInf, NInf => true
  | Num x, Num y => Qeq_bool x y
  | _, _ => false
  end.

Definition of_nat (n : nat) : number := Num (inject_Z (Z.of_nat n)).

(** A finite, non-negative number: what the specification asks of an
    amount. *)
Definition finite_nonneg (a : number) : Prop :=
  match a with
  | Num q => 0 <= q
  | _ => False
  end.

(** *** Strings *)

Definition jsstring : Type := list N.

(** The code units of a literal written in ASCII. *)
Fixpoint str (s : string) : jsstring :=
  match s with
  | EmptyString => []
  | String c s' => N_of_ascii c :: str s'
  end.

Definition is_digit (c : N) : bool := ((48 <=? c) && (c <=? 57))%N.
Definition is_upper (c : N) : bool := ((65 <=? c) && (c <=? 90))%N.
Definition is_lower (c : N) : bool := ((97 <=? c) && (c <=? 122))%N.

(** WhiteSpace and LineTerminator code units: what [\s], [trim] and the
    prefix skipped by [parseFloat] recognise. *)
Definition is_space (c : N) : bool :=
  ((9 <=? c) && (c <=? 13) || (c =? 32) || (c =? 160) || (c =? 5760)
   || (8192 <=? c) && (c <=? 8202) || (c =? 8232) || (c =? 8233)
   || (c =? 8239) || (c =? 8287) || (c =? 12288) || (c =? 65279))%N.

(** [\w] *)
Definition is_word (c : N) : bool :=
  is_digit c || is_upper c || is_lower c || (c =? 95)%N.

(** Case mapping of one code unit, on the ASCII letters. [toLowerCase]
    below is the host's function on ASCII text. The extractor lowers a
    keyword only to search it for ["debit"] and ["withdrawal"], and there
    the answer is the host's on any text: the only characters outside ASCII
    whose lower case holds an ASCII letter are U+212A (to [k]) and U+0130
    (to [i] followed by U+0307), and neither word has a [k] or an [i] that
    is not followed by [t]. Where the lowered text itself matters, in the
    similarity of two descriptions, the host's function is a parameter. *)
Definition lower_unit (c : N) : N := if is_upper c then (c + 32)%N else c.
Definition upper_unit (c : N) : N := if is_lower c then (c - 32)%N else c.

Definition toLowerCase (s : jsstring) : jsstring := map lower_unit s.

Fixpoint trimStart (s : jsstring) : jsstring :=
  match s with
  | c :: s' => if is_space c then trimStart s' else s
  | [] => []
  end.

Definition trimEnd (s : jsstring) : jsstring := rev (trimStart (rev s)).

Definition trim (s : jsstring) : jsstring := trimEnd (trimStart s).

Definition jsstring_eqb (a b : jsstring) : bool := bool_decide (a = b).

Fixpoint startsWith (p s : jsstring) : bool :=
  match p, s with
  | [], _ => true
  | a :: p', b :: s' => (a =? b)%N && startsWith p' s'
  | _ :: _, [] => false
  end.

(** [s.includes(p)] *)
Fixpoint includes (s p : jsstring) : bool :=
  startsWith p s ||
  match s with
  | [] => false
  | _ :: s' => includes s' p
  end.

(** [s.replace(/,/g, '')] *)
Definition remove_commas (s : jsstring) : jsstring :=
  filter (fun c => c <> 44%N) s.

(** [s.substring(0, n)] *)
Definition substring0 (n : nat) (s : jsstring) : jsstring := take n s.

(** *** [parseFloat] *)

(** The longest run of decimal digits at the head of [s], and the rest. *)
Fixpoint span_digits (s : jsstring) : jsstring * jsstring :=
  match s with
  | c :: s' =>
      if is_digit c
      then let '(ds, rest) := span_digits s' in (c :: ds, rest)
      else ([], s)
  | [] => ([], [])
  end.

Fixpoint digits_value (acc : Z) (ds : jsstring) : Z :=
  match ds with
  | [] => acc
  | d :: ds' => digits_value (10 * acc + (Z.of_N d - 48)) ds'
  end.

(** An optional sign: whether it is a minus, and the rest. *)
Definition read_sign (s : jsstring) : bool * jsstring :=
  match s with
  | c :: s' =>
      if (c =? 43)%N then (false, s')
      else if (c =? 45)%N then (true, s')
      else (false, s)
  | [] => (false, [])
  end.

(** ExponentPart: [e] or [E], an optional sign, at least one digit. *)
Definition exponent_part (s : jsstring) : Z :=
  match s with
  | c :: s' =>
      if ((c =? 101) || (c =? 69))%N
      then
        let '(neg, s'') := read_sign s' in
        match fst (span_digits s'') with
        | [] => 0%Z
        | ds => if neg then (- digits_value 0 ds)%Z else digits_value 0 ds
        end
      else 0%Z
  | [] => 0%Z
  end.

(** [m * 10^e] *)
Definition scale10 (m e : Z) : Q :=
  if (0 <=? e)%Z then inject_Z (m * 10 ^ e) else m # Z.to_pos (10 ^ (- e)).

(** The binary64 number nearest to [n / d], for positive [n] and [d]: the
    exponent [e] of the quotient, the exponent [p] of one unit in the last
    place (53 significant bits, subnormal below [2^-1022]), the quotient in
    those units rounded to the nearest integer with ties to the even one,
    and [Infinity] from [2^1024] on. *)
Definition binary64_pos (n d : Z) : number :=
  let e0 := (Z.log2 n - Z.log2 d)%Z in
  let below := (n * 2 ^ Z.max 0 (- e0) <? d * 2 ^ Z.max 0 e0)%Z in
  let e := if below then (e0 - 1)%Z else e0 in
  let p := (Z.max e (-1022) - 52)%Z in
  let num := (n * 2 ^ Z.max 0 (- p))%Z in
  let den := (d * 2 ^ Z.max 0 p)%Z in
  let m := (num / den)%Z in
  let r := (num mod den)%Z in
  let m := if (den <? 2 * r)%Z then (m + 1)%Z
           else if (2 * r =? den)%Z then (if Z.even m then m else (m + 1)%Z)
           else m in
  if (0 <=? p)%Z
  then if (2 ^ 1024 <=? m * 2 ^ p)%Z then PInf else Num (inject_Z (m * 2 ^ p))
  else Num (Qred (m # Z.to_pos (2 ^ (- p)))).

(** The Number value for a mathematical value: round to nearest, ties to
    even. *)
Definition binary64 (q : Q) : number :=
  let q := Qred q in
  match Qnum q with
  | Z0 => Num 0
  | Zpos n => binary64_pos (Zpos n) (Zpos (Qden q))
  | Zneg n => num_neg (binary64_pos (Zpos n) (Zpos (Qden q)))
  end.

(** [parseFloat]: skip leading white space, read the longest prefix that is
    a StrDecimalLiteral, [NaN] when there is none; the value read is rounded
    to binary64. *)
Definition parseFloat (s : jsstring) : number :=
  let '(neg, s1) := read_sign (trimStart s) in
  if startsWith (str "Infinity") s1 then (if neg then NInf else PInf)
  else
    let '(ip, s2) := span_digits s1 in
    let '(fp, s3) :=
      match s2 with
      | c :: t => if (c =? 46)%N then span_digits t else ([], s2)
      | [] => ([], s2)
      end in
    match ip ++ fp with
    | [] => NaN
    | ds =>
        let m := digits_value 0 ds in
        binary64 (scale10 (if neg then (- m)%Z else m)
                          (exponent_part s3 - Z.of_nat (length fp)))
    end.

(** *** Regular expressions

    The fragment of the pattern language that [BANK_PATTERNS] uses: literal
    characters, the classes [\d], [\s], [\w] and bracketed unions of them,
    greedy quantifiers on a one-character atom, sequence, alternation and
    one capture group. *)

Inductive charclass : Type :=
| CChar (c : N)
| CDigit
| CSpace
| CWord
| CUnion (a b : charclass).

Inductive regex : Type :=
| REmpty
| RAtom (c : charclass)
| RRepeat (c : charclass) (lo : nat) (hi : option nat)
| RSeq (r1 r2 : regex)
| RAlt (r1 r2 : regex)
| RGroup (r : regex).

(** A RegExp object: its pattern and its [i] flag. *)
Record RegExp : Type := mkRegExp {
  source : regex;
  ignoreCase : bool;
}.

(** Canonicalize of the pattern semantics (without the [u] flag), on the
    ASCII letters; exact against literals that are ASCII or have no case,
    which is all [BANK_PATTERNS] contains. *)
Definition canonicalize (ic : bool) (c : N) : N :=
  if ic then upper_unit c else c.

Fixpoint class_match (ic : bool) (cl : charclass) (c : N) : bool :=
  match cl with
  | CChar x => (canonicalize ic x =? canonicalize ic c)%N
  | CDigit => is_digit c
  | CSpace => is_space c
  | CWord => is_word c
  | CUnion a b => class_match ic a c || class_match ic b c
  end.

Section Matcher.
(** The result handed back by the final continuation. *)
Context {R : Type}.

(** [c{lo,hi}], greedy: take one more character when allowed, fall back
    to the continuation where the remaining input fails. *)
Fixpoint repeat_match (p : N -> bool) (lo : nat) (hi : option nat)
    (s : jsstring) (k : jsstring -> option R) : option R :=
  let stop := match lo with O => k s | S _ => None end in
  match s with
  | c :: s' =>
      if p c && negb (bool_decide (hi = Some O))
      then
        match repeat_match p (Nat.pred lo) (Nat.pred <$> hi) s' k with
        | Some r => Some r
        | None => stop
        end
      else stop
  | [] => stop
  end.

(** The backtracking matcher, in continuation-passing style as the
    language definition gives it. The state is the input still to be read
    and the text of the capture group (group 1), if it was closed. *)
Fixpoint rmatch (ic : bool) (r : regex) (s : jsstring)
    (cap : option jsstring)
    (k : jsstring -> option jsstring -> option R) : option R :=
  match r with
  | REmpty => k s cap
  | RAtom cl =>
      match s with
      | c :: s' => if class_match ic cl c then k s' cap else None
      | [] => None
      end
  | RRepeat cl lo hi =>
      repeat_match (class_match ic cl) lo hi s (fun s' => k s' cap)
  | RSeq r1 r2 =>
      rmatch ic r1 s cap (fun s' cap' => rmatch ic r2 s' cap' k)
  | RAlt r1 r2 =>
      match rmatch ic r1 s cap k with
      | Some x => Some x
      | None => rmatch ic r2 s cap k
      end
  | RGroup r1 =>
      rmatch ic r1 s cap
        (fun s' _ => k s' (Some (take (length s - length s') s)))
  end.
End Matcher.

(** The outcome of [String.prototype.match] with a pattern that has no [g]
    flag: [None] is [null]; [Some g] is a match array whose element 1 is
    [g], and [g = None] stands for [undefined]. *)
Definition match_result : Type := option (option jsstring).

(** Try each start position from the left. *)
Fixpoint search (ic : bool) (r : regex) (s : jsstring) : match_result :=
  match rmatch ic r s None (fun _ cap => Some cap) with
  | Some cap => Some cap
  | None =>
      match s with
      | [] => None
      | _ :: s' => search ic r s'
      end
  end.

(** [s.match(re)]. With [re] undefined the host builds the empty pattern,
    which matches at once and has no group 1. *)
Definition String_match (s : jsstring) (re : option RegExp) : match_result :=
  match re with
  | Some re => search (ignoreCase re) (source re) s
  | None => Some None
  end.

(** Pattern-building shorthands. *)
Fixpoint lit (s : string) : regex :=
  match s with
  | EmptyString => REmpty
  | String c EmptyString => RAtom (CChar (N_of_ascii c))
  | String c s' => RSeq (RAtom (CChar (N_of_ascii c))) (lit s')
  end.

Definition star (c : charclass) : regex := RRepeat c 0 None.
Definition plus (c : charclass) : regex := RRepeat c 1 None.
Definition opt (c : charclass) : regex := RRepeat c 0 (Some 1%nat).
Definition times (c : charclass) (lo hi : nat) : regex := RRepeat c lo (Some hi).
Definition exactly (c : charclass) (n : nat) : regex := RRepeat c n (Some n).

Fixpoint seqs (rs : list regex) : regex :=
  match rs with
  | [] => REmpty
  | [r] => r
  | r :: rs' => RSeq r (seqs rs')
  end.

Fixpoint alts (rs : list regex) : regex :=
  match rs with
  | [] => REmpty
  | [r] => r
  | r :: rs' => RAlt r (alts rs')
  end.

(** *** Property lookup on an object literal

    [obj[name]] on an object created by a literal finds an own property, or
    else a property of [Object.prototype]. *)

Definition Object_prototype_properties : list jsstring :=
  map str [ "constructor"; "__defineGetter__"; "__defineSetter__";
            "hasOwnProperty"; "__lookupGetter__"; "__lookupSetter__";
            "isPrototypeOf"; "propertyIsEnumerable"; "toString"; "valueOf";
            "__proto__"; "toLocaleString" ]%string.

Inductive property (A : Type) : Type :=
| Own (v : A)
| Inherited
| Undefined.
Arguments Own {A} v.
Arguments Inherited {A}.
Arguments Undefined {A}.

Definition get_property {A : Type} (obj : gmap jsstring A) (name : jsstring)
    : property A :=
  match obj !! name with
  | Some v => Own v
  | None =>
      if bool_decide (name ∈ Object_prototype_properties)
      then Inherited else Undefined
  end.

End JS.

Import JS.

(** ** Effects: the wall clock and thrown errors *)

(** A computation that may read the clock: it receives the number of
    readings made so far and returns the new count with its value. *)
Definition clock (A : Type) : Type := nat -> A * nat.

Definition ret {A : Type} (a : A) : clock A := fun k => (a, k).

Definition bind {A B : Type} (m : clock A) (f : A -> clock B) : clock B :=
  fun k => let '(a, k') := m k in f a k'.

Notation "'do' x <- m ; f" := (bind m (fun x => f))
  (at level 10, x name, m at level 100, f at level 200).

(** [Date.now()]: the next reading of the clock, in milliseconds. *)
Definition tick (Date_now : nat -> Z) : clock number :=
  fun k => (Num (inject_Z (Date_now k)), S k).

Fixpoint mapM {A B : Type} (f : A -> clock B) (l : list A) : clock (list B) :=
  match l with
  | [] => ret []
  | x :: l' => do y <- f x; do ys <- mapM f l'; ret (y :: ys)
  end.

(** What a call produces: a value, or a thrown [TypeError]. *)
Inductive outcome (A : Type) : Type :=
| Ok (a : A)
| Throw.
Arguments Ok {A} a.
Arguments Throw {A}.

(** ** Data contracts ([types/index.ts]) *)

Inductive TransactionType : Type := debit | credit.

(** A timestamp as [toTimestamp] receives it:
    [Date | string | number | undefined]. A [Date] is its time value,
    [NaN] for an invalid date. *)
Inductive Timestamp : Type :=
| TDate (t : number)
| TString (s : jsstring)
| TNumber (n : number)
| TUndefined.

(** [Partial<BankAlert>], as [parseEmail] fills it. *)
Record ParsedAlert : Type := mkParsedAlert {
  parsed_amount : number;
  parsed_currency : jsstring;
  parsed_accountNumber : jsstring;
  parsed_description : jsstring;
  parsed_transactionType : TransactionType;
  parsed_timestamp : Timestamp;
  parsed_rawEmail : jsstring;
  parsed_bank : jsstring;
}.

Record BankAlert : Type := mkBankAlert {
  alert_id : jsstring;
  alert_timestamp : Timestamp;
  alert_amount : number;
  alert_currency : jsstring;
  alert_accountNumber : jsstring;
  alert_description : jsstring;
  alert_transactionType : TransactionType;
  alert_rawEmail : jsstring;
  alert_bank : jsstring;
}.

Inductive TransactionStatus : Type := pending | completed | failed.

Record Transaction : Type := mkTransaction {
  txn_id : jsstring;
  txn_timestamp : Timestamp;
  txn_amount : number;
  txn_currency : jsstring;
  txn_accountNumber : jsstring;
  txn_description : jsstring;
  txn_status : TransactionStatus;
  txn_source : jsstring;
}.

Record MatchDetails : Type := mkMatchDetails {
  amountMatch : bool;
  amountDifference : number;
  timeWindow : number;
  descriptionSimilarity : number;
}.

Record MatchResult : Type := mkMatchResult {
  alertId : jsstring;
  transactionId : option jsstring;
  confidence : number;
  matchDetails : MatchDetails;
  matched : bool;
}.

(** ** The extractor: [BankAlertParser] *)

Module BankAlertParser.

Record BankPatterns : Type := mkBankPatterns {
  amountPattern : RegExp;
  typePattern : RegExp;
  timePattern : RegExp;
  accountPattern : RegExp;
}.

Definition chr (c : ascii) : charclass := CChar (N_of_ascii c).

(** U+20A6, the naira sign. *)
Definition naira : charclass := CChar 8358.

(** The amount token, group 1 of every amount pattern: one or more digits
    or commas, an optional dot, any number of digits. *)
Definition amount_token : regex :=
  RGroup (seqs [plus (CUnion CDigit (chr ",")); opt (chr "."); star CDigit]).

(** The masked account, group 1 of every account pattern: two to four
    asterisks, four to ten digits. *)
Definition masked_account : regex :=
  RGroup (seqs [times (chr "*") 2 4; times CDigit 4 10]).

Definition keywords (ws : list string) : regex := RGroup (alts (map lit ws)).

Definition gtbank : BankPatterns := {|
  (* Amount: \s* ₦? amount_token, flag i *)
  amountPattern :=
    mkRegExp (seqs [lit "Amount:"; star CSpace; opt naira; amount_token]) true;
  (* /(debit|credit|withdrawal|transfer|payment)/i *)
  typePattern :=
    mkRegExp
      (keywords ["debit"; "credit"; "withdrawal"; "transfer"; "payment"]%string)
      true;
  (* /(\d{1,2}\/\d{1,2}\/\d{4}\s+\d{1,2}:\d{2}:\d{2})/ *)
  timePattern :=
    mkRegExp
      (RGroup (seqs [times CDigit 1 2; lit "/"; times CDigit 1 2; lit "/";
                     exactly CDigit 4; plus CSpace; times CDigit 1 2; lit ":";
                     exactly CDigit 2; lit ":"; exactly CDigit 2]))
      false;
  (* Account: \s* masked_account, flag i *)
  accountPattern :=
    mkRegExp (seqs [lit "Account:"; star CSpace; masked_account]) true;
|}.

Definition access : BankPatterns := {|
  (* NGN \s* amount_token, flag i *)
  amountPattern := mkRegExp (seqs [lit "NGN"; star CSpace; amount_token]) true;
  (* /(DEBIT|CREDIT|Withdrawal|Transfer|Payment)/i *)
  typePattern :=
    mkRegExp
      (keywords ["DEBIT"; "CREDIT"; "Withdrawal"; "Transfer"; "Payment"]%string)
      true;
  (* /(\d{2}-\w{3}-\d{4}\s+\d{2}:\d{2}:\d{2})/ *)
  timePattern :=
    mkRegExp
      (RGroup (seqs [exactly CDigit 2; lit "-"; exactly CWord 3; lit "-";
                     exactly CDigit 4; plus CSpace; exactly CDigit 2; lit ":";
                     exactly CDigit 2; lit ":"; exactly CDigit 2]))
      false;
  (* A/C: \s* masked_account, flag i *)
  accountPattern :=
    mkRegExp (seqs [lit "A/C:"; star CSpace; masked_account]) true;
|}.

Definition firstbank : BankPatterns := {|
  (* Amount \s* [:=] \s* ₦? amount_token, flag i *)
  amountPattern :=
    mkRegExp
      (seqs [lit "Amount"; star CSpace; RAtom (CUnion (chr ":") (chr "="));
             star CSpace; opt naira; amount_token])
      true;
  (* /(Debit|Credit)/i *)
  typePattern := mkRegExp (keywords ["Debit"; "Credit"]%string) true;
  (* /(\d{2}\/\d{2}\/\d{4}\s+\d{2}:\d{2})/ *)
  timePattern :=
    mkRegExp
      (RGroup (seqs [exactly CDigit 2; lit "/"; exactly CDigit 2; lit "/";
                     exactly CDigit 4; plus CSpace; exactly CDigit 2; lit ":";
                     exactly CDigit 2]))
      false;
  (* Account \s* [:=] \s* masked_account, flag i *)
  accountPattern :=
    mkRegExp
      (seqs [lit "Account"; star CSpace; RAtom (CUnion (chr ":") (chr "="));
             star CSpace; masked_account])
      true;
|}.

(** The table of profiles, as the module declares it. *)
Definition BANK_PATTERNS : gmap jsstring BankPatterns :=
  <[str "gtbank" := gtbank]>
    (<[str "access" := access]> (<[str "firstbank" := firstbank]> ∅)).

(** The [typeMatch ... ? 'debit' : 'credit'] expression. *)
Definition classify (typeMatch : match_result) : TransactionType :=
  match typeMatch with
  | Some (Some kw) =>
      if includes (toLowerCase kw) (str "debit")
         || includes (toLowerCase kw) (str "withdrawal")
      then debit else credit
  | _ => credit
  end.

(** [BANK_PATTERNS[bank] || BANK_PATTERNS.gtbank]: every value a lookup can
    find is an object or a function, hence truthy. *)
Definition select_patterns (table : gmap jsstring BankPatterns)
    (bank : jsstring) : property BankPatterns :=
  match get_property table bank with
  | Undefined => get_property table (str "gtbank")
  | found => found
  end.

(** [addBankPattern(bankName, patterns)], for a [bankName] other than
    ["__proto__"] (assigning to that name re-parents the table instead of
    adding an entry). *)
Definition addBankPattern (bankName : jsstring) (patterns : BankPatterns)
    (table : gmap jsstring BankPatterns) : gmap jsstring BankPatterns :=
  <[bankName := patterns]> table.

(** The caller's view of a result under another format name. *)
Definition with_bank (bank : jsstring) (a : ParsedAlert) : ParsedAlert :=
  {| parsed_amount := parsed_amount a;
     parsed_currency := parsed_currency a;
     parsed_accountNumber := parsed_accountNumber a;
     parsed_description := parsed_description a;
     parsed_transactionType := parsed_transactionType a;
     parsed_timestamp := parsed_timestamp a;
     parsed_rawEmail := parsed_rawEmail a;
     parsed_bank := bank |}.

Definition outcome_map {A B : Type} (f : A -> B) (o : outcome A) : outcome B :=
  match o with
  | Ok a => Ok (f a)
  | Throw => Throw
  end.

Section Host.
(** The readings of [Date.now()], and the time value the host's [Date]
    constructor gives a string ([NaN] when it cannot parse it). *)
Variable Date_now : nat -> Z.
Variable Date_parse : jsstring -> number.

(** [parseEmail(email, bank)] against the table [table]. Reading a
    field of [undefined] throws; a value inherited from
    [Object.prototype] has none of the four fields. *)
Definition parseEmail (table : gmap jsstring BankPatterns)
    (email bank : jsstring) : clock (outcome ParsedAlert) :=
  let patterns := select_patterns table bank in
  match patterns with
  | Undefined => ret Throw
  | _ =>
      let field (f : BankPatterns -> RegExp) : option RegExp :=
        match patterns with Own p => Some (f p) | _ => None end in
      match String_match email (field amountPattern) with
      | Some None => ret Throw
      | amountMatch =>
          let amount :=
            match amountMatch with
            | Some (Some token) => parseFloat (remove_commas token)
            | _ => Num 0
            end in
          let transactionType :=
            classify (String_match email (field typePattern)) in
          do timestamp <-
            match String_match email (field timePattern) with
            | Some (Some t) => ret (Date_parse t)
            | Some None => ret NaN
            | None => tick Date_now
            end;
          let accountNumber :=
            match String_match email (field accountPattern) with
            | Some (Some a) => a
            | _ => []
            end in
          let description := substring0 200 email in
          ret (Ok {| parsed_amount := amount;
                     parsed_currency := str "NGN";
                     parsed_accountNumber := accountNumber;
                     parsed_description := description;
                     parsed_transactionType := transactionType;
                     parsed_timestamp := TDate timestamp;
                     parsed_rawEmail := email;
                     parsed_bank := bank |})
      end
  end.

(** [parseEmails(emails, bank)]; the first throw ends the call. *)
Fixpoint parseEmails (table : gmap jsstring BankPatterns)
    (emails : list jsstring) (bank : jsstring)
    : clock (outcome (list ParsedAlert)) :=
  match emails with
  | [] => ret (Ok [])
  | email :: rest =>
      do r <- parseEmail table email bank;
      match r with
      | Throw => ret Throw
      | Ok a =>
          do rs <- parseEmails table rest bank;
          ret (match rs with Ok l => Ok (a :: l) | Throw => Throw end)
      end
  end.
End Host.

End BankAlertParser.

(** ** [Array.prototype.sort]

    The language requires the sort to be stable and, for a consistent
    comparator, to return the one stable ordering it determines. The model
    is the insertion sort that builds that ordering: an element moves past
    those the comparator places strictly before it ([cmp x y > 0]) and no
    further. A [NaN] from the comparator counts as zero. *)

Section ArraySort.
Context {A : Type}.
Variable comparefn : A -> A -> number.

Fixpoint sort_insert (x : A) (l : list A) : list A :=
  match l with
  | [] => [x]
  | y :: l' =>
      if num_gtb (comparefn x y) (Num 0)
      then y :: sort_insert x l'
      else x :: y :: l'
  end.

Definition Array_sort (l : list A) : list A := foldr sort_insert [] l.
End ArraySort.

(** ** The scorer: [TransactionMatcher] *)

Module TransactionMatcher.

Definition TIME_WINDOW_MS : number := Num (15 * 60 * 1000).
Definition AMOUNT_TOLERANCE : number := Num 0.02.
Definition MIN_CONFIDENCE_THRESHOLD : number := Num 0.6.

(** *** [levenshteinDistance] *)

(** [costs[j]]; every read of the loops below is inside the array. *)
Definition array_get (costs : list nat) (j : nat) : nat :=
  default 0%nat (costs !! j).

(** [costs[j] = v]: overwrite inside the array, extend it by one at its
    end (the loops never write further out). *)
Definition array_set (costs : list nat) (j v : nat) : list nat :=
  if bool_decide (j < length costs)%nat then <[j := v]> costs else costs ++ [v].

(** The body of the inner loop, at indices [i] and [j], on the state
    [(costs, lastValue)]. *)
Definition inner_body (s1 s2 : jsstring) (i : nat) (st : list nat * nat)
    (j : nat) : list nat * nat :=
  let '(costs, lastValue) := st in
  if (i =? 0)%nat then (array_set costs j j, lastValue)
  else if (0 <? j)%nat then
    let newValue := array_get costs (j - 1) in
    let newValue :=
      if bool_decide (s1 !! (i - 1)%nat ≠ s2 !! (j - 1)%nat)
      then (Nat.min (Nat.min newValue lastValue) (array_get costs j) + 1)%nat
      else newValue in
    (array_set costs (j - 1) lastValue, newValue)
  else st.

(** The body of the outer loop at index [i]. *)
Definition outer_body (s1 s2 : jsstring) (costs : list nat) (i : nat)
    : list nat :=
  let '(costs', lastValue) :=
    foldl (inner_body s1 s2 i) (costs, i) (seq 0 (S (length s2))) in
  if (0 <? i)%nat then array_set costs' (length s2) lastValue else costs'.

Definition levenshteinDistance (s1 s2 : jsstring) : nat :=
  array_get (foldl (outer_body s1 s2) [] (seq 0 (S (length s1)))) (length s2).

(** *** [calculateSimilarity] *)

(** [String_toLowerCase] is the host's [String.prototype.toLowerCase]. *)
Definition calculateSimilarity (String_toLowerCase : jsstring -> jsstring)
    (str1 str2 : jsstring) : number :=
  let s1 := trim (String_toLowerCase str1) in
  let s2 := trim (String_toLowerCase str2) in
  if jsstring_eqb s1 s2 then Num 1
  else if ((length s1 =? 0) || (length s2 =? 0))%nat then Num 0
  else
    let longer := if (length s2 <? length s1)%nat then s1 else s2 in
    let shorter := if (length s2 <? length s1)%nat then s2 else s1 in
    let editDistance := levenshteinDistance shorter longer in
    num_div (num_sub (of_nat (length longer)) (of_nat editDistance))
            (of_nat (length longer)).

(** *** The factors of [scoreMatch] *)

Definition amountDiff (alert : BankAlert) (txn : Transaction) : number :=
  Math_abs (num_sub (alert_amount alert) (txn_amount txn)).

Definition amountDiffPercent (alert : BankAlert) (txn : Transaction) : number :=
  if num_gtb (alert_amount alert) (Num 0)
  then num_div (amountDiff alert txn) (alert_amount alert)
  else Num 0.

Definition amountMatches (alert : BankAlert) (txn : Transaction) : bool :=
  num_leb (amountDiffPercent alert txn) AMOUNT_TOLERANCE.

Definition withinTimeWindow (timeDiff : number) : bool :=
  num_leb timeDiff TIME_WINDOW_MS.

Definition accountMatches (alert : BankAlert) (txn : Transaction) : bool :=
  jsstring_eqb (alert_accountNumber alert) (txn_accountNumber txn).

(** The confidence accumulated from the three flags and the similarity. *)
Definition score (amountOk accountOk timeOk : bool) (similarity : number)
    : number :=
  let confidence := Num 0 in
  let confidence := if amountOk then num_add confidence (Num 0.4) else confidence in
  let confidence := if accountOk then num_add confidence (Num 0.3) else confidence in
  let confidence := if timeOk then num_add confidence (Num 0.2) else confidence in
  num_add confidence (num_mul similarity (Num 0.1)).

Section Host.
Variable Date_now : nat -> Z.
Variable Date_parse : jsstring -> number.
Variable String_toLowerCase : jsstring -> jsstring.

(** [!value] is false for a [Date], whatever its time value. *)
Definition truthy (value : Timestamp) : bool :=
  match value with
  | TDate _ => true
  | TString s => negb (bool_decide (s = []))
  | TNumber n => num_truthy n
  | TUndefined => false
  end.

Definition toTimestamp (value : Timestamp) : clock number :=
  if negb (truthy value) then tick Date_now
  else
    match value with
    | TDate t => ret t
    | TString s =>
        let t := Date_parse s in
        if num_truthy t then ret t else tick Date_now
    | TNumber n => ret n
    | TUndefined => tick Date_now
    end.

Definition scoreMatch (alert : BankAlert) (txn : Transaction)
    : clock MatchResult :=
  do ta <- toTimestamp (alert_timestamp alert);
  do tt <- toTimestamp (txn_timestamp txn);
  let timeDiff := Math_abs (num_sub ta tt) in
  let isWithinTimeWindow := withinTimeWindow timeDiff in
  let similarity :=
    calculateSimilarity String_toLowerCase
      (alert_description alert) (txn_description txn) in
  let confidence :=
    score (amountMatches alert txn) (accountMatches alert txn)
          isWithinTimeWindow similarity in
  let isMatched := num_geb confidence MIN_CONFIDENCE_THRESHOLD in
  ret {| alertId := alert_id alert;
         transactionId := if isMatched then Some (txn_id txn) else None;
         confidence := confidence;
         matchDetails :=
           {| amountMatch := amountMatches alert txn;
              amountDifference := amountDiff alert txn;
              timeWindow := timeDiff;
              descriptionSimilarity := similarity |};
         matched := isMatched |}.

(** The comparator handed to [sort]. *)
Definition by_confidence (a b : MatchResult) : number :=
  num_sub (confidence b) (confidence a).

Definition findMatches (alert : BankAlert) (transactions : list Transaction)
    : clock (list MatchResult) :=
  do results <- mapM (scoreMatch alert) transactions;
  ret (Array_sort by_confidence results).
End Host.

End TransactionMatcher.

(** ** The arithmetic of the scorer on binary64

    The same two computations on the host's own number format, to compare
    the outcome of the exact arithmetic above with the rounded one at the
    constants the specification names. *)

Module Binary64.
Import PrimFloat.
Local Open Scope float_scope.
Set Warnings "-inexact-float".

Definition amountMatches (alertAmount txnAmount : float) : bool :=
  let amountDiff := abs (alertAmount - txnAmount) in
  let amountDiffPercent :=
    if 0 <? alertAmount then amountDiff / alertAmount else 0 in
  amountDiffPercent <=? 0.02.

Definition score (amountOk accountOk timeOk : bool) (similarity : float)
    : float :=
  let confidence := 0 in
  let confidence := if amountOk then confidence + 0.4 else confidence in
  let confidence := if accountOk then confidence + 0.3 else confidence in
  let confidence := if timeOk then confidence + 0.2 else confidence in
  confidence + similarity * 0.1.

Set Warnings "+inexact-float".

(** The value a binary64 number stands for. *)
Definition value (f : float) : number :=
  match FloatOps.Prim2SF f with
  | SpecFloat.S754_zero _ => Num 0%Q
  | SpecFloat.S754_infinity s => if s then NInf else PInf
  | SpecFloat.S754_nan => NaN
  | SpecFloat.S754_finite s m e =>
      let v := if (0 <=? e)%Z then inject_Z (Z.pos m * 2 ^ e)
               else Qred (Z.pos m # Z.to_pos (2 ^ (- e))) in
      Num (if s then (- v)%Q else v)
  end.
End Binary64.

(** * Notions used by the statements *)

Import TransactionMatcher BankAlertParser.

Arguments num_gtb : simpl never.
Arguments num_geb : simpl never.

(** The contribution of a factor that passed. *)
Definition weight (passed : bool) (w : Q) : Q := if passed then w else 0.

(** [a] may stand before [b] in the ranking: [a.confidence >= b.confidence]. *)
Definition ranked_before (a b : MatchResult) : Prop :=
  num_geb (confidence a) (confidence b) = true.

Definition finite_confidence (r : MatchResult) : Prop :=
  exists q, confidence r = Num q.

(** The results whose confidence is [c]. *)
Definition at_confidence (c : number) (l : list MatchResult) : list MatchResult :=
  filter (fun r => Is_true (num_eqb (confidence r) c)) l.

(** Every way through [r] closes the capture group. *)
Fixpoint closes_group (r : regex) : bool :=
  match r with
  | RGroup _ => true
  | RSeq a b => closes_group a || closes_group b
  | RAlt a b => closes_group a && closes_group b
  | _ => false
  end.

(** ** The distance of the specification

    The edit distance between the first [i] code units of [s1] and the
    first [j] of [s2], by the standard recurrence: a deletion, an
    insertion or a substitution, each at cost one. *)

Definition substitution_cost (s1 s2 : jsstring) (i j : nat) : nat :=
  if bool_decide (s1 !! i = s2 !! j) then 0%nat else 1%nat.

Fixpoint wagner_fischer (s1 s2 : jsstring) (i : nat) : nat -> nat :=
  match i with
  | O => fun j => j
  | S i' =>
      fix row (j : nat) : nat :=
        match j with
        | O => S i'
        | S j' =>
            Nat.min (Nat.min (wagner_fischer s1 s2 i' (S j') + 1)%nat (row j' + 1)%nat)
                    (wagner_fischer s1 s2 i' j' + substitution_cost s1 s2 i' j')%nat
        end
  end.

Definition levenshtein (s1 s2 : jsstring) : nat :=
  wagner_fischer s1 s2 (length s1) (length s2).

(** ** Invariants of the distance loops

    After the outer loop has run for index [i] the array is row [i] of the
    table. Before the inner loop runs for index [j] in row [i], the entries
    below [j - 1] belong to row [i], the others to row [i - 1], and
    [lastValue] is the entry of row [i] at [j - 1]. *)

Definition row_holds (s1 s2 : jsstring) (i : nat) (costs : list nat) : Prop :=
  length costs = S (length s2) /\
  forall j, (j <= length s2)%nat -> costs !! j = Some (wagner_fischer s1 s2 i j).

Definition inner_holds (s1 s2 : jsstring) (i j : nat) (st : list nat * nat) : Prop :=
  length st.1 = S (length s2) /\
  (forall k, (k + 1 < j)%nat -> st.1 !! k = Some (wagner_fischer s1 s2 i k)) /\
  (forall k, (j <= k + 1)%nat -> (k <= length s2)%nat ->
             st.1 !! k = Some (wagner_fischer s1 s2 (i - 1)%nat k)) /\
  st.2 = wagner_fischer s1 s2 i (j - 1)%nat.

(** ** What a pattern accepts

    The words of a pattern, and the texts its capture group can hold, read
    off the pattern alone; the matcher is checked against them below. *)

Fixpoint lang (ic : bool) (r : regex) (w : jsstring) : Prop :=
  match r with
  | REmpty => w = []
  | RAtom cl => exists c, w = [c] /\ class_match ic cl c = true
  | RRepeat cl lo hi =>
      Forall (fun c => class_match ic cl c = true) w /\
      (lo <= length w)%nat /\
      (forall h, hi = Some h -> (length w <= h)%nat)
  | RSeq r1 r2 => exists w1 w2, w = w1 ++ w2 /\ lang ic r1 w1 /\ lang ic r2 w2
  | RAlt r1 r2 => lang ic r1 w \/ lang ic r2 w
  | RGroup r1 => lang ic r1 w
  end.

Fixpoint group_lang (ic : bool) (r : regex) (g : jsstring) : Prop :=
  match r with
  | RGroup r1 => lang ic r1 g
  | RSeq r1 r2 | RAlt r1 r2 => group_lang ic r1 g \/ group_lang ic r2 g
  | _ => False
  end.

(** [g] occurs in [w]. *)
Definition occurs_in (g w : jsstring) : Prop :=
  exists before after, w = before ++ g ++ after.

(** [w] occurs in [s] in some letter case: a stretch of [s] is [w] once
    lowered. *)
Definition occurs_caseless (w s : jsstring) : Prop :=
  exists before mid after,
    s = before ++ mid ++ after /\ toLowerCase mid = w.

(** The number a run of integer digits and a run of fraction digits
    denote. *)
Definition decimal_value (ip fp : jsstring) : Q :=
  inject_Z (digits_value 0 (ip ++ fp)) / inject_Z (10 ^ Z.of_nat (length fp)).

Definition all_digits (s : jsstring) : Prop := Forall (fun c => is_digit c = true) s.

(** ** The orchestrator: [TelexBankAlertMatcherAgent]

    The agent object holds its metrics and its configuration; the parser
    and the matcher it owns have no fields. The table of profiles is the
    parser module's, shared by every agent. *)

Module Agent.

Record AgentMetrics : Type := mkAgentMetrics {
  totalAlerts : nat;
  matchedAlerts : nat;
  accuracy : number;
  lastRun : number;
}.

Record AgentConfig : Type := mkAgentConfig {
  bankTypes : list jsstring;
  timeWindowMs : number;
  amountTolerance : number;
  confidenceThreshold : number;
}.

(** [AgentConfig] with every field optional, as the constructor and
    [updateConfig] receive it. *)
Record PartialAgentConfig : Type := mkPartialAgentConfig {
  new_bankTypes : option (list jsstring);
  new_timeWindowMs : option number;
  new_amountTolerance : option number;
  new_confidenceThreshold : option number;
}.

Record agent : Type := mkAgent {
  metrics : AgentMetrics;
  config : AgentConfig;
}.

(** [{ ...config, ...newConfig }] *)
Definition spread_config (c : AgentConfig) (n : PartialAgentConfig) : AgentConfig :=
  {| bankTypes := default (bankTypes c) (new_bankTypes n);
     timeWindowMs := default (timeWindowMs c) (new_timeWindowMs n);
     amountTolerance := default (amountTolerance c) (new_amountTolerance n);
     confidenceThreshold :=
       default (confidenceThreshold c) (new_confidenceThreshold n) |}.

Definition default_config : AgentConfig :=
  {| bankTypes := [str "gtbank"; str "access"];
     timeWindowMs := Num (15 * 60 * 1000);
     amountTolerance := Num 0.02;
     confidenceThreshold := Num 0.6 |}.

Definition updateConfig (newConfig : PartialAgentConfig) (a : agent) : agent :=
  {| metrics := metrics a; config := spread_config (config a) newConfig |}.

Definition getConfig (a : agent) : AgentConfig := config a.

(** [this.metrics.accuracy >= 0.8] *)
Definition isMeetingTarget (a : agent) : bool :=
  num_geb (accuracy (metrics a)) (Num 0.8).

(** The decimal text of an integer, as a template literal renders it. *)
Definition integer_text (z : Z) : jsstring := str (pretty z).

(** [`alert-${Date.now()}-${idx}`] *)
Definition alert_id_text (now : Z) (idx : nat) : jsstring :=
  str "alert-" ++ integer_text now ++ str "-" ++ integer_text (Z.of_nat idx).

(** [{ id, ...parsed }] *)
Definition with_id (id : jsstring) (p : ParsedAlert) : BankAlert :=
  {| alert_id := id;
     alert_timestamp := parsed_timestamp p;
     alert_amount := parsed_amount p;
     alert_currency := parsed_currency p;
     alert_accountNumber := parsed_accountNumber p;
     alert_description := parsed_description p;
     alert_transactionType := parsed_transactionType p;
     alert_rawEmail := parsed_rawEmail p;
     alert_bank := parsed_bank p |}.

Section Host.
Variable Date_now : nat -> Z.
Variable Date_parse : jsstring -> number.
Variable String_toLowerCase : jsstring -> jsstring.

(** The constructor. *)
Definition create (given : option PartialAgentConfig) : clock agent :=
  do now <- tick Date_now;
  ret {| metrics := {| totalAlerts := 0; matchedAlerts := 0;
                       accuracy := Num 0; lastRun := now |};
         config := match given with
                   | Some c => spread_config default_config c
                   | None => default_config
                   end |}.

Definition resetMetrics (a : agent) : clock agent :=
  do now <- tick Date_now;
  ret {| metrics := {| totalAlerts := 0; matchedAlerts := 0;
                       accuracy := Num 0; lastRun := now |};
         config := config a |}.

(** [emails.map((email, idx) => ({ id: ..., ...parseEmail(email, bankType) }))],
    from index [idx] on. The id is computed, reading the clock, before the
    email is parsed; a throw from the parser ends the call. *)
Fixpoint build_alerts (table : gmap jsstring BankPatterns)
    (emails : list jsstring) (idx : nat) (bankType : jsstring)
    : clock (outcome (list BankAlert)) :=
  match emails with
  | [] => ret (Ok [])
  | email :: rest =>
      fun k =>
        let id := alert_id_text (Date_now k) idx in
        let '(parsed, k1) :=
          parseEmail Date_now Date_parse table email bankType (S k) in
        match parsed with
        | Throw => (Throw, k1)
        | Ok p =>
            let '(others, k2) := build_alerts table rest (S idx) bankType k1 in
            (outcome_map (cons (with_id id p)) others, k2)
        end
  end.

(** The [for] loop over the alerts, on the metrics and the results so far.
    With no candidate, [matches[0]] is [undefined]: it is pushed, the alert
    is counted, and reading [bestMatch.matched] throws. *)
Fixpoint match_alerts (alerts : list BankAlert) (transactions : list Transaction)
    (m : AgentMetrics) (results : list MatchResult)
    : clock (outcome (list MatchResult) * AgentMetrics) :=
  match alerts with
  | [] => ret (Ok results, m)
  | alert :: rest =>
      do matches <- findMatches Date_now Date_parse String_toLowerCase alert transactions;
      let counted :=
        {| totalAlerts := S (totalAlerts m); matchedAlerts := matchedAlerts m;
           accuracy := accuracy m; lastRun := lastRun m |} in
      match matches with
      | [] => ret (Throw, counted)
      | bestMatch :: _ =>
          let m' :=
            if matched bestMatch
            then {| totalAlerts := totalAlerts counted;
                    matchedAlerts := S (matchedAlerts counted);
                    accuracy := accuracy counted; lastRun := lastRun counted |}
            else counted in
          match_alerts rest transactions m' (results ++ [bestMatch])
      end
  end.

(** [processAlerts(emails, transactions, bankType)]: the outcome and the
    agent afterwards. A throw leaves the metrics as they were when it
    happened. *)
Definition processAlerts (table : gmap jsstring BankPatterns)
    (emails : list jsstring) (transactions : list Transaction)
    (bankType : jsstring) (a : agent) : clock (outcome (list MatchResult) * agent) :=
  do built <- build_alerts table emails 0 bankType;
  match built with
  | Throw => ret (Throw, a)
  | Ok alerts =>
      do looped <- match_alerts alerts transactions (metrics a) [];
      let '(r, m) := looped in
      match r with
      | Throw => ret (Throw, {| metrics := m; config := config a |})
      | Ok results =>
          let acc :=
            if (0 <? totalAlerts m)%nat
            then num_div (of_nat (matchedAlerts m)) (of_nat (totalAlerts m))
            else Num 0 in
          do now <- tick Date_now;
          ret (Ok results,
               {| metrics := {| totalAlerts := totalAlerts m;
                                matchedAlerts := matchedAlerts m;
                                accuracy := acc; lastRun := now |};
                  config := config a |})
      end
  end.
End Host.

End Agent.

(** [alert] has the given id and, field by field, what the extractor
    returned. *)
Definition alert_of (id : jsstring) (parsed : ParsedAlert) (alert : BankAlert)
    : Prop :=
  alert_id alert = id /\
  alert_timestamp alert = parsed_timestamp parsed /\
  alert_amount alert = parsed_amount parsed /\
  alert_currency alert = parsed_currency parsed /\
  alert_accountNumber alert = parsed_accountNumber parsed /\
  alert_description alert = parsed_description parsed /\
  alert_transactionType alert = parsed_transactionType parsed /\
  alert_rawEmail alert = parsed_rawEmail parsed /\
  alert_bank alert = parsed_bank parsed.

(** Text of ASCII code units, and what the language fixes of the host's
    [toLowerCase] on such text: [A] to [Z] become [a] to [z], unit by unit. *)
Definition ascii_text (s : jsstring) : Prop := Forall (fun c => (c < 128)%N) s.

Definition lowers_ascii (f : jsstring -> jsstring) : Prop :=
  forall s, ascii_text s -> f s = toLowerCase s.

(** ** Sample inputs *)

Definition sample_now : nat -> Z := fun k => (1700000000000 + Z.of_nat k)%Z.
Definition sample_parse : jsstring -> number := fun _ => NaN.
Definition sample_lower : jsstring -> jsstring := toLowerCase.

Definition sample_alert (amount : number) (account : jsstring) : BankAlert :=
  {| alert_id := str "alert-1";
     alert_timestamp := TDate (Num 1000);
     alert_amount := amount;
     alert_currency := str "NGN";
     alert_accountNumber := account;
     alert_description := str "Transfer to ACME Corp";
     alert_transactionType := credit;
     alert_rawEmail := str "Transfer to ACME Corp";
     alert_bank := str "gtbank" |}.

Definition sample_txn (amount : number) (account : jsstring) : Transaction :=
  {| txn_id := str "tx-001";
     txn_timestamp := TDate (Num 2000);
     txn_amount := amount;
     txn_currency := str "NGN";
     txn_accountNumber := account;
     txn_description := str "Transfer to ACME Ltd";
     txn_status := completed;
     txn_source := str "api" |}.

(** A batch, a candidate list and an agent to evaluate the statements
    on. *)
Definition sample_email : jsstring :=
  str "Amount: 1,250.50 on 15/10/2024 14:30:45 Account: ****1234 debit".

Definition sample_emails : list jsstring := [sample_email; str "hello"].

Definition sample_txns : list Transaction :=
  [sample_txn (Num 1250) (str "****1234"); sample_txn (Num 5) []].

Definition sample_agent : Agent.agent :=
  {| Agent.metrics := {| Agent.totalAlerts := 0; Agent.matchedAlerts := 0;
                         Agent.accuracy := Num 0; Agent.lastRun := Num 0 |};
     Agent.config := Agent.default_config |}.

(** * Properties *)

(** ** Numbers *)
Section NumberFacts.
Lemma Qsign_pos q : 0 < q -> Qsign q = Gt.
Proof. intros H. unfold Qsign. by apply Qgt_alt. Qed.

Lemma num_gtb_Num x y : num_gtb (Num x) (Num y) = true <-> y < x.
Proof.
  unfold num_gtb, num_ltb. rewrite Qlt_alt.
  destruct (y ?= x); split; congruence.
Qed.

Lemma num_leb_Num x y : num_leb (Num x) (Num y) = true <-> x <= y.
Proof. simpl. apply Qle_bool_iff. Qed.

Lemma num_geb_Num x y : num_geb (Num x) (Num y) = true <-> y <= x.
Proof. unfold num_geb. apply num_leb_Num. Qed.

Lemma of_nat_ratio (l d : nat) :
  (0 < l)%nat -> (d <= l)%nat ->
  exists q, num_div (num_sub (of_nat l) (of_nat d)) (of_nat l) = Num q /\
            0 <= q <= 1 /\
            q == (inject_Z (Z.of_nat l) - inject_Z (Z.of_nat d)) / inject_Z (Z.of_nat l).
Proof.
  intros Hl Hd. unfold of_nat. simpl.
  assert (Hpos : 0 < inject_Z (Z.of_nat l)).
  { change 0 with (inject_Z 0). rewrite <- Zlt_Qlt. lia. }
  assert (Hle : inject_Z (Z.of_nat d) <= inject_Z (Z.of_nat l)).
  { rewrite <- Zle_Qle. lia. }
  assert (Hd0 : 0 <= inject_Z (Z.of_nat d)).
  { change 0 with (inject_Z 0). rewrite <- Zle_Qle. lia. }
  rewrite (Qsign_pos _ Hpos). eexists. split; [reflexivity|]. split; [split|].
  - apply Qle_shift_div_l; [done|]. lra.
  - apply Qle_shift_div_r; [done|]. lra.
  - unfold Qminus. reflexivity.
Qed.
End NumberFacts.

(** ** The distance loops *)

Section WagnerFischer.
Local Open Scope nat_scope.
Variables s1 s2 : jsstring.
Local Abbreviation D := (wagner_fischer s1 s2).

Lemma wf_step (i j : nat) :
  D (S i) (S j) =
  Nat.min (Nat.min (D i (S j) + 1) (D (S i) j + 1))
          (D i j + substitution_cost s1 s2 i j).
Proof. reflexivity. Qed.

Lemma wf_col0 (i : nat) : D i 0 = i.
Proof. by destruct i. Qed.

Lemma wf_cost_le (i j : nat) : substitution_cost s1 s2 i j <= 1.
Proof. unfold substitution_cost. case_bool_decide; lia. Qed.

Lemma wf_right (i j : nat) : D i (S j) <= D i j + 1.
Proof. destruct i; [simpl; lia|]. rewrite wf_step. lia. Qed.

Lemma wf_down (i j : nat) : D (S i) j <= D i j + 1.
Proof. destruct j; [rewrite !wf_col0; lia|]. rewrite wf_step. lia. Qed.

Lemma wf_up (i j : nat) : D i j <= D (S i) j + 1.
Proof.
  induction j as [|j IH]; [rewrite !wf_col0; lia|].
  rewrite wf_step. pose proof (wf_right i j). lia.
Qed.

Lemma wf_left (i j : nat) : D i j <= D i (S j) + 1.
Proof.
  induction i as [|i IH]; [simpl; lia|].
  rewrite wf_step. pose proof (wf_down i j). lia.
Qed.

Lemma wf_equal (i j : nat) :
  s1 !! i = s2 !! j -> D (S i) (S j) = D i j.
Proof.
  intros E. rewrite wf_step. unfold substitution_cost.
  rewrite bool_decide_eq_true_2 by done.
  pose proof (wf_left i j). pose proof (wf_up i j). lia.
Qed.

Lemma wf_differ (i j : nat) :
  s1 !! i <> s2 !! j ->
  D (S i) (S j) = Nat.min (Nat.min (D i j) (D (S i) j)) (D i (S j)) + 1.
Proof.
  intros E. rewrite wf_step. unfold substitution_cost.
  rewrite bool_decide_eq_false_2 by done. lia.
Qed.

Lemma wf_le_max (i j : nat) : D i j <= Nat.max i j.
Proof.
  revert j. induction i as [|i IH]; intros j; [simpl; lia|].
  induction j as [|j IHj]; [rewrite wf_col0; lia|].
  rewrite wf_step. pose proof (IH j). pose proof (wf_cost_le i j). lia.
Qed.
End WagnerFischer.

Lemma wf_sym (s1 s2 : jsstring) (i j : nat) :
  wagner_fischer s1 s2 i j = wagner_fischer s2 s1 j i.
Proof.
  revert j. induction i as [|i IH]; intros j.
  - by rewrite wf_col0.
  - induction j as [|j IHj]; [by rewrite wf_col0|].
    rewrite !wf_step, IHj, !IH. unfold substitution_cost.
    destruct (decide (s1 !! i = s2 !! j)) as [E|E].
    + rewrite !bool_decide_eq_true_2 by done. lia.
    + rewrite !bool_decide_eq_false_2 by done. lia.
Qed.

Lemma levenshtein_sym (s1 s2 : jsstring) : levenshtein s1 s2 = levenshtein s2 s1.
Proof. apply wf_sym. Qed.

Section DistanceLoops.
Local Open Scope nat_scope.
Variables s1 s2 : jsstring.
Local Abbreviation D := (wagner_fischer s1 s2).
Local Abbreviation row_holds := (row_holds s1 s2).
Local Abbreviation inner_holds := (inner_holds s1 s2).

Lemma first_row_loop (n j0 : nat) (costs : list nat) (lv : nat) :
  length costs = j0 ->
  foldl (inner_body s1 s2 0) (costs, lv) (seq j0 n) = (costs ++ seq j0 n, lv).
Proof.
  revert j0 costs. induction n as [|n IH]; intros j0 costs Hlen; simpl.
  - by rewrite app_nil_r.
  - unfold array_set. rewrite bool_decide_eq_false_2 by lia.
    rewrite IH by (rewrite length_app; simpl; lia).
    by rewrite <- app_assoc.
Qed.

Lemma first_row : row_holds 0 (outer_body s1 s2 [] 0).
Proof.
  unfold outer_body. rewrite first_row_loop by done. simpl. split.
  - simpl. by rewrite length_seq.
  - intros j Hj. change (0 :: seq 1 (length s2)) with (seq 0 (S (length s2))).
    by rewrite lookup_seq_lt by lia.
Qed.

Lemma array_get_lookup (costs : list nat) (j v : nat) :
  costs !! j = Some v -> array_get costs j = v.
Proof. unfold array_get. by intros ->. Qed.

Lemma inner_step (i j : nat) (st : list nat * nat) :
  1 <= i -> j <= length s2 ->
  inner_holds i j st -> inner_holds i (S j) (inner_body s1 s2 i st j).
Proof.
  intros Hi Hj. destruct st as [costs lv]. intros (Hlen & Hnew & Hold & Hlv).
  cbn [fst snd] in *. unfold inner_body.
  destruct (Nat.eqb_spec i 0) as [->|_]; [lia|].
  destruct (Nat.ltb_spec 0 j) as [Hpos|Hz].
  - destruct i as [|i]; [lia|]. destruct j as [|j]; [lia|].
    replace (S i - 1) with i in * by lia. replace (S j - 1) with j in * by lia.
    rewrite (array_get_lookup costs j (D i j)) by (apply Hold; lia).
    rewrite (array_get_lookup costs (S j) (D i (S j))) by (apply Hold; lia).
    unfold array_set. rewrite bool_decide_eq_true_2 by lia.
    repeat split; cbn [fst snd].
    + by rewrite length_insert.
    + intros k Hk. destruct (decide (k = j)) as [->|Hne].
      * rewrite list_lookup_insert_eq by lia. by rewrite Hlv.
      * rewrite list_lookup_insert_ne by lia. apply Hnew. lia.
    + intros k Hk Hm. rewrite list_lookup_insert_ne by lia.
      replace (S i - 1) with i by lia. apply Hold; lia.
    + replace (S (S j) - 1) with (S j) by lia. rewrite Hlv.
      case_bool_decide as E.
      * by rewrite wf_differ.
      * rewrite wf_equal; [done|]. by destruct (decide (s1 !! i = s2 !! j)).
  - assert (j = 0) as -> by lia.
    repeat split; cbn [fst snd]; auto; try lia.
    intros k Hk Hm. apply Hold; lia.
Qed.

Lemma inner_loop (i n j : nat) (st : list nat * nat) :
  1 <= i -> j + n <= S (length s2) ->
  inner_holds i j st ->
  inner_holds i (j + n) (foldl (inner_body s1 s2 i) st (seq j n)).
Proof.
  intros Hi. revert j st. induction n as [|n IH]; intros j st Hn Hinv; simpl.
  - by rewrite Nat.add_0_r.
  - replace (j + S n) with (S j + n) by lia.
    apply IH; [lia|]. apply inner_step; [done|lia|done].
Qed.

Lemma outer_step (i : nat) (costs : list nat) :
  1 <= i -> row_holds (i - 1) costs -> row_holds i (outer_body s1 s2 costs i).
Proof.
  intros Hi [Hlen Hrow]. unfold outer_body.
  assert (inner_holds i 0 (costs, i)) as H0.
  { repeat split; simpl; auto; try lia. by rewrite wf_col0. }
  apply (inner_loop i (S (length s2)) 0 _ Hi) in H0; [|lia].
  destruct (foldl _ _ _) as [costs' lv].
  destruct H0 as (Hlen' & Hnew & Hold & Hlv).
  simpl in *. destruct (Nat.ltb_spec 0 i); [|lia].
  unfold array_set. rewrite bool_decide_eq_true_2 by lia. split.
  - by rewrite length_insert.
  - intros j Hj. destruct (decide (j = length s2)) as [->|Hne].
    + rewrite list_lookup_insert_eq by lia. rewrite Hlv. do 2 f_equal. lia.
    + rewrite list_lookup_insert_ne by done. apply Hnew. lia.
Qed.

Lemma outer_loop (n i : nat) (costs : list nat) :
  1 <= i -> row_holds (i - 1) costs ->
  row_holds (i + n - 1) (foldl (outer_body s1 s2) costs (seq i n)).
Proof.
  revert i costs. induction n as [|n IH]; intros i costs Hi Hrow; simpl.
  - by rewrite Nat.add_0_r.
  - replace (i + S n - 1) with (S i + n - 1) by lia.
    apply IH; [lia|]. simpl. rewrite Nat.sub_0_r.
    apply outer_step; done.
Qed.

(** The loops compute the distance of the specification. *)
Lemma levenshteinDistance_correct : levenshteinDistance s1 s2 = levenshtein s1 s2.
Proof.
  unfold levenshteinDistance, levenshtein. simpl.
  pose proof (outer_loop (length s1) 1 (outer_body s1 s2 [] 0) ltac:(lia) first_row)
    as [_ H].
  apply array_get_lookup. rewrite H by lia. do 2 f_equal. lia.
Qed.
End DistanceLoops.

Lemma levenshteinDistance_le_max (s1 s2 : jsstring) :
  (levenshteinDistance s1 s2 <= Nat.max (length s1) (length s2))%nat.
Proof. rewrite levenshteinDistance_correct. apply wf_le_max. Qed.

(** ** Similarity *)

Lemma calculateSimilarity_range (String_toLowerCase : jsstring -> jsstring)
    (a b : jsstring) :
  exists q, calculateSimilarity String_toLowerCase a b = Num q /\ 0 <= q <= 1.
Proof.
  unfold calculateSimilarity.
  set (s1 := trim (String_toLowerCase a)).
  set (s2 := trim (String_toLowerCase b)).
  destruct (jsstring_eqb s1 s2); [exists 1; split; [done|lra]|].
  destruct (Nat.eqb_spec (length s1) 0) as [|H1]; simpl;
    [exists 0; split; [done|lra]|].
  destruct (Nat.eqb_spec (length s2) 0) as [|H2]; simpl;
    [exists 0; split; [done|lra]|].
  destruct (Nat.ltb_spec (length s2) (length s1)) as [Hlt|Hge].
  - pose proof (levenshteinDistance_le_max s2 s1) as Hd.
    destruct (of_nat_ratio (length s1) (levenshteinDistance s2 s1))
      as (q & Hq & Hr & _); [lia|lia|]. by exists q.
  - pose proof (levenshteinDistance_le_max s1 s2) as Hd.
    destruct (of_nat_ratio (length s2) (levenshteinDistance s1 s2))
      as (q & Hq & Hr & _); [lia|lia|]. by exists q.
Qed.

Lemma calculateSimilarity_refl (String_toLowerCase : jsstring -> jsstring)
    (s : jsstring) :
  calculateSimilarity String_toLowerCase s s = Num 1.
Proof.
  unfold calculateSimilarity, jsstring_eqb.
  by rewrite bool_decide_eq_true_2.
Qed.

(** ** The confidence sum *)

Lemma score_value (am ac tm : bool) (s : Q) :
  exists c, score am ac tm (Num s) = Num c /\
            c == weight am 0.4 + weight ac 0.3 + weight tm 0.2 + s * 0.1.
Proof.
  destruct am, ac, tm; simpl; eexists; (split; [reflexivity|]);
    unfold weight; ring.
Qed.

Lemma score_range (am ac tm : bool) (s : Q) :
  0 <= s <= 1 ->
  exists c, score am ac tm (Num s) = Num c /\ 0 <= c <= 1.
Proof.
  intros Hs. destruct (score_value am ac tm s) as (c & Hc & Hv).
  exists c. split; [done|]. rewrite Hv.
  destruct am, ac, tm; unfold weight; lra.
Qed.

Section ScoreMatch.
Variable Date_now : nat -> Z.
Variable Date_parse : jsstring -> number.
Variable String_toLowerCase : jsstring -> jsstring.

Local Abbreviation scoreMatch := (scoreMatch Date_now Date_parse String_toLowerCase).

(** What a call of [scoreMatch] returns, with the two timestamps it read
    named. *)
Lemma scoreMatch_unfold (alert : BankAlert) (txn : Transaction) (k : nat) :
  exists timeDiff : number,
    let similarity :=
      calculateSimilarity String_toLowerCase (alert_description alert) (txn_description txn) in
    let c := score (amountMatches alert txn) (accountMatches alert txn)
                   (withinTimeWindow timeDiff) similarity in
    (scoreMatch alert txn k).1 =
      {| alertId := alert_id alert;
         transactionId :=
           if num_geb c MIN_CONFIDENCE_THRESHOLD then Some (txn_id txn) else None;
         confidence := c;
         matchDetails :=
           {| amountMatch := amountMatches alert txn;
              amountDifference := amountDiff alert txn;
              timeWindow := timeDiff;
              descriptionSimilarity := similarity |};
         matched := num_geb c MIN_CONFIDENCE_THRESHOLD |}.
Proof.
  unfold TransactionMatcher.scoreMatch, bind.
  destruct (toTimestamp Date_now Date_parse (alert_timestamp alert) k) as [ta k1].
  destruct (toTimestamp Date_now Date_parse (txn_timestamp txn) k1) as [tt k2].
  exists (Math_abs (num_sub ta tt)). reflexivity.
Qed.

Lemma scoreMatch_confidence (alert : BankAlert) (txn : Transaction) (k : nat) :
  let r := (scoreMatch alert txn k).1 in
  exists c s,
    confidence r = Num c /\
    descriptionSimilarity (matchDetails r) = Num s /\
    0 <= s <= 1 /\
    c == weight (amountMatch (matchDetails r)) 0.4
         + weight (accountMatches alert txn) 0.3
         + weight (withinTimeWindow (timeWindow (matchDetails r))) 0.2
         + s * 0.1.
Proof.
  destruct (scoreMatch_unfold alert txn k) as (td & ->). simpl.
  destruct (calculateSimilarity_range String_toLowerCase (alert_description alert) (txn_description txn))
    as (s & -> & Hs).
  destruct (score_value (amountMatches alert txn) (accountMatches alert txn)
              (withinTimeWindow td) s) as (c & -> & Hc).
  by exists c, s.
Qed.
End ScoreMatch.

(** ** Ranking *)

Section Ranking.
Local Abbreviation insert := (sort_insert by_confidence).
Local Abbreviation sort := (Array_sort by_confidence).

Lemma by_confidence_gt (a b : MatchResult) (x y : Q) :
  confidence a = Num x -> confidence b = Num y ->
  num_gtb (by_confidence a b) (Num 0) = true <-> x < y.
Proof.
  intros Ha Hb. unfold by_confidence. rewrite Ha, Hb. simpl num_sub.
  rewrite num_gtb_Num. split; lra.
Qed.

Lemma gt_not_same_level (a b c : number) :
  num_gtb (num_sub b a) (Num 0) = true ->
  num_eqb a c = true -> num_eqb b c = true -> False.
Proof.
  destruct a as [| | |x], b as [| | |y], c as [| | |z]; try (simpl; done).
  change (num_sub (Num y) (Num x)) with (Num (y + - x)).
  rewrite num_gtb_Num. simpl. intros Hgt Hx Hy.
  apply Qeq_bool_iff in Hx, Hy. lra.
Qed.

Lemma insert_perm (x : MatchResult) (l : list MatchResult) : insert x l ≡ₚ x :: l.
Proof.
  induction l as [|y l IH]; simpl; [done|].
  destruct (num_gtb (by_confidence x y) (Num 0)); [|done].
  rewrite IH. apply Permutation_swap.
Qed.

Lemma sort_perm (l : list MatchResult) : sort l ≡ₚ l.
Proof.
  induction l as [|x l IH]; simpl; [done|].
  rewrite insert_perm. by rewrite IH.
Qed.

Lemma insert_stable (c : number) (x : MatchResult) (l : list MatchResult) :
  at_confidence c (insert x l) = at_confidence c (x :: l).
Proof.
  unfold at_confidence. induction l as [|y l IH]; simpl; [done|].
  destruct (num_gtb (by_confidence x y) (Num 0)) eqn:Hgt; [|done].
  rewrite (filter_cons _ y), IH, !filter_cons.
  repeat case_decide; try done.
  exfalso. eapply (gt_not_same_level (confidence x) (confidence y) c); eauto;
    by apply Is_true_true.
Qed.

Lemma sort_stable (c : number) (l : list MatchResult) :
  at_confidence c (sort l) = at_confidence c l.
Proof.
  induction l as [|x l IH]; simpl; [done|].
  rewrite insert_stable. unfold at_confidence in *.
  by rewrite !filter_cons, IH.
Qed.

Lemma ranked_before_trans (a b c : MatchResult) :
  finite_confidence a -> finite_confidence b -> finite_confidence c ->
  ranked_before a b -> ranked_before b c -> ranked_before a c.
Proof.
  intros [x Hx] [y Hy] [z Hz]. unfold ranked_before.
  rewrite Hx, Hy, Hz, !num_geb_Num. lra.
Qed.

Lemma insert_sorted (x : MatchResult) (l : list MatchResult) :
  finite_confidence x -> Forall finite_confidence l ->
  StronglySorted ranked_before l -> StronglySorted ranked_before (insert x l).
Proof.
  intros Hx Hl Hs. induction Hs as [|y l Hs IH Hy]; simpl.
  - repeat constructor.
  - apply Forall_cons in Hl as [Hfy Hfl].
    destruct Hx as [qx Hqx]. destruct (Hfy) as [qy Hqy].
    destruct (num_gtb (by_confidence x y) (Num 0)) eqn:Hgt.
    + constructor; [by apply IH|].
      rewrite insert_perm. constructor; [|done].
      apply (by_confidence_gt x y qx qy Hqx Hqy) in Hgt.
      unfold ranked_before. rewrite Hqx, Hqy, num_geb_Num. lra.
    + assert (Hxy : ranked_before x y).
      { unfold ranked_before. rewrite Hqx, Hqy, num_geb_Num.
        destruct (Qlt_le_dec qx qy) as [Hlt|Hle]; [|done].
        apply (by_confidence_gt x y qx qy Hqx Hqy) in Hlt. congruence. }
      constructor; [by constructor|]. constructor; [done|].
      rewrite Forall_forall in Hy, Hfl |- *. intros z Hz.
      apply (ranked_before_trans x y z); eauto. by exists qx.
Qed.

Lemma sort_sorted (l : list MatchResult) :
  Forall finite_confidence l -> StronglySorted ranked_before (sort l).
Proof.
  induction 1 as [|x l Hx Hl IH]; simpl; [constructor|].
  apply insert_sorted; [done| |done].
  by rewrite sort_perm.
Qed.
End Ranking.

(** *** The ranking is determined

    Any sort that returns a ranked list and is stable returns what
    [Array_sort] does, so the choice of algorithm in the model does not
    show. *)

Section RankingUnique.
Lemma num_eqb_refl_finite (r : MatchResult) :
  finite_confidence r -> num_eqb (confidence r) (confidence r) = true.
Proof. intros [q ->]. simpl. by apply Qeq_bool_iff. Qed.

Lemma ranked_both_ways (a b : MatchResult) :
  finite_confidence a -> finite_confidence b ->
  ranked_before a b -> ranked_before b a ->
  num_eqb (confidence b) (confidence a) = true.
Proof.
  intros [x Hx] [y Hy]. unfold ranked_before.
  rewrite Hx, Hy, !num_geb_Num. intros H1 H2. simpl.
  apply Qeq_bool_iff. lra.
Qed.

Lemma at_confidence_cons (c : number) (x : MatchResult) (l : list MatchResult) :
  at_confidence c (x :: l) =
  if num_eqb (confidence x) c then x :: at_confidence c l else at_confidence c l.
Proof.
  unfold at_confidence. rewrite filter_cons.
  destruct (num_eqb (confidence x) c); by case_decide.
Qed.

Lemma at_confidence_elem (c : number) (x : MatchResult) (l : list MatchResult) :
  x ∈ at_confidence c l -> x ∈ l.
Proof. unfold at_confidence. rewrite list_elem_of_filter. by intros [_ ?]. Qed.

Lemma head_ranked_first (x y : MatchResult) (l : list MatchResult) :
  finite_confidence x ->
  StronglySorted ranked_before (x :: l) -> y ∈ x :: l -> ranked_before x y.
Proof.
  intros [q Hq] Hs Hy. apply StronglySorted_inv in Hs as [_ Hall].
  apply elem_of_cons in Hy as [->|Hy].
  - unfold ranked_before. rewrite Hq, num_geb_Num. lra.
  - rewrite Forall_forall in Hall. by apply Hall.
Qed.

(** A list that is ranked and keeps, at every confidence, the order another
    ranked list has there, is that list. *)
Lemma ranked_stable_unique (l1 l2 : list MatchResult) :
  Forall finite_confidence l1 -> Forall finite_confidence l2 ->
  StronglySorted ranked_before l1 -> StronglySorted ranked_before l2 ->
  (forall c, at_confidence c l1 = at_confidence c l2) ->
  l1 = l2.
Proof.
  revert l2. induction l1 as [|x l1 IH]; intros l2 Hf1 Hf2 Hs1 Hs2 Heq.
  - destruct l2 as [|y l2]; [done|].
    apply Forall_cons in Hf2 as [Hy _].
    specialize (Heq (confidence y)). rewrite at_confidence_cons in Heq.
    by rewrite (num_eqb_refl_finite y Hy) in Heq.
  - apply Forall_cons in Hf1 as [Hx Hf1].
    pose proof (Heq (confidence x)) as Hcx.
    rewrite at_confidence_cons, (num_eqb_refl_finite x Hx) in Hcx.
    destruct l2 as [|y l2]; [done|].
    apply Forall_cons in Hf2 as [Hy Hf2].
    assert (Hxy : x = y).
    { pose proof (Heq (confidence y)) as Hcy.
      rewrite (at_confidence_cons _ y), (num_eqb_refl_finite y Hy) in Hcy.
      assert (Hy1 : y ∈ x :: l1).
      { eapply at_confidence_elem. rewrite Hcy. by left. }
      assert (Hx2 : x ∈ y :: l2).
      { eapply at_confidence_elem. rewrite <- Hcx. by left. }
      pose proof (head_ranked_first x y l1 Hx Hs1 Hy1) as H1.
      pose proof (head_ranked_first y x l2 Hy Hs2 Hx2) as H2.
      rewrite at_confidence_cons, (ranked_both_ways x y Hx Hy H1 H2) in Hcx.
      by injection Hcx. }
    subst y. f_equal.
    apply StronglySorted_inv in Hs1 as [Hs1 _].
    apply StronglySorted_inv in Hs2 as [Hs2 _].
    apply IH; try done.
    intros c. specialize (Heq c). rewrite !at_confidence_cons in Heq.
    destruct (num_eqb (confidence x) c); [by injection Heq|done].
Qed.

Lemma Array_sort_determined (l l' : list MatchResult) :
  Forall finite_confidence l -> l' ≡ₚ l ->
  StronglySorted ranked_before l' ->
  (forall c, at_confidence c l' = at_confidence c l) ->
  l' = Array_sort by_confidence l.
Proof.
  intros Hf Hp Hs Hst. apply ranked_stable_unique; try done.
  - by rewrite Hp.
  - by rewrite sort_perm.
  - by apply sort_sorted.
  - intros c. by rewrite sort_stable.
Qed.
End RankingUnique.


(** ** The clock does not change how many results there are *)

Lemma mapM_length {A B : Type} (f : A -> clock B) (l : list A) (k : nat) :
  length (mapM f l k).1 = length l.
Proof.
  revert k. induction l as [|x l IH]; intros k; simpl; [done|].
  unfold bind. destruct (f x k) as [y k1].
  specialize (IH k1). destruct (mapM f l k1) as [ys k2]. simpl in *. by rewrite IH.
Qed.

Lemma mapM_Forall {A B : Type} (f : A -> clock B) (P : B -> Prop) (l : list A) (k : nat) :
  (forall x k', P (f x k').1) -> Forall P (mapM f l k).1.
Proof.
  intros Hf. revert k. induction l as [|x l IH]; intros k; simpl; [constructor|].
  unfold bind. pose proof (Hf x k) as Hx. destruct (f x k) as [y k1].
  specialize (IH k1). destruct (mapM f l k1) as [ys k2]. simpl in *. by constructor.
Qed.

Section Scoring.
Variable Date_now : nat -> Z.
Variable Date_parse : jsstring -> number.
Variable String_toLowerCase : jsstring -> jsstring.

Local Abbreviation scoreMatch := (scoreMatch Date_now Date_parse String_toLowerCase).
Local Abbreviation findMatches := (findMatches Date_now Date_parse String_toLowerCase).

Lemma findMatches_unfold (alert : BankAlert) (txns : list Transaction) (k : nat) :
  (findMatches alert txns k).1 =
  Array_sort by_confidence (mapM (scoreMatch alert) txns k).1.
Proof.
  unfold TransactionMatcher.findMatches, bind.
  by destruct (mapM _ txns k).
Qed.

Lemma scoreMatch_finite (alert : BankAlert) (txn : Transaction) (k : nat) :
  exists c, confidence (scoreMatch alert txn k).1 = Num c /\ 0 <= c <= 1.
Proof.
  destruct (scoreMatch_unfold Date_now Date_parse String_toLowerCase alert txn k) as (td & ->). simpl.
  destruct (calculateSimilarity_range String_toLowerCase (alert_description alert) (txn_description txn))
    as (s & -> & Hs).
  by apply score_range.
Qed.

(** C2. The result of scoring one candidate is [matched] exactly when its
    confidence is at least 0.6; its [transactionId] is the candidate's id
    when it is matched and null otherwise. *)
Theorem scoreMatch_matched_iff_threshold
    (alert : BankAlert) (txn : Transaction) (k : nat) :
  let r := (scoreMatch alert txn k).1 in
  exists c,
    confidence r = Num c /\
    (matched r = true <-> 0.6 <= c) /\
    transactionId r = (if matched r then Some (txn_id txn) else None).
Proof.
  destruct (scoreMatch_finite alert txn k) as (c & Hc & _).
  destruct (scoreMatch_unfold Date_now Date_parse String_toLowerCase alert txn k) as (td & E).
  simpl in E. rewrite E in Hc |- *. simpl in Hc |- *.
  exists c. split; [done|]. split; [|done].
  rewrite Hc. unfold MIN_CONFIDENCE_THRESHOLD. apply num_geb_Num.
Qed.

(** C3. Scoring an alert against N candidates returns N results, a
    rearrangement of the per-candidate results with none left out, each
    with a confidence between 0 and 1. *)
Theorem findMatches_one_result_per_candidate
    (alert : BankAlert) (txns : list Transaction) (k : nat) :
  let results := (findMatches alert txns k).1 in
  length results = length txns /\
  results ≡ₚ (mapM (scoreMatch alert) txns k).1 /\
  Forall (fun r => exists c, confidence r = Num c /\ 0 <= c <= 1) results.
Proof.
  simpl. rewrite findMatches_unfold.
  pose proof (sort_perm (mapM (scoreMatch alert) txns k).1) as Hp.
  split; [|split].
  - rewrite Hp. apply mapM_length.
  - done.
  - rewrite Hp. apply mapM_Forall. intros txn k'. apply scoreMatch_finite.
Qed.

(** C4. The results are in non-increasing order of confidence; results of
    equal confidence keep the order of their candidates; and the first
    result, which exists whenever there is a candidate, has the greatest
    confidence, so that when it is not matched no result is. *)
Theorem findMatches_ranked_and_stable
    (alert : BankAlert) (txns : list Transaction) (k : nat) :
  let scored := (mapM (scoreMatch alert) txns k).1 in
  let results := (findMatches alert txns k).1 in
  StronglySorted ranked_before results /\
  (forall c, at_confidence c results = at_confidence c scored) /\
  match results with
  | [] => txns = []
  | best :: _ =>
      Forall (ranked_before best) results /\
      (matched best = false -> Forall (fun r => matched r = false) results)
  end.
Proof.
  simpl.
  assert (Hfin : Forall (fun r => finite_confidence r /\
                          matched r = num_geb (confidence r) MIN_CONFIDENCE_THRESHOLD)
                        (mapM (scoreMatch alert) txns k).1).
  { apply mapM_Forall. intros txn k'.
    destruct (scoreMatch_finite alert txn k') as (c & Hc & _).
    split; [by exists c|].
    by destruct (scoreMatch_unfold Date_now Date_parse String_toLowerCase alert txn k') as (td & ->). }
  pose proof (mapM_length (scoreMatch alert) txns k) as Hlen.
  rewrite findMatches_unfold.
  pose proof (sort_perm (mapM (scoreMatch alert) txns k).1) as Hp.
  assert (Hs : StronglySorted ranked_before
                 (Array_sort by_confidence (mapM (scoreMatch alert) txns k).1)).
  { apply sort_sorted. eapply Forall_impl; [exact Hfin|]. by intros r [? _]. }
  rewrite <- Hp in Hfin, Hlen.
  split; [done|]. split; [intros c; apply sort_stable|].
  destruct (Array_sort _ _) as [|best rest].
  - destruct txns; [done|]. simpl in Hlen. lia.
  - apply StronglySorted_inv in Hs as [_ Hbest].
    apply Forall_cons in Hfin as [[[qb Hqb] Hmb] Hrest].
    assert (Hself : ranked_before best best).
    { unfold ranked_before. rewrite Hqb, num_geb_Num. lra. }
    split; [by constructor|].
    intros Hno. constructor; [done|].
    rewrite Forall_forall in Hbest, Hrest |- *. intros r Hr.
    destruct (Hrest r Hr) as [[qr Hqr] ->]. specialize (Hbest r Hr).
    unfold ranked_before in Hbest. rewrite Hmb in Hno.
    unfold MIN_CONFIDENCE_THRESHOLD in *.
    rewrite Hqb, Hqr in *. rewrite num_geb_Num in Hbest.
    destruct (num_geb (Num qr) (Num 0.6)) eqn:E; [|done].
    apply num_geb_Num in E.
    assert (num_geb (Num qb) (Num 0.6) = true) by (apply num_geb_Num; lra).
    congruence.
Qed.
End Scoring.

Section Factors.
Variable Date_now : nat -> Z.
Variable Date_parse : jsstring -> number.
Variable String_toLowerCase : jsstring -> jsstring.

Local Abbreviation scoreMatch := (scoreMatch Date_now Date_parse String_toLowerCase).

(** C5. For an alert whose amount is 0 the guard replaces the ratio by 0
    without dividing, so whatever the candidate's amount the amount factor
    passes and its weight 0.4 is part of the confidence. *)
Theorem zero_amount_alert_passes_amount_factor
    (alert : BankAlert) (txn : Transaction) (k : nat) (z : Q) :
  alert_amount alert = Num z -> z == 0 ->
  let r := (scoreMatch alert txn k).1 in
  amountDiffPercent alert txn = Num 0 /\
  amountMatch (matchDetails r) = true /\
  exists c s,
    confidence r = Num c /\
    descriptionSimilarity (matchDetails r) = Num s /\
    c == 0.4 + weight (accountMatches alert txn) 0.3
         + weight (withinTimeWindow (timeWindow (matchDetails r))) 0.2
         + s * 0.1 /\
    0.4 <= c.
Proof.
  intros Ha Hz r. subst r.
  assert (Hp : amountDiffPercent alert txn = Num 0).
  { unfold amountDiffPercent. rewrite Ha.
    destruct (num_gtb (Num z) (Num 0)) eqn:E; [|done].
    apply num_gtb_Num in E. lra. }
  assert (Hm : amountMatches alert txn = true).
  { unfold amountMatches. rewrite Hp. by apply num_leb_Num. }
  destruct (scoreMatch_confidence Date_now Date_parse String_toLowerCase alert txn k)
    as (c & s & Hc & Hs & Hr & Hv).
  assert (Hd : amountMatch (matchDetails (scoreMatch alert txn k).1) = true).
  { by destruct (scoreMatch_unfold Date_now Date_parse String_toLowerCase alert txn k) as (td & ->). }
  split; [done|]. split; [done|].
  exists c, s. rewrite Hd in Hv. unfold weight in Hv at 1.
  repeat split; try done.
  rewrite Hv. unfold weight. repeat case_match; lra.
Qed.

(** C6. With an alert amount of 1000 and the tolerance 0.02, a candidate
    amount of 1020 gives a ratio equal to the tolerance and passes the
    amount factor (the comparison is [<=]); a candidate amount of 1021
    fails it. *)
Theorem amount_tolerance_boundary_inclusive
    (alert : BankAlert) (at_boundary beyond : Transaction) (k : nat) :
  alert_amount alert = Num 1000 ->
  txn_amount at_boundary = Num 1020 ->
  txn_amount beyond = Num 1021 ->
  (exists p, amountDiffPercent alert at_boundary = Num p /\ p == 0.02) /\
  AMOUNT_TOLERANCE = Num 0.02 /\
  amountMatch (matchDetails (scoreMatch alert at_boundary k).1) = true /\
  amountMatch (matchDetails (scoreMatch alert beyond k).1) = false.
Proof.
  intros Ha H20 H21.
  destruct (scoreMatch_unfold Date_now Date_parse String_toLowerCase alert at_boundary k) as (td & ->).
  destruct (scoreMatch_unfold Date_now Date_parse String_toLowerCase alert beyond k) as (td' & ->).
  simpl. unfold amountMatches, amountDiffPercent, amountDiff.
  rewrite Ha, H20, H21. vm_compute. split; [|done].
  eexists. split; [reflexivity|]. reflexivity.
Qed.

End Factors.

Lemma zero_amount_alert_witness :
  let alert := sample_alert (Num 0) (str "****1234") in
  let txn := sample_txn (Num 50000) (str "****1234") in
  let r := (scoreMatch sample_now sample_parse sample_lower alert txn 0%nat).1 in
  alert_amount alert = Num 0 /\ 0 == 0 /\
  amountDiffPercent alert txn = Num 0 /\
  amountMatch (matchDetails r) = true /\
  exists c s,
    confidence r = Num c /\
    descriptionSimilarity (matchDetails r) = Num s /\
    c == 0.4 + weight (accountMatches alert txn) 0.3
         + weight (withinTimeWindow (timeWindow (matchDetails r))) 0.2
         + s * 0.1 /\
    0.4 <= c.
Proof.
  split; [reflexivity|]. split; [reflexivity|].
  apply (zero_amount_alert_passes_amount_factor sample_now sample_parse sample_lower
           (sample_alert (Num 0) (str "****1234"))
           (sample_txn (Num 50000) (str "****1234")) 0%nat 0);
    reflexivity.
Defined.

Lemma amount_tolerance_boundary_witness :
  let alert := sample_alert (Num 1000) (str "****1234") in
  let at_boundary := sample_txn (Num 1020) (str "****1234") in
  let beyond := sample_txn (Num 1021) (str "****1234") in
  alert_amount alert = Num 1000 /\
  txn_amount at_boundary = Num 1020 /\
  txn_amount beyond = Num 1021 /\
  (exists p, amountDiffPercent alert at_boundary = Num p /\ p == 0.02) /\
  AMOUNT_TOLERANCE = Num 0.02 /\
  amountMatch (matchDetails (scoreMatch sample_now sample_parse sample_lower alert at_boundary 0%nat).1) = true /\
  amountMatch (matchDetails (scoreMatch sample_now sample_parse sample_lower alert beyond 0%nat).1) = false.
Proof.
  split; [reflexivity|]. split; [reflexivity|]. split; [reflexivity|].
  apply (amount_tolerance_boundary_inclusive sample_now sample_parse sample_lower
           (sample_alert (Num 1000) (str "****1234"))
           (sample_txn (Num 1020) (str "****1234"))
           (sample_txn (Num 1021) (str "****1234")) 0%nat);
    reflexivity.
Defined.


(** On binary64 the boundary falls the same way: 20 / 1000 rounds to the
    value the literal 0.02 denotes. The largest confidence, all factors
    passing at similarity 1, stays below 1. *)
Section Binary64Check.
Import PrimFloat.
Local Open Scope float_scope.

Lemma binary64_boundary :
  Binary64.amountMatches 1000 1020 = true /\
  Binary64.amountMatches 1000 1021 = false /\
  (Binary64.score true true true 1 <=? 1) = true.
Proof. repeat split; reflexivity. Qed.
End Binary64Check.

Lemma ascii_text_forallb (s : jsstring) :
  forallb (fun c => (c <? 128)%N) s = true -> ascii_text s.
Proof.
  induction s as [|c s IH]; simpl; [constructor|].
  intros [Hc Hs]%andb_prop. constructor; [by apply N.ltb_lt|by apply IH].
Qed.

(** C7. Whatever the host's case mapping, a string is at similarity 1
    from itself, and for normalised (lowercased, trimmed) strings that
    differ the similarity is 0 when one is empty and otherwise the longer
    length less the edit distance, over the longer length. With the case
    mapping the language fixes on ASCII text, the empty string is at
    similarity 0 from ["nonempty"], ["abc"] against ["abd"] gives 2/3,
    strictly between 0 and 1, and ["  ABC "] against ["abc"] gives 1: the
    comparison is made after lowering and trimming. *)
Theorem calculateSimilarity_properties
    (String_toLowerCase : jsstring -> jsstring) :
  (forall s, calculateSimilarity String_toLowerCase s s = Num 1) /\
  (lowers_ascii String_toLowerCase ->
   calculateSimilarity String_toLowerCase (str "") (str "nonempty") = Num 0 /\
   (exists q,
      calculateSimilarity String_toLowerCase (str "abc") (str "abd") = Num q /\
      q == (3 - 1) / 3 /\ 0 < q < 1) /\
   calculateSimilarity String_toLowerCase (str "  ABC ") (str "abc") = Num 1) /\
  (forall a b : jsstring,
     let s1 := trim (String_toLowerCase a) in
     let s2 := trim (String_toLowerCase b) in
     let max_len := inject_Z (Z.of_nat (Nat.max (length s1) (length s2))) in
     s1 <> s2 ->
     (s1 = [] \/ s2 = [] -> calculateSimilarity String_toLowerCase a b = Num 0) /\
     (s1 <> [] -> s2 <> [] ->
      exists q, calculateSimilarity String_toLowerCase a b = Num q /\
                q == (max_len - inject_Z (Z.of_nat (levenshtein s1 s2))) / max_len)).
Proof.
  split; [apply (calculateSimilarity_refl String_toLowerCase)|]. split.
  { intros Hlow.
    assert (Hat : forall s, forallb (fun c => (c <? 128)%N) s = true ->
                            String_toLowerCase s = toLowerCase s).
    { intros s Hs. by apply Hlow, ascii_text_forallb. }
    unfold calculateSimilarity.
    rewrite (Hat (str "")), (Hat (str "nonempty")), (Hat (str "abc")),
      (Hat (str "abd")), (Hat (str "  ABC ")) by (vm_compute; reflexivity).
    split; [reflexivity|]. split; [|reflexivity].
    exists (2 # 3). split; [reflexivity|]. split; [reflexivity|].
    split; reflexivity. }
  intros a b s1 s2 max_len Hne. subst max_len.
  unfold calculateSimilarity. fold s1 s2.
  unfold jsstring_eqb. rewrite bool_decide_eq_false_2 by done. split.
  - intros [-> | ->]; simpl; [done|]. by rewrite orb_true_r.
  - intros H1 H2.
    destruct (Nat.eqb_spec (length s1) 0) as [E|N1];
      [by apply length_zero_iff_nil in E|].
    destruct (Nat.eqb_spec (length s2) 0) as [E|N2];
      [by apply length_zero_iff_nil in E|].
    simpl. destruct (Nat.ltb_spec (length s2) (length s1)) as [Hlt|Hge].
    + rewrite levenshteinDistance_correct, (levenshtein_sym s2 s1).
      pose proof (levenshteinDistance_le_max s2 s1) as Hd.
      rewrite levenshteinDistance_correct, (levenshtein_sym s2 s1) in Hd.
      destruct (of_nat_ratio (length s1) (levenshtein s1 s2))
        as (q & Hq & _ & Hv); [lia|lia|].
      exists q. split; [done|]. by rewrite Nat.max_l by lia.
    + rewrite levenshteinDistance_correct.
      pose proof (levenshteinDistance_le_max s1 s2) as Hd.
      rewrite levenshteinDistance_correct in Hd.
      destruct (of_nat_ratio (length s2) (levenshtein s1 s2))
        as (q & Hq & _ & Hv); [lia|lia|].
      exists q. split; [done|]. by rewrite Nat.max_r by lia.
Qed.

(** The case mapping of the sample host is the ASCII one. *)
Lemma sample_lower_lowers_ascii : lowers_ascii sample_lower.
Proof. intros s _. reflexivity. Defined.

Lemma calculateSimilarity_properties_witness :
  lowers_ascii sample_lower /\
  calculateSimilarity sample_lower (str "") (str "nonempty") = Num 0 /\
  (exists q,
     calculateSimilarity sample_lower (str "abc") (str "abd") = Num q /\
     q == (3 - 1) / 3 /\ 0 < q < 1) /\
  calculateSimilarity sample_lower (str "  ABC ") (str "abc") = Num 1.
Proof.
  split; [exact sample_lower_lowers_ascii|].
  apply (calculateSimilarity_properties sample_lower).
  exact sample_lower_lowers_ascii.
Defined.

(** ** Patterns whose group always takes part *)

Section Captures.
Context {R : Type}.

Lemma repeat_match_inv (p : N -> bool) (lo : nat) (hi : option nat)
    (s : jsstring) (k : jsstring -> option R) (x : R) :
  repeat_match p lo hi s k = Some x -> exists s', k s' = Some x.
Proof.
  revert lo hi. induction s as [|c s IH]; intros lo hi; simpl.
  - destruct lo; [eauto|done].
  - destruct (p c && negb (bool_decide (hi = Some 0%nat))).
    + destruct (repeat_match p (Nat.pred lo) (Nat.pred <$> hi) s k) eqn:E.
      * intros [= ->]. eauto.
      * destruct lo; [eauto|done].
    + destruct lo; [eauto|done].
Qed.

Lemma rmatch_inv (ic : bool) (r : regex) :
  forall (s : jsstring) (cap : option jsstring)
         (k : jsstring -> option jsstring -> option R) (x : R),
    rmatch ic r s cap k = Some x ->
    exists s' cap',
      k s' cap' = Some x /\
      (closes_group r = true \/ is_Some cap -> is_Some cap').
Proof.
  induction r as [|cl|cl lo hi|r1 IH1 r2 IH2|r1 IH1 r2 IH2|r1 IH1];
    intros s cap k x; simpl.
  - intros H. exists s, cap. split; [done|]. by intros [|].
  - destruct s as [|c s]; [done|]. destruct (class_match ic cl c); [|done].
    intros H. exists s, cap. split; [done|]. by intros [|].
  - intros H. apply repeat_match_inv in H as [s' H].
    exists s', cap. split; [done|]. by intros [|].
  - intros H. apply IH1 in H as (s1 & c1 & H & Hc1).
    apply IH2 in H as (s2 & c2 & H & Hc2).
    exists s2, c2. split; [done|].
    intros [Hg|Hcap]; [|by auto].
    apply orb_true_iff in Hg as [Hg|Hg]; auto.
  - destruct (rmatch ic r1 s cap k) eqn:E.
    + intros [= ->]. apply IH1 in E as (s1 & c1 & H & Hc1).
      exists s1, c1. split; [done|].
      intros [Hg|Hcap]; [|by auto]. apply andb_true_iff in Hg as [Hg _]. auto.
    + intros H. apply IH2 in H as (s2 & c2 & H & Hc2).
      exists s2, c2. split; [done|].
      intros [Hg|Hcap]; [|by auto]. apply andb_true_iff in Hg as [_ Hg]. auto.
  - intros H. apply IH1 in H as (s1 & c1 & H & _).
    eexists _, _. split; [exact H|]. by intros _.
Qed.
End Captures.

Lemma search_group (ic : bool) (r : regex) (s : jsstring) (g : option jsstring) :
  closes_group r = true -> search ic r s = Some g -> is_Some g.
Proof.
  intros Hg. induction s as [|c s IH]; simpl.
  - destruct (rmatch ic r [] None _) eqn:E; [|done].
    intros [= ->]. apply rmatch_inv in E as (s' & cap' & [= ->] & H). auto.
  - destruct (rmatch ic r (c :: s) None _) eqn:E; [|done].
    intros [= ->]. apply rmatch_inv in E as (s' & cap' & [= ->] & H). auto.
Qed.

(** ** The extractor *)

Lemma BANK_PATTERNS_lookup (bank : jsstring) (p : BankPatterns) :
  BANK_PATTERNS !! bank = Some p -> p = gtbank \/ p = access \/ p = firstbank.
Proof.
  unfold BANK_PATTERNS. rewrite !lookup_insert_Some, lookup_empty.
  intros [[_ <-]|[_ [[_ <-]|[_ [[_ <-]|[_ [=]]]]]]]; auto.
Qed.

Lemma BANK_PATTERNS_default : get_property BANK_PATTERNS (str "gtbank") = Own gtbank.
Proof. reflexivity. Qed.

Lemma select_patterns_builtin (bank : jsstring) :
  bank ∉ Object_prototype_properties ->
  exists p, select_patterns BANK_PATTERNS bank = Own p /\
            (p = gtbank \/ p = access \/ p = firstbank).
Proof.
  intros Hb. unfold select_patterns, get_property at 1.
  destruct (BANK_PATTERNS !! bank) as [p|] eqn:E.
  - exists p. split; [done|]. by eapply BANK_PATTERNS_lookup.
  - rewrite bool_decide_eq_false_2 by done. rewrite BANK_PATTERNS_default.
    exists gtbank. auto.
Qed.

Lemma select_patterns_fallback (table : gmap jsstring BankPatterns) (bank : jsstring) :
  table !! bank = None -> bank ∉ Object_prototype_properties ->
  select_patterns table bank = select_patterns table (str "gtbank").
Proof.
  intros Hn Hb. unfold select_patterns, get_property at 1.
  rewrite Hn, bool_decide_eq_false_2 by done.
  by destruct (get_property table (str "gtbank")).
Qed.

(** ** Containment *)

Lemma startsWith_app (p s : jsstring) :
  startsWith p s = true <-> exists rest, s = p ++ rest.
Proof.
  revert s. induction p as [|a p IH]; intros s; simpl.
  - split; [eauto|done].
  - destruct s as [|b s]; [split; [done|by intros (? & ?)]|].
    rewrite andb_true_iff, N.eqb_eq, IH. split.
    + intros (-> & rest & ->). eauto.
    + intros (rest & [= -> ->]). eauto.
Qed.

Lemma includes_occurs (s p : jsstring) :
  includes s p = true <-> occurs_in p s.
Proof.
  unfold occurs_in. induction s as [|c s IH]; simpl.
  - rewrite orb_false_r, startsWith_app. split.
    + intros (rest & E). symmetry in E. apply app_eq_nil in E as [-> ->].
      by exists [], [].
    + intros (b & a & E). symmetry in E.
      apply app_eq_nil in E as [-> [-> ->]%app_eq_nil]. by exists [].
  - rewrite orb_true_iff, startsWith_app, IH. split.
    + intros [(rest & ->)|(b & a & ->)]; [by exists [], rest|by exists (c :: b), a].
    + intros ([|x b] & a & E); [left; by exists a|].
      right. injection E as -> ->. eauto.
Qed.

Lemma occurs_caseless_lowered (w s : jsstring) :
  occurs_caseless w s <-> occurs_in w (toLowerCase s).
Proof.
  unfold occurs_caseless, occurs_in, toLowerCase. split.
  - intros (b & mid & a & -> & <-). exists (map lower_unit b), (map lower_unit a).
    by rewrite !map_app.
  - intros (b' & a' & E).
    apply map_eq_app in E as (b & r & -> & <- & E).
    apply map_eq_app in E as (mid & a & -> & <- & <-).
    by exists b, mid, a.
Qed.

Lemma includes_caseless (w s : jsstring) :
  includes (toLowerCase s) w = true <-> occurs_caseless w s.
Proof. by rewrite includes_occurs, occurs_caseless_lowered. Qed.

Section Extraction.
Variable Date_now : nat -> Z.
Variable Date_parse : jsstring -> number.

Local Abbreviation parseEmail := (parseEmail Date_now Date_parse).

(** The fields of a result, for a format name that selects a profile. *)
Lemma parseEmail_fields (table : gmap jsstring BankPatterns)
    (email bank : jsstring) (k : nat) (p : BankPatterns) (a : ParsedAlert) :
  select_patterns table bank = Own p ->
  (parseEmail table email bank k).1 = Ok a ->
  parsed_amount a =
    match String_match email (Some (amountPattern p)) with
    | Some (Some token) => parseFloat (remove_commas token)
    | _ => Num 0
    end /\
  parsed_transactionType a = classify (String_match email (Some (typePattern p))) /\
  parsed_accountNumber a =
    match String_match email (Some (accountPattern p)) with
    | Some (Some acc) => acc
    | _ => []
    end /\
  parsed_description a = substring0 200 email /\
  parsed_currency a = str "NGN" /\
  parsed_rawEmail a = email /\
  parsed_bank a = bank.
Proof.
  intros Hsel. unfold BankAlertParser.parseEmail. rewrite Hsel.
  destruct (String_match email (Some (amountPattern p))) as [[token|]|];
    unfold bind; simpl; try done;
    destruct (search _ (source (timePattern p)) email) as [[t|]|]; simpl;
    by intros [= <-].
Qed.

Lemma parseEmail_returns (table : gmap jsstring BankPatterns)
    (email bank : jsstring) (k : nat) (p : BankPatterns) :
  select_patterns table bank = Own p ->
  String_match email (Some (amountPattern p)) <> Some None ->
  exists a, (parseEmail table email bank k).1 = Ok a.
Proof.
  intros Hsel Hg. unfold BankAlertParser.parseEmail. rewrite Hsel.
  destruct (String_match email (Some (amountPattern p))) as [[token|]|];
    unfold bind; simpl; try done;
    destruct (search _ (source (timePattern p)) email) as [[t|]|]; simpl; eauto.
Qed.

Lemma parseEmail_same_patterns (table : gmap jsstring BankPatterns)
    (email bank bank' : jsstring) (k : nat) :
  select_patterns table bank = select_patterns table bank' ->
  parseEmail table email bank k =
  prod_map (outcome_map (with_bank bank)) id (parseEmail table email bank' k).
Proof.
  intros Hsel. unfold BankAlertParser.parseEmail. rewrite Hsel.
  destruct (select_patterns table bank') as [p| |]; try done.
  - destruct (String_match email (Some (amountPattern p))) as [[token|]|];
      unfold bind; simpl; try done;
      by destruct (search _ (source (timePattern p)) email) as [[t|]|].
Qed.

(** C1. At the text ["Amount: ,"] under the [gtbank] profile the amount
    pattern matches with the token [","]; stripped of its comma the token
    is empty, [parseFloat] gives [NaN], and that is the amount of the
    result: not a finite non-negative number, and not 0. The default 0 is
    taken only where the pattern does not match. *)
Theorem parseEmail_amount_NaN_on_comma_token (k : nat) :
  String_match (str "Amount: ,") (Some (amountPattern gtbank)) = Some (Some (str ",")) /\
  parseFloat (remove_commas (str ",")) = NaN /\
  (exists a,
     (parseEmail BANK_PATTERNS (str "Amount: ,") (str "gtbank") k).1 = Ok a /\
     parsed_amount a = NaN /\
     ~ finite_nonneg (parsed_amount a)) /\
  (forall table email bank k' p a,
     select_patterns table bank = Own p ->
     (parseEmail table email bank k').1 = Ok a ->
     String_match email (Some (amountPattern p)) = None ->
     parsed_amount a = Num 0).
Proof.
  split; [reflexivity|]. split; [reflexivity|]. split.
  - eexists. split; [reflexivity|]. split; [reflexivity|]. simpl. tauto.
  - intros table email bank k' p a Hsel Hok Hnone.
    destruct (parseEmail_fields table email bank k' p a Hsel Hok) as (-> & _).
    by rewrite Hnone.
Qed.

(** C8, as amended. For a format name that is not the name of a property
    inherited from [Object.prototype], parsing against the built-in table
    returns an alert and does not throw; when moreover the name is not in
    the table, the call reads the clock as the call under ['gtbank'] does
    and its result is that call's result except for the [bank] field, which
    holds the name that was asked for. *)
Theorem parseEmail_unknown_format_uses_default
    (email bank : jsstring) (k : nat) :
  bank ∉ Object_prototype_properties ->
  (exists a, (parseEmail BANK_PATTERNS email bank k).1 = Ok a) /\
  (BANK_PATTERNS !! bank = None ->
   parseEmail BANK_PATTERNS email bank k =
   prod_map (outcome_map (with_bank bank)) id
            (parseEmail BANK_PATTERNS email (str "gtbank") k)).
Proof.
  intros Hb. split.
  - destruct (select_patterns_builtin bank Hb) as (p & Hsel & Hp).
    apply (parseEmail_returns _ _ _ _ p Hsel).
    intros Hm. simpl in Hm.
    apply search_group in Hm; [by destruct Hm|].
    by destruct Hp as [->|[->| ->]].
  - intros Hn. apply parseEmail_same_patterns.
    by apply select_patterns_fallback.
Qed.

(** C9. The direction of a parsed alert is [debit] exactly when the type
    pattern of the selected profile matches and the keyword it captured
    first holds, in some letter case, the word ["debit"] or the word
    ["withdrawal"] as a stretch of its text; in every other case, no
    keyword at all included, it is [credit]. *)
Theorem parseEmail_direction_debit_iff
    (table : gmap jsstring BankPatterns) (email bank : jsstring) (k : nat)
    (p : BankPatterns) (a : ParsedAlert) :
  select_patterns table bank = Own p ->
  (parseEmail table email bank k).1 = Ok a ->
  let outflow :=
    exists kw, String_match email (Some (typePattern p)) = Some (Some kw) /\
               (occurs_caseless (str "debit") kw \/
                occurs_caseless (str "withdrawal") kw) in
  (parsed_transactionType a = debit <-> outflow) /\
  (parsed_transactionType a = credit <-> ~ outflow) /\
  (String_match email (Some (typePattern p)) = None ->
   parsed_transactionType a = credit).
Proof.
  intros Hsel Hok outflow.
  destruct (parseEmail_fields table email bank k p a Hsel Hok) as (_ & -> & _).
  assert (H : classify (String_match email (Some (typePattern p))) = debit <-> outflow).
  { subst outflow. unfold classify.
    destruct (String_match email (Some (typePattern p))) as [[kw|]|].
    - destruct (includes (toLowerCase kw) (str "debit")
                || includes (toLowerCase kw) (str "withdrawal")) eqn:E.
      + split; [|done]. intros _. exists kw. split; [done|].
        apply orb_true_iff in E. by rewrite <- !includes_caseless.
      + split; [done|]. intros (kw' & [= <-] & Hk).
        rewrite <- !includes_caseless in Hk.
        apply orb_true_iff in Hk. congruence.
    - split; [done|]. by intros (kw & ? & _).
    - split; [done|]. by intros (kw & ? & _). }
  split; [done|]. split.
  - rewrite <- H. destruct (classify _); split; done.
  - by intros ->.
Qed.
End Extraction.

(** The claim C8 as it was stated fails twice: the result for an unknown
    format name differs from the one under ['gtbank'] (in its [bank]
    field), and for the format name ["toString"] the call throws. *)
Lemma parseEmail_unknown_format_counterexample :
  (parseEmail sample_now sample_parse BANK_PATTERNS
     (str "Amount: 5,000 debit") (str "zenith") 0%nat).1
  <> (parseEmail sample_now sample_parse BANK_PATTERNS
        (str "Amount: 5,000 debit") (str "gtbank") 0%nat).1 /\
  BANK_PATTERNS !! str "toString" = None /\
  (parseEmail sample_now sample_parse BANK_PATTERNS
     (str "Amount: 5,000 debit") (str "toString") 0%nat).1 = Throw.
Proof.
  split; [|split; reflexivity].
  intros H. vm_compute in H. discriminate H.
Qed.

Lemma parseEmail_unknown_format_witness :
  (str "zenith" ∉ Object_prototype_properties) /\
  (exists a, (parseEmail sample_now sample_parse BANK_PATTERNS
                (str "Amount: 5,000 debit") (str "zenith") 0%nat).1 = Ok a) /\
  (BANK_PATTERNS !! str "zenith" = None ->
   parseEmail sample_now sample_parse BANK_PATTERNS
     (str "Amount: 5,000 debit") (str "zenith") 0%nat =
   prod_map (outcome_map (with_bank (str "zenith"))) id
     (parseEmail sample_now sample_parse BANK_PATTERNS
        (str "Amount: 5,000 debit") (str "gtbank") 0%nat)).
Proof.
  assert (H : str "zenith" ∉ Object_prototype_properties).
  { apply (bool_decide_unpack _). vm_compute. exact I. }
  split; [exact H|].
  exact (parseEmail_unknown_format_uses_default sample_now sample_parse
           (str "Amount: 5,000 debit") (str "zenith") 0%nat H).
Defined.

(** At sample emails under the ['gtbank'] profile: ["Amount: 5,000 debit"]
    is a debit and so is ["NGN 200 WITHDRAWAL at ATM"], by the keyword in
    capitals; ["Payment of 5,000 received"] is a credit, and so is
    ["hello"], where no keyword is found. *)
Lemma parseEmail_direction_witness :
  let direction email :=
    outcome_map parsed_transactionType
      (parseEmail sample_now sample_parse BANK_PATTERNS email (str "gtbank")
         0%nat).1 in
  select_patterns BANK_PATTERNS (str "gtbank") = Own gtbank /\
  direction (str "Amount: 5,000 debit") = Ok debit /\
  direction (str "NGN 200 WITHDRAWAL at ATM") = Ok debit /\
  direction (str "Payment of 5,000 received") = Ok credit /\
  direction (str "hello") = Ok credit.
Proof.
  assert (Hsel : select_patterns BANK_PATTERNS (str "gtbank") = Own gtbank)
    by reflexivity.
  assert (run : forall email a dir,
            (parseEmail sample_now sample_parse BANK_PATTERNS email
               (str "gtbank") 0%nat).1 = Ok a ->
            parsed_transactionType a = dir ->
            outcome_map parsed_transactionType
              (parseEmail sample_now sample_parse BANK_PATTERNS email
                 (str "gtbank") 0%nat).1 = Ok dir).
  { intros email a dir -> <-. reflexivity. }
  cbv zeta. split; [exact Hsel|]. split; [|split; [|split]].
  - eapply run; [reflexivity|].
    destruct (parseEmail_direction_debit_iff sample_now sample_parse BANK_PATTERNS
             (str "Amount: 5,000 debit") (str "gtbank") 0%nat gtbank _ Hsel
             eq_refl)
      as (Hdebit & Hcredit & Hnone).
    apply Hdebit. exists (str "debit"). split; [reflexivity|]. left.
    exists [], (str "debit"), []. split; reflexivity.
  - eapply run; [reflexivity|].
    destruct (parseEmail_direction_debit_iff sample_now sample_parse BANK_PATTERNS
             (str "NGN 200 WITHDRAWAL at ATM") (str "gtbank") 0%nat gtbank _
             Hsel eq_refl)
      as (Hdebit & Hcredit & Hnone).
    apply Hdebit. exists (str "WITHDRAWAL"). split; [reflexivity|]. right.
    exists [], (str "WITHDRAWAL"), []. split; reflexivity.
  - eapply run; [reflexivity|].
    destruct (parseEmail_direction_debit_iff sample_now sample_parse BANK_PATTERNS
             (str "Payment of 5,000 received") (str "gtbank") 0%nat gtbank _
             Hsel eq_refl)
      as (Hdebit & Hcredit & Hnone).
    apply Hcredit. intros (kw & Hkw & Hin). injection Hkw as <-.
    rewrite <- !includes_caseless in Hin.
    destruct Hin as [Hin|Hin]; vm_compute in Hin; discriminate Hin.
  - eapply run; [reflexivity|].
    destruct (parseEmail_direction_debit_iff sample_now sample_parse BANK_PATTERNS
             (str "hello") (str "gtbank") 0%nat gtbank _ Hsel eq_refl)
      as (Hdebit & Hcredit & Hnone).
    apply Hnone. reflexivity.
Defined.

Section AccountFactor.
Variable Date_now : nat -> Z.
Variable Date_parse : jsstring -> number.
Variable String_toLowerCase : jsstring -> jsstring.

Local Abbreviation scoreMatch := (scoreMatch Date_now Date_parse String_toLowerCase).
Local Abbreviation parseEmail := (parseEmail Date_now Date_parse).

(** C10. The account factor is plain string equality, with no test for
    emptiness: when the alert's account number and the candidate's are both
    the empty string, the factor passes and its weight 0.3 is part of the
    confidence. The empty string is what the extractor stores when the
    account pattern finds nothing. *)
Theorem empty_account_numbers_match
    (alert : BankAlert) (txn : Transaction) (k : nat) :
  alert_accountNumber alert = [] -> txn_accountNumber txn = [] ->
  let r := (scoreMatch alert txn k).1 in
  accountMatches alert txn = true /\
  (exists c s,
     confidence r = Num c /\
     descriptionSimilarity (matchDetails r) = Num s /\
     c == weight (amountMatch (matchDetails r)) 0.4 + 0.3
          + weight (withinTimeWindow (timeWindow (matchDetails r))) 0.2
          + s * 0.1 /\
     0.3 <= c) /\
  (forall table email bank k' p a,
     select_patterns table bank = Own p ->
     (parseEmail table email bank k').1 = Ok a ->
     String_match email (Some (accountPattern p)) = None ->
     parsed_accountNumber a = []).
Proof.
  intros Ha Ht r. subst r.
  assert (Hm : accountMatches alert txn = true).
  { unfold accountMatches. by rewrite Ha, Ht. }
  destruct (scoreMatch_confidence Date_now Date_parse String_toLowerCase alert txn k)
    as (c & s & Hc & Hs & Hr & Hv).
  split; [done|]. split.
  - exists c, s. rewrite Hm in Hv. unfold weight in Hv at 2.
    repeat split; try done.
    rewrite Hv. unfold weight. repeat case_match; lra.
  - intros table email bank k' p a Hsel Hok Hnone.
    destruct (parseEmail_fields Date_now Date_parse table email bank k' p a Hsel Hok)
      as (_ & _ & -> & _).
    by rewrite Hnone.
Qed.
End AccountFactor.

Lemma empty_account_numbers_witness :
  let alert := sample_alert (Num 1250) [] in
  let txn := sample_txn (Num 1300) [] in
  let r := (scoreMatch sample_now sample_parse sample_lower alert txn 0%nat).1 in
  alert_accountNumber alert = [] /\ txn_accountNumber txn = [] /\
  accountMatches alert txn = true /\
  (exists c s,
     confidence r = Num c /\
     descriptionSimilarity (matchDetails r) = Num s /\
     c == weight (amountMatch (matchDetails r)) 0.4 + 0.3
          + weight (withinTimeWindow (timeWindow (matchDetails r))) 0.2
          + s * 0.1 /\
     0.3 <= c) /\
  (forall table email bank k' p a,
     select_patterns table bank = Own p ->
     (parseEmail sample_now sample_parse table email bank k').1 = Ok a ->
     String_match email (Some (accountPattern p)) = None ->
     parsed_accountNumber a = []).
Proof.
  split; [reflexivity|]. split; [reflexivity|].
  apply (empty_account_numbers_match sample_now sample_parse sample_lower
           (sample_alert (Num 1250) []) (sample_txn (Num 1300) []) 0%nat);
    reflexivity.
Defined.

(** * Further properties of the code *)

(** ** The matcher against the patterns' languages *)

Section MatcherSound.
Context {R : Type}.

Lemma repeat_match_sound (p : N -> bool) (s : jsstring) :
  forall (lo : nat) (hi : option nat) (k : jsstring -> option R) (x : R),
    repeat_match p lo hi s k = Some x ->
    exists w s',
      s = w ++ s' /\ Forall (fun c => p c = true) w /\
      (lo <= length w)%nat /\ (forall h, hi = Some h -> (length w <= h)%nat) /\
      k s' = Some x.
Proof.
  induction s as [|c s IH]; intros lo hi k x; simpl.
  - destruct lo; [|done]. intros H. exists [], [].
    repeat split; auto; simpl; intros; lia.
  - assert (Hstop : match lo with O => k (c :: s) | S _ => None end = Some x ->
              exists w s', c :: s = w ++ s' /\ Forall (fun c => p c = true) w /\
                (lo <= length w)%nat /\
                (forall h, hi = Some h -> (length w <= h)%nat) /\ k s' = Some x).
    { destruct lo; [|done]. intros H. exists [], (c :: s).
      repeat split; auto; simpl; intros; lia. }
    destruct (p c) eqn:Hp; simpl; [|done].
    destruct (bool_decide (hi = Some 0%nat)) eqn:Hhi; simpl; [done|].
    apply bool_decide_eq_false in Hhi.
    destruct (repeat_match p (Nat.pred lo) (Nat.pred <$> hi) s k) eqn:E; [|done].
    intros [= ->]. apply IH in E as (w & s' & -> & Hw & Hlo & Hh & Hk).
    exists (c :: w), s'. repeat split; auto; simpl.
    + lia.
    + intros h ->. specialize (Hh (Nat.pred h) eq_refl).
      destruct h; [done|]. simpl in Hh. lia.
Qed.

Lemma rmatch_sound (ic : bool) (r : regex) :
  forall (s : jsstring) (cap : option jsstring)
         (k : jsstring -> option jsstring -> option R) (x : R),
    rmatch ic r s cap k = Some x ->
    exists w s' cap',
      s = w ++ s' /\ lang ic r w /\ k s' cap' = Some x /\
      (cap' = cap \/
       exists g, cap' = Some g /\ group_lang ic r g /\ occurs_in g w).
Proof.
  induction r as [|cl|cl lo hi|r1 IH1 r2 IH2|r1 IH1 r2 IH2|r1 IH1];
    intros s cap k x; simpl.
  - intros H. exists [], s, cap. auto.
  - destruct s as [|c s]; [done|].
    destruct (class_match ic cl c) eqn:Hc; [|done].
    intros H. exists [c], s, cap. eauto 10.
  - intros H. apply repeat_match_sound in H as (w & s' & -> & Hw & Hlo & Hh & Hk).
    exists w, s', cap. auto 10.
  - intros H. apply IH1 in H as (w1 & s1 & c1 & -> & L1 & H & Hc1).
    apply IH2 in H as (w2 & s2 & c2 & -> & L2 & H & Hc2).
    exists (w1 ++ w2), s2, c2. rewrite <- app_assoc.
    split; [done|]. split; [eauto|]. split; [done|].
    destruct Hc2 as [->|(g & -> & Hg & b & a & ->)].
    + destruct Hc1 as [->|(g & -> & Hg & b & a & ->)]; [by left|].
      right. exists g. split; [done|]. split; [by left|].
      exists b, (a ++ w2). by rewrite <- !app_assoc.
    + right. exists g. split; [done|]. split; [by right|].
      exists (w1 ++ b), a. by rewrite <- !app_assoc.
  - destruct (rmatch ic r1 s cap k) eqn:E.
    + intros [= ->]. apply IH1 in E as (w & s' & c' & -> & L & H & Hc).
      exists w, s', c'. split; [done|]. split; [by left|]. split; [done|].
      destruct Hc as [->|(g & -> & Hg & Ho)]; [by left|].
      right. exists g. auto.
    + intros H. apply IH2 in H as (w & s' & c' & -> & L & H & Hc).
      exists w, s', c'. split; [done|]. split; [by right|]. split; [done|].
      destruct Hc as [->|(g & -> & Hg & Ho)]; [by left|].
      right. exists g. auto.
  - intros H. apply IH1 in H as (w & s' & c' & -> & L & H & _).
    exists w, s', (Some w). split; [done|]. split; [done|]. split.
    + rewrite <- H. f_equal. f_equal.
      rewrite length_app. replace (length w + length s' - length s')%nat
        with (length w) by lia.
      by rewrite take_app_length.
    + right. exists w. split; [done|]. split; [done|].
      exists [], []. by rewrite app_nil_r.
Qed.
End MatcherSound.

(** What [match] returns as element 1 is a text its group accepts, inside
    an occurrence of the whole pattern in the input. *)
Lemma search_sound (ic : bool) (r : regex) (s : jsstring) (g : jsstring) :
  search ic r s = Some (Some g) ->
  group_lang ic r g /\
  exists before w after,
    s = before ++ w ++ after /\ lang ic r w /\ occurs_in g w.
Proof.
  assert (Hhere : forall s,
    rmatch ic r s None (fun _ cap => Some cap) = Some (Some g) ->
    group_lang ic r g /\ exists w after, s = w ++ after /\ lang ic r w /\ occurs_in g w).
  { intros s0 H. apply rmatch_sound in H as (w & s' & c' & -> & L & [= ->] & Hc).
    destruct Hc as [[=]|(g' & [= <-] & Hg & Ho)]. split; [done|].
    exists w, s'. auto. }
  induction s as [|c s IH]; simpl.
  - destruct (rmatch ic r [] None _) as [cap|] eqn:E; [|done].
    intros [= ->]. apply Hhere in E as (Hg & w & a & -> & L & Ho).
    split; [done|]. exists [], w, a. auto.
  - destruct (rmatch ic r (c :: s) None _) as [cap|] eqn:E.
    + intros [= ->]. apply Hhere in E as (Hg & w & a & E & L & Ho).
      split; [done|]. exists [], w, a. auto.
    + intros H. apply IH in H as (Hg & b & w & a & -> & L & Ho).
      split; [done|]. exists (c :: b), w, a. auto.
Qed.

(** ** Reading the amount token *)

Lemma class_match_caseless (ic : bool) (x c : N) :
  is_lower x = false -> is_upper x = false ->
  class_match ic (CChar x) c = true -> c = x.
Proof.
  unfold class_match, canonicalize, upper_unit, is_lower, is_upper.
  intros Hl Hu. rewrite Hl. destruct ic.
  - destruct ((97 <=? c)%N && (c <=? 122)%N) eqn:E; intros H%N.eqb_eq; [|done].
    apply andb_true_iff in E as [E1%N.leb_le E2%N.leb_le].
    apply andb_false_iff in Hu. rewrite !N.leb_gt in Hu. lia.
  - by intros H%N.eqb_eq.
Qed.

Lemma digit_not_special (c : N) :
  is_digit c = true \/ c = 46%N ->
  is_space c = false /\ (c =? 43)%N = false /\ (c =? 45)%N = false /\
  (73 =? c)%N = false /\ (c =? 101)%N = false /\ (c =? 69)%N = false.
Proof.
  unfold is_digit, is_space. rewrite andb_true_iff, !N.leb_le. intros H.
  repeat split; apply not_true_is_false;
    rewrite ?orb_true_iff, ?andb_true_iff, ?N.leb_le, ?N.eqb_eq; lia.
Qed.

Lemma span_digits_app (ds rest : jsstring) :
  all_digits ds ->
  match rest with c :: _ => is_digit c = false | [] => True end ->
  span_digits (ds ++ rest) = (ds, rest).
Proof.
  intros Hds Hrest. induction Hds as [|c ds Hc _ IH]; simpl.
  - destruct rest as [|c rest]; [done|]. simpl. by rewrite Hrest.
  - by rewrite Hc, IH.
Qed.

Lemma digits_value_nonneg (ds : jsstring) (acc : Z) :
  all_digits ds -> (0 <= acc)%Z -> (0 <= digits_value acc ds)%Z.
Proof.
  intros Hds. revert acc. induction Hds as [|c ds Hc _ IH]; intros acc Hacc; simpl.
  - done.
  - apply IH. unfold is_digit in Hc.
    apply andb_true_iff in Hc as [H1%N.leb_le H2%N.leb_le]. lia.
Qed.

(** ** Rounding to binary64 *)

Lemma binary64_Qeq (q1 q2 : Q) : q1 == q2 -> binary64 q1 = binary64 q2.
Proof. intros H. unfold binary64. by rewrite (Qred_complete _ _ H). Qed.

Lemma binary64_pos_sign (n d : Z) :
  (0 < n)%Z -> (0 < d)%Z ->
  binary64_pos n d = PInf \/ exists r, binary64_pos n d = Num r /\ 0 <= r.
Proof.
  intros Hn Hd. unfold binary64_pos.
  set (e := if (_ <? _)%Z then _ else _).
  set (p := (Z.max e (-1022) - 52)%Z).
  set (num := (n * 2 ^ Z.max 0 (- p))%Z).
  set (den := (d * 2 ^ Z.max 0 p)%Z).
  assert (Hnum : (0 < num)%Z).
  { apply Z.mul_pos_pos; [done|]. apply Z.pow_pos_nonneg; lia. }
  assert (Hden : (0 < den)%Z).
  { apply Z.mul_pos_pos; [done|]. apply Z.pow_pos_nonneg; lia. }
  assert (Hm : (0 <= num / den)%Z) by (apply Z.div_pos; lia).
  set (m := if (den <? 2 * (num mod den))%Z then _ else _).
  assert (Hm' : (0 <= m)%Z).
  { subst m. repeat case_match; lia. }
  destruct (Z.leb_spec 0 p) as [Hp|Hp].
  - destruct (2 ^ 1024 <=? m * 2 ^ p)%Z; [by left|]. right.
    eexists. split; [reflexivity|]. change 0 with (inject_Z 0).
    rewrite <- Zle_Qle. apply Z.mul_nonneg_nonneg; [done|].
    apply Z.pow_nonneg. lia.
  - right. eexists. split; [reflexivity|]. rewrite Qred_correct.
    unfold Qle. simpl. lia.
Qed.

Lemma binary64_nonneg (q : Q) :
  0 <= q -> num_ltb (binary64 q) (Num 0) = false.
Proof.
  intros Hq. unfold binary64.
  assert (Hr : 0 <= Qred q) by by rewrite Qred_correct.
  destruct (Qred q) as [n d]. unfold Qle in Hr. simpl in Hr.
  cbn [Qnum Qden]. destruct n as [|n|n]; [done| |lia].
  destruct (binary64_pos_sign (Z.pos n) (Z.pos d)) as [->|(r & -> & Hr')];
    [done|done|done|].
  unfold num_ltb. destruct (r ?= 0) eqn:E; try done.
  apply Qlt_alt in E. lra.
Qed.

Lemma binary64_not_NaN (q : Q) : binary64 q <> NaN.
Proof.
  unfold binary64. destruct (Qred q) as [[|n|n] d]; cbn [Qnum Qden]; [done|..];
    destruct (binary64_pos_sign (Z.pos n) (Z.pos d)) as [->|(r & -> & _)];
    done.
Qed.

(** An integer below [2^53] is a binary64 number: it is read exactly. *)
Lemma binary64_integer (z : Z) :
  (0 <= z < 2 ^ 53)%Z -> binary64 (inject_Z z) = Num (inject_Z z).
Proof.
  intros [H0 H53]. unfold binary64.
  assert (HQ : Qred (inject_Z z) = inject_Z z).
  { apply Qcanon.Qred_identity. simpl. apply Z.gcd_1_r. }
  rewrite HQ. cbn [Qnum Qden inject_Z].
  destruct z as [|n|n]; [done| |lia].
  unfold binary64_pos. change (Z.log2 1) with 0%Z. rewrite Z.sub_0_r.
  set (L := Z.log2 (Z.pos n)).
  assert (HL : (0 <= L <= 52)%Z).
  { split; [apply Z.log2_nonneg|]. subst L.
    assert (Z.log2 (Z.pos n) < 53)%Z; [|lia]. apply Z.log2_lt_pow2; lia. }
  assert (Hlow : (2 ^ L <= Z.pos n)%Z) by (apply Z.log2_spec; lia).
  rewrite (Z.max_l 0 (- L)), (Z.max_r 0 L) by lia.
  rewrite Z.pow_0_r, Z.mul_1_r, Z.mul_1_l.
  destruct (Z.ltb_spec (Z.pos n) (2 ^ L)) as [?|_]; [lia|].
  rewrite (Z.max_l L (-1022)) by lia.
  set (p := (L - 52)%Z).
  destruct (Z.leb_spec 0 p) as [Hp|Hp].
  - assert (p = 0)%Z as -> by lia.
    rewrite (Z.max_l 0 (- 0)), (Z.max_l 0 0), Z.pow_0_r, !Z.mul_1_r by lia.
    rewrite Z.div_1_r, Z.mod_1_r. change (2 * 0)%Z with 0%Z.
    change (1 <? 0)%Z with false. change (0 =? 1)%Z with false. cbv iota.
    assert (Hnot : (2 ^ 1024 <=? Z.pos n)%Z = false).
    { apply Z.leb_gt. assert (2 ^ 53 < 2 ^ 1024)%Z by done. lia. }
    by rewrite Hnot.
  - rewrite (Z.max_r 0 (- p)), (Z.max_l 0 p), Z.pow_0_r, Z.mul_1_r by lia.
    rewrite Z.div_1_r, Z.mod_1_r. change (2 * 0)%Z with 0%Z.
    change (1 <? 0)%Z with false. change (0 =? 1)%Z with false. cbv iota.
    f_equal. rewrite <- HQ. apply Qred_complete.
    assert (0 < 2 ^ (- p))%Z by (apply Z.pow_pos_nonneg; lia).
    unfold Qeq. cbn [Qnum Qden inject_Z]. rewrite Z2Pos.id by done. lia.
Qed.

(** From [2^1024] on the reading is [Infinity]. *)
Lemma binary64_overflow (q : Q) :
  inject_Z (2 ^ 1024) <= q -> binary64 q = PInf.
Proof.
  intros Hq. unfold binary64.
  assert (Hr : inject_Z (2 ^ 1024) <= Qred q) by by rewrite Qred_correct.
  destruct (Qred q) as [n d]. unfold Qle in Hr. cbn [Qnum Qden inject_Z] in Hr |- *.
  rewrite Z.mul_1_r in Hr.
  assert (H1024 : (0 < 2 ^ 1024)%Z) by done.
  destruct n as [|n|n]; [lia| |lia].
  unfold binary64_pos.
  set (N := Z.pos n) in *. set (D := Z.pos d) in *.
  assert (HN : (0 < N)%Z) by done. assert (HD : (0 < D)%Z) by done.
  destruct (Z.log2_spec N HN) as [Na Nb]. destruct (Z.log2_spec D HD) as [Da Db].
  pose proof (Z.log2_nonneg N) as Ha. pose proof (Z.log2_nonneg D) as Hb.
  set (a := Z.log2 N) in *. set (b := Z.log2 D) in *.
  assert (He0 : (1024 <= a - b)%Z).
  { assert (2 ^ (1024 + b) < 2 ^ Z.succ a)%Z as Hlt.
    { rewrite Z.pow_add_r by lia. nia. }
    apply Z.pow_lt_mono_r_iff in Hlt; lia. }
  rewrite (Z.max_l 0 (- (a - b))), (Z.max_r 0 (a - b)), Z.pow_0_r, Z.mul_1_r by lia.
  set (e := if (N <? D * 2 ^ (a - b))%Z then (a - b - 1)%Z else (a - b)%Z).
  assert (He : (1024 <= e)%Z /\ (D * 2 ^ e <= N)%Z).
  { subst e. destruct (Z.ltb_spec N (D * 2 ^ (a - b))) as [Hlt|Hge].
    - split.
      + destruct (Z.eq_dec (a - b)%Z 1024%Z) as [E|E]; [|lia].
        rewrite E in Hlt. lia.
      + assert (D * 2 ^ (a - b - 1) < 2 ^ Z.succ b * 2 ^ (a - b - 1))%Z.
        { apply Z.mul_lt_mono_pos_r; [apply Z.pow_pos_nonneg; lia|done]. }
        rewrite <- Z.pow_add_r in H by lia.
        replace (Z.succ b + (a - b - 1))%Z with a in H by lia. lia.
    - split; [lia|done]. }
  destruct He as [He1 He2].
  rewrite (Z.max_l e (-1022)) by lia.
  set (p := (e - 52)%Z).
  assert (Hp : (0 <= p)%Z) by (subst p; lia).
  rewrite (Z.max_l 0 (- p)), (Z.max_r 0 p), Z.pow_0_r, Z.mul_1_r by lia.
  assert (Hpp : (0 < 2 ^ p)%Z) by (apply Z.pow_pos_nonneg; lia).
  set (den := (D * 2 ^ p)%Z).
  assert (Hden : (0 < den)%Z) by (subst den; lia).
  assert (Hm0 : (2 ^ 52 <= N / den)%Z).
  { apply Z.div_le_lower_bound; [done|]. subst den.
    replace (D * 2 ^ p * 2 ^ 52)%Z with (D * 2 ^ e)%Z; [done|].
    subst p. rewrite <- Z.mul_assoc, <- Z.pow_add_r by lia.
    by replace (e - 52 + 52)%Z with e by lia. }
  set (m := if (den <? 2 * (N mod den))%Z then _ else _).
  assert (Hm : (2 ^ 52 <= m)%Z) by (subst m; repeat case_match; lia).
  destruct (Z.leb_spec 0 p) as [_|?]; [|lia].
  assert (Hbig : (2 ^ 1024 <= m * 2 ^ p)%Z).
  { assert (2 ^ 1024 <= 2 ^ e)%Z by (apply Z.pow_le_mono_r; lia).
    assert (2 ^ e = 2 ^ 52 * 2 ^ p)%Z as Ee.
    { subst p. rewrite <- Z.pow_add_r by lia. f_equal. lia. }
    assert (2 ^ 52 * 2 ^ p <= m * 2 ^ p)%Z
      by (apply Z.mul_le_mono_nonneg_r; lia).
    lia. }
  apply Z.leb_le in Hbig. by rewrite Hbig.
Qed.

(** [binary64] against the host's own format: quotients and sums of
    numbers that binary64 holds exactly, computed on binary64, have the
    value [binary64] gives their exact result. The sums sit halfway between
    two neighbours, and go to the even one; the last lines are the edge of
    the range. *)
Section Binary64Rounding.
Import PrimFloat.
Local Open Scope float_scope.

Lemma binary64_against_floats :
  binary64 (1 # 10) = Binary64.value (1 / 10) /\
  binary64 (2 # 3) = Binary64.value (2 / 3) /\
  binary64 (125050 # 100) = Binary64.value (125050 / 100) /\
  binary64 (- (1 # 3)) = Binary64.value (- (1 / 3)) /\
  binary64 (inject_Z (2 ^ 53 + 1)) = Binary64.value (9007199254740992 + 1) /\
  binary64 (inject_Z (2 ^ 53 + 3)) = Binary64.value (9007199254740992 + 3) /\
  binary64 (1 # 2 ^ 1074) = Binary64.value (0x1p-1074) /\
  binary64 (1 # 2 ^ 1075) = Binary64.value (0x1p-1074 / 2) /\
  binary64 (inject_Z (2 ^ 1024 - 2 ^ 971)) = Binary64.value 0x1.fffffffffffffp1023 /\
  binary64 (inject_Z (2 ^ 1024 - 2 ^ 970)) = Binary64.value (0x1p1023 * 2) /\
  binary64 (inject_Z (10 ^ 309)) = PInf.
Proof. repeat split; vm_compute; reflexivity. Qed.
End Binary64Rounding.

Lemma scale10_fraction (m : Z) (n : nat) :
  scale10 m (0 - Z.of_nat n) == inject_Z m / inject_Z (10 ^ Z.of_nat n).
Proof.
  unfold scale10. destruct (Z.leb_spec 0 (0 - Z.of_nat n)) as [H|H].
  - assert (n = 0)%nat as -> by lia. simpl. rewrite Z.mul_1_r.
    change (10 ^ Z.of_nat 0)%Z with 1%Z. unfold Qdiv.
    change (/ inject_Z 1) with 1. ring.
  - replace (- (0 - Z.of_nat n))%Z with (Z.of_nat n) by lia.
    assert (0 < 10 ^ Z.of_nat n)%Z by (apply Z.pow_pos_nonneg; lia).
    rewrite (Qmake_Qdiv m). rewrite Z2Pos.id by done. reflexivity.
Qed.

Lemma decimal_value_nonneg (ip fp : jsstring) :
  all_digits ip -> all_digits fp -> 0 <= decimal_value ip fp.
Proof.
  intros Hi Hf. unfold decimal_value.
  assert (0 < 10 ^ Z.of_nat (length fp))%Z by (apply Z.pow_pos_nonneg; lia).
  apply Qle_shift_div_l.
  - change 0 with (inject_Z 0). by rewrite <- Zlt_Qlt.
  - rewrite Qmult_0_l. change 0 with (inject_Z 0). rewrite <- Zle_Qle.
    apply digits_value_nonneg; [|done]. by apply Forall_app.
Qed.

(** [parseFloat] on digits, a dot, digits. *)
Lemma parseFloat_decimal (ip fp : jsstring) (dot : bool) :
  all_digits ip -> all_digits fp -> (dot = false -> fp = []) ->
  parseFloat (ip ++ (if dot then [46%N] else []) ++ fp) =
  match ip ++ fp with
  | [] => NaN
  | ds => binary64 (scale10 (digits_value 0 ds) (0 - Z.of_nat (length fp)))
  end.
Proof.
  intros Hi Hf Hdot.
  set (s := ip ++ (if dot then [46%N] else []) ++ fp).
  assert (Hhead : match s with
                  | c :: _ => is_digit c = true \/ c = 46%N
                  | [] => True
                  end).
  { subst s. destruct Hi as [|c ip Hc _]; simpl.
    - destruct dot; simpl; [auto|]. rewrite Hdot by done. done.
    - auto. }
  assert (Hpre : read_sign (trimStart s) = (false, s) /\
                 startsWith (str "Infinity") s = false).
  { destruct s as [|c s']; [done|].
    destruct (digit_not_special c Hhead) as (Hsp & Hplus & Hminus & HI & _).
    split.
    - cbn [trimStart]. rewrite Hsp. unfold read_sign. by rewrite Hplus, Hminus.
    - change (startsWith (str "Infinity") (c :: s'))
        with ((73 =? c)%N && startsWith (str "nfinity") s').
      by rewrite HI. }
  unfold parseFloat. destruct Hpre as [-> ->]. subst s.
  destruct dot.
  - rewrite span_digits_app by done. simpl.
    rewrite <- (app_nil_r fp) at 1. rewrite span_digits_app by done.
    rewrite ?app_nil_r. by destruct (ip ++ fp).
  - rewrite Hdot by done. simpl. rewrite app_nil_r.
    rewrite <- (app_nil_r ip) at 1. rewrite span_digits_app by done.
    by rewrite ?app_nil_r.
Qed.

Lemma builtin_amount_token (p : BankPatterns) (g : jsstring) :
  p = gtbank \/ p = access \/ p = firstbank ->
  group_lang (ignoreCase (amountPattern p)) (source (amountPattern p)) g ->
  exists a dot c,
    g = a ++ (if dot : bool then [46%N] else []) ++ c /\
    Forall (fun x => is_digit x = true \/ x = 44%N) a /\
    (1 <= length a)%nat /\ all_digits c.
Proof.
  assert (Htok : lang true
            (seqs [plus (CUnion CDigit (chr ",")); opt (chr "."); star CDigit]) g ->
          exists a dot c,
            g = a ++ (if dot : bool then [46%N] else []) ++ c /\
            Forall (fun x => is_digit x = true \/ x = 44%N) a /\
            (1 <= length a)%nat /\ all_digits c).
  { intros (a & w & -> & (Ha & Hlen & _) & b & c & -> & (Hb & _ & Hb1) & (Hc & _)).
    assert (Hdot : b = [] \/ b = [46%N]).
    { specialize (Hb1 1%nat eq_refl). destruct b as [|x [|y b]].
      - by left.
      - right. apply Forall_inv in Hb.
        by apply class_match_caseless in Hb as ->.
      - cbn [length] in Hb1. lia. }
    exists a, (bool_decide (b = [46%N])), c. split; [|split; [|split]].
    - destruct Hdot as [-> | ->]; by simpl.
    - eapply Forall_impl; [exact Ha|]. intros x Hx. cbn [class_match] in Hx.
      apply orb_true_iff in Hx as [Hx|Hx]; [by left|].
      right. by apply (class_match_caseless true 44 x) in Hx.
    - done.
    - eapply Forall_impl; [exact Hc|]. by intros x Hx. }
  intros [->|[->| ->]]; simpl; intuition.
Qed.

Lemma remove_commas_digits (c : jsstring) :
  all_digits c -> remove_commas c = c.
Proof.
  unfold remove_commas. change jsstring with (list N) in *.
  induction 1 as [|x c Hx _ IH]; [done|].
  rewrite filter_cons_True, IH; [done|]. by intros ->.
Qed.

Lemma remove_commas_token (a : jsstring) (dot : bool) (c : jsstring) :
  Forall (fun x => is_digit x = true \/ x = 44%N) a -> all_digits c ->
  exists ip,
    all_digits ip /\
    (ip = [] <-> Forall (fun x => is_digit x = false) a) /\
    remove_commas (a ++ (if dot then [46%N] else []) ++ c) =
    ip ++ (if dot then [46%N] else []) ++ c.
Proof.
  intros Ha Hc. exists (remove_commas a). unfold remove_commas.
  change jsstring with (list N) in *. split; [|split].
  - apply Forall_forall. intros x [Hx Hin]%list_elem_of_filter.
    rewrite Forall_forall in Ha. destruct (Ha x Hin); [done|congruence].
  - induction Ha as [|x a Hx _ IH]; [done|]. rewrite filter_cons.
    case_decide as E.
    + split; [done|]. intros Hall. apply Forall_inv in Hall.
      destruct Hx as [Hx|Hx]; congruence.
    + rewrite IH. split; [|by intros ?%Forall_inv_tail].
      intros Hall. constructor; [|done]. by rewrite E.
  - rewrite !filter_app. f_equal. f_equal.
    + by destruct dot.
    + by apply remove_commas_digits.
Qed.

Lemma occurs_in_middle (g w before after : jsstring) :
  occurs_in g w -> occurs_in g (before ++ w ++ after).
Proof.
  intros (b & a & ->). exists (before ++ b), (a ++ after).
  by rewrite <- !app_assoc.
Qed.

Section AmountReading.
Variable Date_now : nat -> Z.
Variable Date_parse : jsstring -> number.

Local Abbreviation parseEmail := (parseEmail Date_now Date_parse).

(** How a token of a built-in amount pattern is read. *)
Lemma amount_token_read (p : BankPatterns) (email tok : jsstring) :
  p = gtbank \/ p = access \/ p = firstbank ->
  String_match email (Some (amountPattern p)) = Some (Some tok) ->
  occurs_in tok email /\
  exists ip fp (dot : bool),
    all_digits ip /\ all_digits fp /\ (dot = false -> fp = []) /\
    remove_commas tok = ip ++ (if dot then [46%N] else []) ++ fp /\
    (ip ++ fp = [] <-> Forall (fun x => is_digit x = false) tok).
Proof.
  intros Hp Hm. cbn [String_match] in Hm.
  apply search_sound in Hm as (Hg & before & w & after & -> & _ & Ho).
  split; [by apply occurs_in_middle|].
  apply builtin_amount_token in Hg as (a & dot & c & -> & Ha & Hlen & Hc); [|done].
  destruct (remove_commas_token a dot c Ha Hc) as (ip & Hip & Hnil & Hrm).
  assert (Hcnil : c = [] <-> Forall (fun x => is_digit x = false) c).
  { split; [by intros ->|]. intros Hn. destruct Hc as [|x c Hx _]; [done|].
    apply Forall_inv in Hn. congruence. }
  destruct dot.
  - exists ip, c, true. split; [done|]. split; [done|]. split; [done|].
    split; [done|]. split.
    + intros [-> ->]%app_eq_nil. rewrite !Forall_app. split; [by apply Hnil|].
      split; [by repeat constructor|done].
    + rewrite !Forall_app. intros (H1 & _ & H2).
      apply Hnil in H1 as ->. by apply Hcnil in H2 as ->.
  - exists (ip ++ c), [], false. split; [by apply Forall_app|].
    split; [constructor|]. split; [done|]. split.
    + rewrite Hrm. cbn [app]. by rewrite app_nil_r.
    + rewrite app_nil_r. cbn [app]. split.
      * intros [-> ->]%app_eq_nil. rewrite Forall_app. split; [by apply Hnil|done].
      * rewrite Forall_app. intros (H1 & H2).
        apply Hnil in H1 as ->. by apply Hcnil in H2 as ->.
Qed.
End AmountReading.

Lemma select_patterns_Own (table : gmap jsstring BankPatterns)
    (bank : jsstring) (p : BankPatterns) :
  select_patterns table bank = Own p ->
  table !! bank = Some p \/ table !! str "gtbank" = Some p.
Proof.
  unfold select_patterns, get_property.
  destruct (table !! bank) as [q|]; [intros [= ->]; by left|].
  destruct (bool_decide (bank ∈ Object_prototype_properties)); [done|].
  destruct (table !! str "gtbank") as [q|]; [intros [= ->]; by right|].
  by destruct (bool_decide _).
Qed.

Lemma select_patterns_Own_builtin (bank : jsstring) (p : BankPatterns) :
  select_patterns BANK_PATTERNS bank = Own p ->
  p = gtbank \/ p = access \/ p = firstbank.
Proof. intros [H|H]%select_patterns_Own; by eapply BANK_PATTERNS_lookup. Qed.

Section AmountProperties.
Variable Date_now : nat -> Z.
Variable Date_parse : jsstring -> number.

Local Abbreviation parseEmail := (parseEmail Date_now Date_parse).

Lemma parseEmail_Ok_Own (table : gmap jsstring BankPatterns)
    (email bank : jsstring) (k : nat) (a : ParsedAlert) :
  (parseEmail table email bank k).1 = Ok a ->
  exists p, select_patterns table bank = Own p.
Proof.
  unfold BankAlertParser.parseEmail.
  destruct (select_patterns table bank) as [p| |]; [eauto| |done].
  by cbn.
Qed.

(** X1. Under the built-in profiles, when the amount pattern matches, its
    token is text of the email; without a digit in it the amount is [NaN];
    otherwise the amount is the binary64 number nearest to the decimal
    number the token's digits denote, the commas dropped wherever they
    stand (integer digits, then the fraction digits after the dot if there
    is one): never [NaN] then, the number itself when it is a whole number
    below 2^53, and [Infinity] when it reaches 2^1024. *)
Theorem parseEmail_amount_is_decimal_reading
    (email bank : jsstring) (k : nat) (p : BankPatterns) (a : ParsedAlert)
    (tok : jsstring) :
  select_patterns BANK_PATTERNS bank = Own p ->
  (parseEmail BANK_PATTERNS email bank k).1 = Ok a ->
  String_match email (Some (amountPattern p)) = Some (Some tok) ->
  occurs_in tok email /\
  (Forall (fun x => is_digit x = false) tok -> parsed_amount a = NaN) /\
  (~ Forall (fun x => is_digit x = false) tok ->
   exists ip fp,
     all_digits ip /\ all_digits fp /\
     (remove_commas tok = ip ++ fp /\ fp = [] \/
      remove_commas tok = ip ++ [46%N] ++ fp) /\
     parsed_amount a = binary64 (decimal_value ip fp) /\
     parsed_amount a <> NaN /\
     (forall z, decimal_value ip fp == inject_Z z -> (z < 2 ^ 53)%Z ->
                parsed_amount a = Num (inject_Z z)) /\
     (inject_Z (2 ^ 1024) <= decimal_value ip fp -> parsed_amount a = PInf)).
Proof.
  intros Hsel Hok Hm.
  pose proof (select_patterns_Own_builtin bank p Hsel) as Hp.
  destruct (parseEmail_fields Date_now Date_parse BANK_PATTERNS email bank k p a
              Hsel Hok) as (-> & _).
  rewrite Hm.
  destruct (amount_token_read p email tok Hp Hm)
    as (Ho & ip & fp & dot & Hip & Hfp & Hdot & -> & Hnil).
  split; [done|].
  rewrite (parseFloat_decimal ip fp dot Hip Hfp Hdot). split.
  - intros Hn. apply Hnil in Hn. by rewrite Hn.
  - intros Hn. destruct (ip ++ fp) as [|d ds] eqn:E; [by destruct Hn; apply Hnil|].
    rewrite <- E. exists ip, fp. split; [done|]. split; [done|]. split.
    { destruct dot; [by right|]. left. rewrite Hdot by done. by rewrite !app_nil_r. }
    rewrite (binary64_Qeq _ _ (scale10_fraction _ _)).
    fold (decimal_value ip fp).
    pose proof (decimal_value_nonneg ip fp Hip Hfp) as Hpos.
    split; [done|]. split; [by apply binary64_not_NaN|].
    split; [|apply binary64_overflow].
    intros z Hz Hlt. rewrite (binary64_Qeq _ _ Hz). apply binary64_integer.
    split; [|done]. rewrite Hz in Hpos. change 0 with (inject_Z 0) in Hpos.
    by rewrite <- Zle_Qle in Hpos.
Qed.

(** X2. Under the built-in profiles the amount of a parsed alert is never
    below zero: no pattern reads a sign, so a minus before the digits is
    not part of the token. *)
Theorem parseEmail_amount_never_negative
    (email bank : jsstring) (k : nat) (a : ParsedAlert) :
  (parseEmail BANK_PATTERNS email bank k).1 = Ok a ->
  num_ltb (parsed_amount a) (Num 0) = false.
Proof.
  intros Hok. destruct (parseEmail_Ok_Own _ _ _ _ _ Hok) as (p & Hsel).
  pose proof (select_patterns_Own_builtin bank p Hsel) as Hp.
  destruct (parseEmail_fields Date_now Date_parse BANK_PATTERNS email bank k p a
              Hsel Hok) as (-> & _).
  destruct (String_match email (Some (amountPattern p))) as [[tok|]|] eqn:Hm;
    [|done|done].
  destruct (amount_token_read p email tok Hp Hm)
    as (_ & ip & fp & dot & Hip & Hfp & Hdot & Hrm & _).
  rewrite Hrm, (parseFloat_decimal ip fp dot Hip Hfp Hdot).
  destruct (ip ++ fp) as [|d ds] eqn:E; [done|]. rewrite <- E.
  apply binary64_nonneg. rewrite scale10_fraction.
  by apply decimal_value_nonneg.
Qed.
End AmountProperties.

(** ** The account number and the direction *)

Lemma builtin_account_token (p : BankPatterns) (g : jsstring) :
  p = gtbank \/ p = access \/ p = firstbank ->
  group_lang (ignoreCase (accountPattern p)) (source (accountPattern p)) g ->
  exists stars digits,
    g = stars ++ digits /\
    Forall (fun x => x = 42%N) stars /\
    (2 <= length stars <= 4)%nat /\
    all_digits digits /\ (4 <= length digits <= 10)%nat.
Proof.
  assert (Htok : lang true (seqs [times (chr "*") 2 4; times CDigit 4 10]) g ->
          exists stars digits,
            g = stars ++ digits /\
            Forall (fun x => x = 42%N) stars /\
            (2 <= length stars <= 4)%nat /\
            all_digits digits /\ (4 <= length digits <= 10)%nat).
  { intros (s & d & -> & (Hs & Hs2 & Hs4) & (Hd & Hd4 & Hd10)).
    exists s, d. split; [done|]. split.
    { eapply Forall_impl; [exact Hs|]. intros x Hx.
      by apply (class_match_caseless true 42 x) in Hx. }
    split; [split; [done|by apply Hs4]|].
    split; [|split; [done|by apply Hd10]].
    eapply Forall_impl; [exact Hd|]. by intros x Hx. }
  intros [->|[->| ->]]; simpl; intuition.
Qed.

Lemma occurs_in_trans (a b c : jsstring) :
  occurs_in a b -> occurs_in b c -> occurs_in a c.
Proof. intros Hab (l & r & ->). by apply occurs_in_middle. Qed.

Lemma occurs_in_toLowerCase (a b : jsstring) :
  occurs_in a b -> occurs_in (toLowerCase a) (toLowerCase b).
Proof.
  intros (l & r & ->). exists (toLowerCase l), (toLowerCase r).
  unfold toLowerCase. by rewrite !map_app.
Qed.

Lemma String_match_occurs (email g : jsstring) (re : RegExp) :
  String_match email (Some re) = Some (Some g) -> occurs_in g email.
Proof.
  cbn [String_match]. intros (_ & b & w & a & -> & _ & Ho)%search_sound.
  by apply occurs_in_middle.
Qed.

Section AccountAndDirection.
Variable Date_now : nat -> Z.
Variable Date_parse : jsstring -> number.

Local Abbreviation parseEmail := (parseEmail Date_now Date_parse).

(** X3. Under the built-in profiles the account number of a parsed alert
    is either empty or a masked number taken from the email: two to four
    asterisks followed by four to ten digits. *)
Theorem parseEmail_account_is_masked_or_empty
    (email bank : jsstring) (k : nat) (a : ParsedAlert) :
  (parseEmail BANK_PATTERNS email bank k).1 = Ok a ->
  parsed_accountNumber a = [] \/
  (occurs_in (parsed_accountNumber a) email /\
   exists stars digits,
     parsed_accountNumber a = stars ++ digits /\
     Forall (fun x => x = 42%N) stars /\ (2 <= length stars <= 4)%nat /\
     all_digits digits /\ (4 <= length digits <= 10)%nat).
Proof.
  intros Hok. destruct (parseEmail_Ok_Own _ _ _ _ _ _ _ Hok) as (p & Hsel).
  pose proof (select_patterns_Own_builtin bank p Hsel) as Hp.
  destruct (parseEmail_fields Date_now Date_parse BANK_PATTERNS email bank k p a
              Hsel Hok) as (_ & _ & -> & _).
  destruct (String_match email (Some (accountPattern p))) as [[acc|]|] eqn:Hm;
    [|by left..].
  right. split; [by eapply String_match_occurs|].
  cbn [String_match] in Hm. apply search_sound in Hm as (Hg & _).
  by apply builtin_account_token in Hg.
Qed.

(** X4. Whatever the table of profiles, an alert is classified [debit]
    only if the email contains, in some letter case, ["debit"] or
    ["withdrawal"]; an email with neither is always [credit]. *)
Theorem parseEmail_debit_only_with_keyword
    (table : gmap jsstring BankPatterns) (email bank : jsstring) (k : nat)
    (a : ParsedAlert) :
  (parseEmail table email bank k).1 = Ok a ->
  (parsed_transactionType a = debit ->
   includes (toLowerCase email) (str "debit") = true \/
   includes (toLowerCase email) (str "withdrawal") = true) /\
  (includes (toLowerCase email) (str "debit") = false ->
   includes (toLowerCase email) (str "withdrawal") = false ->
   parsed_transactionType a = credit).
Proof.
  intros Hok. destruct (parseEmail_Ok_Own _ _ _ _ _ _ _ Hok) as (p & Hsel).
  destruct (parseEmail_fields Date_now Date_parse table email bank k p a
              Hsel Hok) as (_ & -> & _).
  assert (H : classify (String_match email (Some (typePattern p))) = debit ->
              includes (toLowerCase email) (str "debit") = true \/
              includes (toLowerCase email) (str "withdrawal") = true).
  { unfold classify.
    destruct (String_match email (Some (typePattern p))) as [[kw|]|] eqn:Hm;
      [|done..].
    apply String_match_occurs, occurs_in_toLowerCase in Hm.
    destruct (includes (toLowerCase kw) (str "debit")) eqn:E1.
    - intros _. left. apply includes_occurs. apply includes_occurs in E1.
      by eapply occurs_in_trans.
    - destruct (includes (toLowerCase kw) (str "withdrawal")) eqn:E2; [|done].
      intros _. right. apply includes_occurs. apply includes_occurs in E2.
      by eapply occurs_in_trans. }
  split; [done|]. intros H1 H2.
  destruct (classify _); [|done]. destruct H; congruence.
Qed.
End AccountAndDirection.

(** ** The distance as a metric *)

Section DistanceMetric.
Local Open Scope nat_scope.

Lemma wf_lower (s1 s2 : jsstring) (i j : nat) :
  i - j <= wagner_fischer s1 s2 i j /\ j - i <= wagner_fischer s1 s2 i j.
Proof.
  revert j. induction i as [|i IH]; intros j; [simpl; lia|].
  induction j as [|j IHj]; [rewrite wf_col0; lia|].
  rewrite wf_step. pose proof (IH j). pose proof (IH (S j)). lia.
Qed.

Lemma wf_diag (s : jsstring) (i : nat) : wagner_fischer s s i i = 0.
Proof. induction i as [|i IH]; [done|]. by rewrite wf_equal. Qed.

Lemma wf_zero (s1 s2 : jsstring) (i j : nat) :
  wagner_fischer s1 s2 i j = 0 -> i = j /\ take i s1 = take j s2.
Proof.
  revert j. induction i as [|i IH]; intros j.
  - simpl. by intros ->.
  - destruct j as [|j]; [by rewrite wf_col0|].
    rewrite wf_step. unfold substitution_cost. case_bool_decide as E; [|lia].
    intros H. destruct (IH j) as [-> Ht]; [lia|]. split; [done|].
    destruct (s1 !! j) as [x|] eqn:E1.
    + rewrite (take_S_r s1 j x E1), (take_S_r s2 j x); [by rewrite Ht|done].
    + symmetry in E. apply lookup_ge_None in E1, E.
      rewrite !take_ge in Ht by lia. by rewrite !take_ge by lia.
Qed.

Lemma substitution_cost_triangle (s1 s2 s3 : jsstring) (i j k : nat) :
  substitution_cost s1 s3 i k
  <= substitution_cost s1 s2 i j + substitution_cost s2 s3 j k.
Proof. unfold substitution_cost. repeat case_bool_decide; try lia. congruence. Qed.

Lemma wf_triangle (s1 s2 s3 : jsstring) (n : nat) :
  forall i j k, i + j + k = n ->
    wagner_fischer s1 s3 i k
    <= wagner_fischer s1 s2 i j + wagner_fischer s2 s3 j k.
Proof.
  induction n as [n IH] using lt_wf_ind. intros i j k Hn.
  destruct i as [|i].
  { pose proof (wf_lower s2 s3 j k). simpl. lia. }
  destruct k as [|k].
  { pose proof (wf_lower s1 s2 (S i) j). rewrite !wf_col0. lia. }
  destruct j as [|j].
  { pose proof (wf_le_max s1 s3 (S i) (S k)). rewrite wf_col0.
    change (wagner_fischer s2 s3 0 (S k)) with (S k). lia. }
  pose proof (IH (i + S j + S k) ltac:(lia) i (S j) (S k) eq_refl).
  pose proof (IH (S i + S j + k) ltac:(lia) (S i) (S j) k eq_refl).
  pose proof (IH (S i + j + S k) ltac:(lia) (S i) j (S k) eq_refl).
  pose proof (IH (S i + j + k) ltac:(lia) (S i) j k eq_refl).
  pose proof (IH (i + j + S k) ltac:(lia) i j (S k) eq_refl).
  pose proof (IH (i + j + k) ltac:(lia) i j k eq_refl).
  pose proof (substitution_cost_triangle s1 s2 s3 i j k).
  rewrite !wf_step in *. lia.
Qed.
End DistanceMetric.

(** X5. [levenshteinDistance] is the edit distance of the standard
    recurrence, for any two strings, and it is a metric: zero exactly for
    equal strings, symmetric, and obeying the triangle inequality. *)
Theorem levenshteinDistance_is_a_metric :
  (forall s1 s2, levenshteinDistance s1 s2 = levenshtein s1 s2) /\
  (forall s1 s2, levenshteinDistance s1 s2 = 0%nat <-> s1 = s2) /\
  (forall s1 s2, levenshteinDistance s1 s2 = levenshteinDistance s2 s1) /\
  (forall s1 s2 s3,
     (levenshteinDistance s1 s3
      <= levenshteinDistance s1 s2 + levenshteinDistance s2 s3)%nat).
Proof.
  split; [apply levenshteinDistance_correct|]. split; [|split].
  - intros s1 s2. rewrite levenshteinDistance_correct. unfold levenshtein. split.
    + intros [_ H]%wf_zero. by rewrite !firstn_all in H.
    + intros ->. apply wf_diag.
  - intros s1 s2. rewrite !levenshteinDistance_correct. apply levenshtein_sym.
  - intros s1 s2 s3. rewrite !levenshteinDistance_correct. unfold levenshtein.
    by eapply wf_triangle.
Qed.

(** X6. The distance lies between the difference of the two lengths and
    the longer length; against the empty string it is the length of the
    other string. *)
Theorem levenshteinDistance_bounds (s1 s2 : jsstring) :
  (length s1 - length s2 <= levenshteinDistance s1 s2)%nat /\
  (length s2 - length s1 <= levenshteinDistance s1 s2)%nat /\
  (levenshteinDistance s1 s2 <= Nat.max (length s1) (length s2))%nat /\
  levenshteinDistance [] s2 = length s2 /\
  levenshteinDistance s1 [] = length s1.
Proof.
  rewrite !levenshteinDistance_correct. unfold levenshtein.
  pose proof (wf_lower s1 s2 (length s1) (length s2)) as [H1 H2].
  pose proof (wf_le_max s1 s2 (length s1) (length s2)) as H3.
  repeat split; try done. simpl. by rewrite wf_col0.
Qed.

(** ** Similarity and the decision to match *)

Lemma levenshteinDistance_pos (s1 s2 : jsstring) :
  s1 <> s2 -> (1 <= levenshteinDistance s1 s2)%nat.
Proof.
  intros Hne. destruct (levenshteinDistance s1 s2) eqn:E; [|lia].
  rewrite levenshteinDistance_correct in E. unfold levenshtein in E.
  apply wf_zero in E as [_ E]. by rewrite !firstn_all in E.
Qed.

Lemma calculateSimilarity_sym (String_toLowerCase : jsstring -> jsstring)
    (a b : jsstring) :
  calculateSimilarity String_toLowerCase a b
  = calculateSimilarity String_toLowerCase b a.
Proof.
  unfold calculateSimilarity, jsstring_eqb.
  set (s1 := trim (String_toLowerCase a)).
  set (s2 := trim (String_toLowerCase b)).
  destruct (decide (s1 = s2)) as [E|E].
  - by rewrite !bool_decide_eq_true_2.
  - rewrite !bool_decide_eq_false_2 by done.
    rewrite (orb_comm (length s2 =? 0)%nat).
    destruct ((length s1 =? 0)%nat || (length s2 =? 0)%nat); [done|].
    destruct (Nat.ltb_spec (length s2) (length s1)),
             (Nat.ltb_spec (length s1) (length s2)); try lia; try done.
    assert (Hlen : length s1 = length s2) by lia.
    rewrite !levenshteinDistance_correct, (levenshtein_sym s2 s1), Hlen. done.
Qed.

Lemma calculateSimilarity_one (String_toLowerCase : jsstring -> jsstring)
    (a b : jsstring) (q : Q) :
  calculateSimilarity String_toLowerCase a b = Num q ->
  (q == 1 <-> trim (String_toLowerCase a) = trim (String_toLowerCase b)).
Proof.
  unfold calculateSimilarity, jsstring_eqb.
  set (s1 := trim (String_toLowerCase a)).
  set (s2 := trim (String_toLowerCase b)).
  destruct (decide (s1 = s2)) as [E|E].
  - rewrite bool_decide_eq_true_2 by done. intros [= <-]. done.
  - rewrite bool_decide_eq_false_2 by done.
    assert (Hlt : forall l d : nat, (0 < l)%nat -> (1 <= d <= l)%nat ->
              num_div (num_sub (of_nat l) (of_nat d)) (of_nat l) = Num q ->
              ~ q == 1).
    { intros l d Hl Hd Hq.
      destruct (of_nat_ratio l d Hl ltac:(lia)) as (q' & Hq' & _ & Hv).
      rewrite Hq in Hq'. injection Hq' as <-. rewrite Hv. intros H1.
      assert (Hpos : 0 < inject_Z (Z.of_nat l)).
      { change 0 with (inject_Z 0). rewrite <- Zlt_Qlt. lia. }
      assert (Hd1 : 1 <= inject_Z (Z.of_nat d)).
      { change 1 with (inject_Z 1). rewrite <- Zle_Qle. lia. }
      apply (Qmult_inj_r _ _ (inject_Z (Z.of_nat l))) in H1; [|lra].
      rewrite Qmult_1_l in H1. unfold Qdiv in H1.
      rewrite <- Qmult_assoc, (Qmult_comm (/ _)), Qmult_inv_r, Qmult_1_r in H1 by lra.
      lra. }
    destruct (Nat.eqb_spec (length s1) 0) as [|H1]; simpl;
      [intros [= <-]; split; [lra|done]|].
    destruct (Nat.eqb_spec (length s2) 0) as [|H2]; simpl;
      [intros [= <-]; split; [lra|done]|].
    destruct (Nat.ltb_spec (length s2) (length s1)) as [Hl|Hl]; intros Hq.
    + split; [|done]. intros Hone. exfalso.
      pose proof (levenshteinDistance_pos s2 s1 ltac:(done)).
      pose proof (levenshteinDistance_le_max s2 s1).
      apply (Hlt (length s1) (levenshteinDistance s2 s1)); [lia|lia|done|done].
    + split; [|done]. intros Hone. exfalso.
      pose proof (levenshteinDistance_pos s1 s2 ltac:(done)).
      pose proof (levenshteinDistance_le_max s1 s2).
      apply (Hlt (length s2) (levenshteinDistance s1 s2)); [lia|lia|done|done].
Qed.

(** X7. Whatever the host's case mapping, the similarity does not depend
    on the order of its two arguments, lies between 0 and 1, and is 1
    exactly when the two strings are equal once the host has lowercased
    them and they are trimmed. *)
Theorem calculateSimilarity_symmetric_and_exact
    (String_toLowerCase : jsstring -> jsstring) (a b : jsstring) :
  calculateSimilarity String_toLowerCase a b
  = calculateSimilarity String_toLowerCase b a /\
  exists q,
    calculateSimilarity String_toLowerCase a b = Num q /\ 0 <= q <= 1 /\
    (q == 1 <->
     trim (String_toLowerCase a) = trim (String_toLowerCase b)).
Proof.
  split; [apply calculateSimilarity_sym|].
  destruct (calculateSimilarity_range String_toLowerCase a b) as (q & Hq & Hr).
  exists q. split; [done|]. split; [done|]. by apply calculateSimilarity_one.
Qed.

Lemma Qdiv_le_iff (a b c : Q) : 0 < b -> (a / b <= c <-> a <= c * b).
Proof.
  intros Hb. split.
  - intros H. assert (E : a == a / b * b) by (field; lra).
    rewrite E. apply Qmult_le_compat_r; [done|lra].
  - intros H. by apply Qle_shift_div_r.
Qed.

Lemma mapM_Forall_elem {A B : Type} (f : A -> clock B) (P : B -> Prop)
    (l : list A) (k : nat) :
  (forall x k', x ∈ l -> P (f x k').1) -> Forall P (mapM f l k).1.
Proof.
  revert k. induction l as [|x l IH]; intros k Hf; simpl; [constructor|].
  unfold bind. pose proof (Hf x k ltac:(left)) as Hx. destruct (f x k) as [y k1].
  specialize (IH k1 ltac:(intros; apply Hf; by right)).
  destruct (mapM f l k1) as [ys k2]. simpl in *. by constructor.
Qed.

(** On binary64 the combinations fall on the same side of the threshold:
    0.4 + 0.2 and 0.3 + 0.2 + 0.1 reach the value of the literal 0.6, while
    0.4 + 0.1 and 0.3 + 0.2 with a similarity below 1 do not. *)
Section Binary64Thresholds.
Import PrimFloat.
Local Open Scope float_scope.
Set Warnings "-inexact-float".

Lemma binary64_thresholds :
  (0.6 <=? Binary64.score true false true 0) = true /\
  (0.6 <=? Binary64.score true true false 0) = true /\
  (0.6 <=? Binary64.score false true true 1) = true /\
  (0.6 <=? Binary64.score true false false 1) = false /\
  (0.6 <=? Binary64.score false true true 0.9999999) = false.
Proof. repeat split; reflexivity. Qed.

Set Warnings "+inexact-float".
End Binary64Thresholds.

Section FactorProperties.
Variable Date_now : nat -> Z.
Variable Date_parse : jsstring -> number.
Variable String_toLowerCase : jsstring -> jsstring.

Local Abbreviation scoreMatch := (scoreMatch Date_now Date_parse String_toLowerCase).
Local Abbreviation findMatches := (findMatches Date_now Date_parse String_toLowerCase).
Local Abbreviation toTimestamp := (toTimestamp Date_now Date_parse).

(** X8. A candidate is matched exactly when the amount factor passes
    together with the account factor or the time factor, or when the
    account and time factors both pass and the two descriptions are equal
    once the host has lowercased them and they are trimmed, whatever the
    host's case mapping. No other combination reaches 0.6. *)
Theorem scoreMatch_matched_by_factors
    (alert : BankAlert) (txn : Transaction) (k : nat) :
  let r := (scoreMatch alert txn k).1 in
  let amountOk := amountMatch (matchDetails r) in
  let accountOk := accountMatches alert txn in
  let timeOk := withinTimeWindow (timeWindow (matchDetails r)) in
  matched r = true <->
  (amountOk = true /\ (accountOk = true \/ timeOk = true)) \/
  (accountOk = true /\ timeOk = true /\
   trim (String_toLowerCase (alert_description alert))
   = trim (String_toLowerCase (txn_description txn))).
Proof.
  destruct (scoreMatch_unfold Date_now Date_parse String_toLowerCase alert txn k) as (td & E).
  cbv zeta in E |- *. rewrite E. cbn [matched matchDetails amountMatch timeWindow].
  destruct (calculateSimilarity_range String_toLowerCase (alert_description alert) (txn_description txn))
    as (s & Hs & Hr).
  pose proof (calculateSimilarity_one String_toLowerCase _ _ _ Hs) as Hone. rewrite Hs.
  destruct (score_value (amountMatches alert txn) (accountMatches alert txn)
              (withinTimeWindow td) s) as (c & -> & Hc).
  unfold MIN_CONFIDENCE_THRESHOLD. rewrite num_geb_Num, Hc, <- Hone.
  unfold weight.
  destruct (amountMatches alert txn), (accountMatches alert txn),
           (withinTimeWindow td); split; intros H;
    try (left; split; [done|]; auto; fail);
    try lra;
    try (destruct H as [[? [?|?]]|(? & ? & ?)]; try done; lra).
Qed.

(** X9. The amount factor passes exactly when the alert amount is not
    above zero (zero, negative or [NaN]: the ratio is then taken as 0), or
    when both amounts are finite and the candidate's lies within two per
    cent of the alert's on either side, the ends included. *)
Theorem amountMatches_characterised (alert : BankAlert) (txn : Transaction) :
  amountMatches alert txn = true <->
  num_gtb (alert_amount alert) (Num 0) = false \/
  exists a t,
    alert_amount alert = Num a /\ txn_amount txn = Num t /\
    0 < a /\ 0.98 * a <= t <= 1.02 * a.
Proof.
  unfold amountMatches, amountDiffPercent, amountDiff, AMOUNT_TOLERANCE.
  destruct (num_gtb (alert_amount alert) (Num 0)) eqn:Hgt; [|split; auto].
  destruct (alert_amount alert) as [| | |a]; try done.
  - split; [|by intros [|(? & ? & ? & _)]].
    by destruct (txn_amount txn).
  - apply num_gtb_Num in Hgt.
    destruct (txn_amount txn) as [| | |t].
    + split; [done|]. by intros [|(? & ? & _ & ? & _)].
    + cbn. rewrite (Qsign_pos a Hgt). split; [done|].
      by intros [|(? & ? & _ & ? & _)].
    + cbn. rewrite (Qsign_pos a Hgt). split; [done|].
      by intros [|(? & ? & _ & ? & _)].
    + cbn [num_sub num_neg num_add Math_abs num_div].
      rewrite (Qsign_pos a Hgt), num_leb_Num, Qdiv_le_iff by done.
      rewrite Qabs_Qle_condition. split.
      * intros H. right. exists a, t. repeat split; try done; lra.
      * intros [|(a' & t' & [= <-] & [= <-] & _ & H)]; [done|]. lra.
Qed.

(** X10. [toTimestamp] returns [NaN] only for a [Date] object whose time
    value is [NaN]; for every other value, missing, empty, zero or
    unreadable ones included, it returns a number, reading the clock at
    most once. *)
Theorem toTimestamp_NaN_only_for_invalid_Date (value : Timestamp) (k : nat) :
  ((toTimestamp value k).1 = NaN <-> value = TDate NaN) /\
  ((toTimestamp value k).2 = k \/
   (toTimestamp value k) = (Num (inject_Z (Date_now k)), S k)).
Proof.
  unfold TransactionMatcher.toTimestamp, tick, ret.
  destruct value as [t|s|n|]; cbn.
  - split; [|by left]. split; [by intros ->|by intros [= ->]].
  - destruct (bool_decide (s = [])); cbn; [split; [done|by right]|].
    destruct (Date_parse s) as [| | |q] eqn:E; cbn; try (split; [done|]; auto).
    destruct (Qeq_bool q 0); cbn; split; try done; auto.
  - destruct n as [| | |q]; cbn; try (split; [done|]; auto).
    destruct (Qeq_bool q 0); cbn; split; try done; auto.
  - split; [done|by right].
Qed.

(** X11. When both timestamps are [Date] objects the clock is not read,
    and the time factor passes exactly when both time values are numbers
    at most 900000 ms (15 minutes) apart, the end included; a [Date] with
    a [NaN] time value on either side fails it. *)
Theorem time_factor_on_dates
    (alert : BankAlert) (txn : Transaction) (k : nat) (ta tt : number) :
  alert_timestamp alert = TDate ta -> txn_timestamp txn = TDate tt ->
  let r := scoreMatch alert txn k in
  r.2 = k /\
  timeWindow (matchDetails r.1) = Math_abs (num_sub ta tt) /\
  (withinTimeWindow (timeWindow (matchDetails r.1)) = true <->
   exists x y, ta = Num x /\ tt = Num y /\ - (900000) <= x - y <= 900000).
Proof.
  intros Ha Ht. unfold TransactionMatcher.scoreMatch, bind.
  rewrite Ha, Ht. cbn. split; [done|]. split; [done|].
  unfold withinTimeWindow, TIME_WINDOW_MS.
  destruct ta as [| | |x], tt as [| | |y];
    try (cbn; split; [done|]; by intros (? & ? & ? & ? & _)).
  cbn [num_sub num_neg num_add Math_abs].
  rewrite num_leb_Num, Qabs_Qle_condition. split.
  - intros H. exists x, y. repeat split; try done; lra.
  - intros (x' & y' & [= <-] & [= <-] & H). lra.
Qed.

(** X12. Every result of [findMatches] carries the alert's id; a result
    names a transaction exactly when it is matched, and the transaction it
    names is one of the candidates. *)
Theorem findMatches_names_only_candidates
    (alert : BankAlert) (txns : list Transaction) (k : nat) :
  Forall (fun r =>
            alertId r = alert_id alert /\
            (matched r = false <-> transactionId r = None) /\
            (forall id, transactionId r = Some id ->
               matched r = true /\ exists txn, txn ∈ txns /\ txn_id txn = id))
         (findMatches alert txns k).1.
Proof.
  rewrite findMatches_unfold, sort_perm.
  apply mapM_Forall_elem. intros txn k' Hin.
  destruct (scoreMatch_unfold Date_now Date_parse String_toLowerCase alert txn k') as (td & ->).
  cbn. destruct (num_geb _ MIN_CONFIDENCE_THRESHOLD).
  - split; [done|]. split; [done|]. intros id [= <-]. eauto.
  - split; [done|]. split; [done|]. done.
Qed.
End FactorProperties.

(** ** Batches: [parseEmails] and the alerts of [processAlerts] *)

Import Agent.

Lemma pretty_N_char_digit (d : N) : is_digit (N_of_ascii (pretty_N_char d)) = true.
Proof. unfold pretty_N_char. by repeat case_match. Qed.

Lemma pretty_N_go_digits (x : N) (s : string) :
  all_digits (str s) -> all_digits (str (pretty_N_go x s)).
Proof.
  revert s. induction (N.lt_wf_0 x) as [x _ IH]; intros s Hs.
  assert (x = 0 \/ 0 < x)%N as [->|Hx] by lia; [by rewrite pretty_N_go_0|].
  rewrite pretty_N_go_step by done. apply IH; [by apply N.div_lt|].
  constructor; [apply pretty_N_char_digit|done].
Qed.

Lemma integer_text_nat_digits (i : nat) : all_digits (integer_text (Z.of_nat i)).
Proof.
  unfold integer_text, pretty, pretty_Z. destruct (Z.of_nat i) as [|p|p] eqn:E.
  - by repeat constructor.
  - unfold pretty, pretty_positive, pretty, pretty_N. case_decide; [done|].
    apply pretty_N_go_digits. constructor.
  - lia.
Qed.

Lemma str_inj (s1 s2 : string) : str s1 = str s2 -> s1 = s2.
Proof.
  revert s2. induction s1 as [|c s1 IH]; intros [|d s2]; simpl; try done.
  intros [= Hc Hs]. f_equal; [|by apply IH].
  rewrite <- (ascii_N_embedding c), <- (ascii_N_embedding d). by rewrite Hc.
Qed.

Lemma integer_text_inj (x y : Z) : integer_text x = integer_text y -> x = y.
Proof. unfold integer_text. intros H%str_inj. by apply (inj pretty). Qed.

Lemma app_pivot_last {A : Type} (x : A) (l1 l2 r1 r2 : list A) :
  l1 ++ x :: r1 = l2 ++ x :: r2 -> x ∉ r1 -> x ∉ r2 -> r1 = r2.
Proof.
  intros E H1 H2. apply (f_equal reverse) in E.
  rewrite !reverse_app, !reverse_cons, <- !app_assoc in E. simpl in E.
  assert (Hpre : forall a b c d : list A,
            a ++ x :: c = b ++ x :: d -> x ∉ a -> x ∉ b -> a = b).
  { clear. induction a as [|u a IH]; intros [|v b] c d E Ha Hb.
    - done.
    - injection E as <- _. destruct Hb. by left.
    - injection E as -> _. destruct Ha. by left.
    - injection E as -> E. f_equal. apply (IH b c d E).
      + intros ?. apply Ha. by right.
      + intros ?. apply Hb. by right. }
  apply (Hpre (reverse r1) (reverse r2)) in E.
  - by apply (inj reverse).
  - by rewrite elem_of_reverse.
  - by rewrite elem_of_reverse.
Qed.

Lemma digits_no_dash (s : jsstring) : all_digits s -> 45%N ∉ s.
Proof.
  intros Hs Hin. unfold all_digits in Hs. rewrite Forall_forall in Hs.
  by apply Hs in Hin.
Qed.

(** Two ids built for different positions differ, whatever the clock
    shows. *)
Lemma alert_id_text_idx (n1 n2 : Z) (i1 i2 : nat) :
  alert_id_text n1 i1 = alert_id_text n2 i2 -> i1 = i2.
Proof.
  unfold alert_id_text. intros E. apply app_inv_head in E.
  change (str "-") with [45%N] in E. simpl in E.
  apply app_pivot_last in E; try (apply digits_no_dash, integer_text_nat_digits).
  apply integer_text_inj in E. lia.
Qed.

Section Batches.
Variable Date_now : nat -> Z.
Variable Date_parse : jsstring -> number.

Local Abbreviation parseEmail := (parseEmail Date_now Date_parse).
Local Abbreviation parseEmails := (parseEmails Date_now Date_parse).
Local Abbreviation build_alerts := (build_alerts Date_now Date_parse).

Lemma parseEmail_builtin_returns (email bank : jsstring) (k : nat) :
  bank ∉ Object_prototype_properties ->
  exists a,
    (parseEmail BANK_PATTERNS email bank k).1 = Ok a /\
    parsed_rawEmail a = email /\
    parsed_description a = substring0 200 email /\
    parsed_currency a = str "NGN" /\
    parsed_bank a = bank.
Proof.
  intros Hb. destruct (select_patterns_builtin bank Hb) as (p & Hsel & Hp).
  destruct (parseEmail_returns Date_now Date_parse BANK_PATTERNS email bank k p Hsel)
    as (a & Ha).
  { intros Hm. cbn [String_match] in Hm.
    apply search_group in Hm; [by destruct Hm|].
    by destruct Hp as [->|[->| ->]]. }
  exists a. split; [done|].
  by destruct (parseEmail_fields Date_now Date_parse BANK_PATTERNS email bank k p a
                 Hsel Ha) as (_ & _ & _ & ? & ? & ? & ?).
Qed.

Lemma parseEmail_inherited_throws (table : gmap jsstring BankPatterns)
    (email bank : jsstring) (k : nat) :
  table !! bank = None -> bank ∈ Object_prototype_properties ->
  parseEmail table email bank k = (Throw, k).
Proof.
  intros Hn Hb. unfold BankAlertParser.parseEmail, select_patterns, get_property.
  by rewrite Hn, bool_decide_eq_true_2.
Qed.

(** X13. Against the built-in table, [parseEmails] under a format name
    that is not inherited from [Object.prototype] returns one alert per
    email, in the order of the emails: each alert keeps its email verbatim
    as [rawEmail], has the first 200 code units of it as description, the
    currency ["NGN"] and the requested name as [bank]. *)
Theorem parseEmails_one_alert_per_email
    (emails : list jsstring) (bank : jsstring) (k : nat) :
  bank ∉ Object_prototype_properties ->
  exists alerts,
    (parseEmails BANK_PATTERNS emails bank k).1 = Ok alerts /\
    map parsed_rawEmail alerts = emails /\
    Forall (fun a =>
              parsed_description a = take 200 (parsed_rawEmail a) /\
              (length (parsed_description a) <= 200)%nat /\
              parsed_currency a = str "NGN" /\
              parsed_bank a = bank) alerts.
Proof.
  intros Hb. revert k. induction emails as [|email rest IH]; intros k.
  - exists []. by repeat split.
  - cbn [BankAlertParser.parseEmails]. unfold bind.
    destruct (parseEmail_builtin_returns email bank k Hb)
      as (a & Ha & Hraw & Hdesc & Hcur & Hbank).
    destruct (parseEmail BANK_PATTERNS email bank k) as [r k1]. simpl in Ha.
    subst r. destruct (IH k1) as (l & Hl & Hmap & Hall).
    destruct (parseEmails BANK_PATTERNS rest bank k1) as [rs k2]. simpl in Hl.
    subst rs. exists (a :: l). split; [done|]. split.
    + simpl. by rewrite Hraw, Hmap.
    + constructor; [|done]. rewrite Hdesc, Hraw. unfold substring0.
      repeat split; try done. rewrite length_take. lia.
Qed.

Lemma BANK_PATTERNS_no_inherited (bank : jsstring) :
  bank ∈ Object_prototype_properties -> BANK_PATTERNS !! bank = None.
Proof.
  intros Hb. destruct (BANK_PATTERNS !! bank) as [p|] eqn:E; [|done].
  exfalso. revert Hb. unfold BANK_PATTERNS in E.
  rewrite !lookup_insert_Some, lookup_empty in E.
  destruct E as [[<- _]|[_ [[<- _]|[_ [[<- _]|[_ [=]]]]]]];
    intros Hb; by apply (bool_decide_pack _) in Hb.
Qed.

(** X14. Under a format name inherited from [Object.prototype] (such as
    ["toString"]), [parseEmails] on a non-empty batch throws at the first
    email without reading the clock; on an empty batch it returns the empty
    list. *)
Theorem parseEmails_inherited_name_throws
    (emails : list jsstring) (bank : jsstring) (k : nat) :
  bank ∈ Object_prototype_properties ->
  parseEmails BANK_PATTERNS emails bank k =
  (match emails with [] => Ok [] | _ :: _ => Throw end, k).
Proof.
  intros Hb. destruct emails as [|email rest]; [done|].
  cbn [BankAlertParser.parseEmails]. unfold bind.
  rewrite parseEmail_inherited_throws; [done| |done].
  by apply BANK_PATTERNS_no_inherited.
Qed.
End Batches.

(** ** [processAlerts] *)

Section ProcessAlerts.
Variable Date_now : nat -> Z.
Variable Date_parse : jsstring -> number.
Variable String_toLowerCase : jsstring -> jsstring.

Local Abbreviation parseEmail := (parseEmail Date_now Date_parse).
Local Abbreviation findMatches := (findMatches Date_now Date_parse String_toLowerCase).
Local Abbreviation build_alerts := (build_alerts Date_now Date_parse).
Local Abbreviation match_alerts := (match_alerts Date_now Date_parse String_toLowerCase).
Local Abbreviation processAlerts := (processAlerts Date_now Date_parse String_toLowerCase).

(** The alerts built from a batch: one per email, in order, with the ids
    of the positions [idx], [idx + 1], ... *)
Lemma build_alerts_builtin (emails : list jsstring) (idx : nat)
    (bank : jsstring) (k : nat) :
  bank ∉ Object_prototype_properties ->
  exists alerts nows,
    (build_alerts BANK_PATTERNS emails idx bank k).1 = Ok alerts /\
    map alert_rawEmail alerts = emails /\
    length nows = length emails /\
    map alert_id alerts
    = zip_with alert_id_text nows (seq idx (length emails)).
Proof.
  intros Hb. revert idx k. induction emails as [|email rest IH]; intros idx k.
  - by exists [], [].
  - cbn [Agent.build_alerts].
    destruct (parseEmail_builtin_returns Date_now Date_parse email bank (S k) Hb)
      as (a & Ha & Hraw & _).
    destruct (parseEmail BANK_PATTERNS email bank (S k)) as [r k1]. simpl in Ha.
    subst r. destruct (IH (S idx) k1) as (l & nows & Hl & Hmap & Hlen & Hids).
    destruct (build_alerts BANK_PATTERNS rest (S idx) bank k1) as [rs k2].
    simpl in Hl. subst rs.
    exists (with_id (alert_id_text (Date_now k) idx) a :: l), (Date_now k :: nows).
    split; [done|]. split; [simpl; by rewrite Hraw, Hmap|].
    split; [simpl; by rewrite Hlen|]. simpl. by rewrite Hids.
Qed.

(** Each alert of the batch: its id is made of the clock reading taken
    before its email is parsed and of its position; the rest is what
    [parseEmail] returns for that email at the next reading. *)
Lemma build_alerts_parsed (emails : list jsstring) (idx : nat)
    (bank : jsstring) (k : nat) :
  bank ∉ Object_prototype_properties ->
  exists alerts,
    (build_alerts BANK_PATTERNS emails idx bank k).1 = Ok alerts /\
    length alerts = length emails /\
    forall i email, emails !! i = Some email ->
      exists parsed k0 alert,
        alerts !! i = Some alert /\
        (parseEmail BANK_PATTERNS email bank (S k0)).1 = Ok parsed /\
        alert_of (alert_id_text (Date_now k0) (idx + i)) parsed alert.
Proof.
  intros Hb. revert idx k. induction emails as [|email rest IH]; intros idx k.
  - exists []. split; [done|]. split; [done|]. intros i email Hi. done.
  - cbn [Agent.build_alerts].
    destruct (parseEmail_builtin_returns Date_now Date_parse email bank (S k) Hb)
      as (a & Ha & _).
    destruct (parseEmail BANK_PATTERNS email bank (S k)) as [r k1] eqn:Ep.
    simpl in Ha. subst r.
    destruct (IH (S idx) k1) as (l & Hl & Hlen & Hall).
    destruct (build_alerts BANK_PATTERNS rest (S idx) bank k1) as [rs k2].
    simpl in Hl. subst rs.
    exists (with_id (alert_id_text (Date_now k) idx) a :: l).
    split; [done|]. split; [simpl; by rewrite Hlen|].
    intros [|i] e Hi.
    + injection Hi as <-. exists a, k. eexists. split; [reflexivity|].
      split; [by rewrite Ep|]. rewrite Nat.add_0_r. by repeat split.
    + destruct (Hall i e Hi) as (parsed & k0 & alert & H1 & H2 & H3).
      exists parsed, k0, alert. split; [done|]. split; [done|].
      by replace (idx + S i)%nat with (S idx + i)%nat by lia.
Qed.

Lemma zip_ids_NoDup (nows : list Z) (idx n : nat) :
  NoDup (zip_with alert_id_text nows (seq idx n)).
Proof.
  revert idx nows. induction n as [|n IH]; intros idx nows.
  - destruct nows; simpl; constructor.
  - destruct nows as [|now nows]; [constructor|]. simpl. constructor; [|apply IH].
    intros Hin. apply elem_of_lookup_zip_with in Hin as (i & now' & j & E & _ & Hj).
    apply alert_id_text_idx in E. apply lookup_seq in Hj. lia.
Qed.

(** X15. The alerts that [processAlerts] builds from a batch (built-in
    table, format name not inherited) correspond to the emails one to one
    and in order, and their ids are pairwise distinct: the position in the
    batch ends each id. *)
Theorem batch_alerts_have_distinct_ids
    (emails : list jsstring) (bank : jsstring) (k : nat) :
  bank ∉ Object_prototype_properties ->
  exists alerts,
    (build_alerts BANK_PATTERNS emails 0 bank k).1 = Ok alerts /\
    map alert_rawEmail alerts = emails /\
    NoDup (map alert_id alerts).
Proof.
  intros Hb.
  destruct (build_alerts_builtin emails 0 bank k Hb)
    as (alerts & nows & Hok & Hraw & _ & Hids).
  exists alerts. split; [done|]. split; [done|].
  rewrite Hids. apply zip_ids_NoDup.
Qed.

Lemma findMatches_length (alert : BankAlert) (txns : list Transaction) (k : nat) :
  length (findMatches alert txns k).1 = length txns.
Proof. rewrite findMatches_unfold, sort_perm. apply mapM_length. Qed.

(** The best result for an alert: the head of its ranking at some reading
    of the clock. *)
Lemma match_alerts_run (txns : list Transaction) (alerts : list BankAlert) :
  txns <> [] ->
  forall (m : AgentMetrics) (results : list MatchResult) (k : nat),
  exists bests m',
    (match_alerts alerts txns m results k).1 = (Ok (results ++ bests), m') /\
    Forall2 (fun alert best =>
               exists k' rest, (findMatches alert txns k').1 = best :: rest)
            alerts bests /\
    totalAlerts m' = (totalAlerts m + length alerts)%nat /\
    matchedAlerts m'
    = (matchedAlerts m + length (filter (fun r => matched r = true) bests))%nat /\
    accuracy m' = accuracy m /\ lastRun m' = lastRun m.
Proof.
  intros Hne. induction alerts as [|alert rest IH]; intros m results k.
  - exists [], m. cbn. rewrite app_nil_r. repeat split; try done; lia.
  - cbn [Agent.match_alerts]. unfold bind.
    pose proof (findMatches_length alert txns k) as Hlen.
    destruct (findMatches alert txns k) as [matches k1] eqn:Ef. simpl in Hlen.
    destruct matches as [|best others].
    { destruct txns; [done|]. simpl in Hlen. lia. }
    set (m1 := if matched best then _ else _).
    destruct (IH m1 (results ++ [best]) k1)
      as (bests & m' & Hrun & Hall & Htot & Hmat & Hacc & Hlast).
    exists (best :: bests), m'. rewrite Hrun, <- app_assoc.
    split; [done|]. split.
    { constructor; [|done]. exists k, others. by rewrite Ef. }
    rewrite Htot, Hmat, Hacc, Hlast. rewrite filter_cons. subst m1.
    destruct (matched best) eqn:Eb; cbn.
    + rewrite decide_True by done. cbn. repeat split; lia.
    + rewrite decide_False by done. repeat split; lia.
Qed.

Lemma match_alerts_no_candidate (alert : BankAlert) (rest : list BankAlert)
    (m : AgentMetrics) (results : list MatchResult) (k : nat) :
  exists k',
    match_alerts (alert :: rest) [] m results k =
    (Throw,
     {| totalAlerts := S (totalAlerts m); matchedAlerts := matchedAlerts m;
        accuracy := accuracy m; lastRun := lastRun m |}, k').
Proof. cbn. unfold bind, ret. cbn. eauto. Qed.
End ProcessAlerts.

Section ProcessAlertsProperties.
Variable Date_now : nat -> Z.
Variable Date_parse : jsstring -> number.
Variable String_toLowerCase : jsstring -> jsstring.

Local Abbreviation parseEmail := (parseEmail Date_now Date_parse).
Local Abbreviation findMatches := (findMatches Date_now Date_parse String_toLowerCase).
Local Abbreviation build_alerts := (build_alerts Date_now Date_parse).
Local Abbreviation match_alerts := (match_alerts Date_now Date_parse String_toLowerCase).
Local Abbreviation processAlerts := (processAlerts Date_now Date_parse String_toLowerCase).

Lemma processAlerts_run (emails : list jsstring) (txns : list Transaction)
    (bank : jsstring) (a : agent) (k : nat) :
  bank ∉ Object_prototype_properties -> txns <> [] ->
  exists alerts results a',
    (processAlerts BANK_PATTERNS emails txns bank a k).1 = (Ok results, a') /\
    map alert_rawEmail alerts = emails /\
    Forall2 (fun alert best =>
               exists k' rest, (findMatches alert txns k').1 = best :: rest)
            alerts results /\
    config a' = config a /\
    totalAlerts (metrics a') = (totalAlerts (metrics a) + length emails)%nat /\
    matchedAlerts (metrics a')
    = (matchedAlerts (metrics a)
       + length (filter (fun r => matched r = true) results))%nat /\
    accuracy (metrics a') =
      (if (0 <? totalAlerts (metrics a'))%nat
       then num_div (of_nat (matchedAlerts (metrics a')))
                    (of_nat (totalAlerts (metrics a')))
       else Num 0).
Proof.
  intros Hb Hne. unfold Agent.processAlerts, bind.
  destruct (build_alerts_builtin Date_now Date_parse emails 0 bank k Hb)
    as (alerts & nows & Hok & Hraw & _).
  destruct (build_alerts BANK_PATTERNS emails 0 bank k) as [built k1].
  simpl in Hok. subst built.
  destruct (match_alerts_run Date_now Date_parse String_toLowerCase txns alerts Hne (metrics a) [] k1)
    as (bests & m' & Hrun & Hall & Htot & Hmat & _).
  destruct (match_alerts alerts txns (metrics a) [] k1) as [[r m] k2].
  simpl in Hrun. injection Hrun as -> ->. cbn.
  exists alerts, bests. eexists. split; [reflexivity|]. cbn.
  split; [done|]. split; [done|]. split; [done|].
  rewrite <- Hraw, length_map. by rewrite Htot, Hmat.
Qed.

Lemma processAlerts_built (emails : list jsstring) (txns : list Transaction)
    (bank : jsstring) (a : agent) (k : nat) :
  bank ∉ Object_prototype_properties -> txns <> [] ->
  exists alerts results a',
    (build_alerts BANK_PATTERNS emails 0 bank k).1 = Ok alerts /\
    (processAlerts BANK_PATTERNS emails txns bank a k).1 = (Ok results, a') /\
    Forall2 (fun alert best =>
               exists k' rest, (findMatches alert txns k').1 = best :: rest)
            alerts results /\
    config a' = config a.
Proof.
  intros Hb Hne. unfold Agent.processAlerts, bind.
  destruct (build_alerts_builtin Date_now Date_parse emails 0 bank k Hb)
    as (alerts & nows & Hok & _).
  destruct (build_alerts BANK_PATTERNS emails 0 bank k) as [built k1].
  simpl in Hok. subst built.
  destruct (match_alerts_run Date_now Date_parse String_toLowerCase txns alerts
              Hne (metrics a) [] k1)
    as (bests & m' & Hrun & Hall & _).
  destruct (match_alerts alerts txns (metrics a) [] k1) as [[r m] k2].
  simpl in Hrun. injection Hrun as -> ->. cbn.
  exists alerts, bests. eexists. split; [done|]. split; [reflexivity|]. done.
Qed.

(** X16. With at least one candidate, the built-in table and a format name
    that is not inherited, [processAlerts] returns one result per email,
    in the order of the emails. The result at a position is the first
    entry of the ranking [findMatches] gives, against the candidates, for
    the alert of that position: the alert whose id is made of a clock
    reading and the position, and whose other fields are, one by one, what
    [parseEmail] returns for the email at that position. The result is
    returned matched or not, and the configuration is left as it was. *)
Theorem processAlerts_returns_best_match_per_email
    (emails : list jsstring) (txns : list Transaction) (bank : jsstring)
    (a : agent) (k : nat) :
  bank ∉ Object_prototype_properties -> txns <> [] ->
  exists results a',
    (processAlerts BANK_PATTERNS emails txns bank a k).1 = (Ok results, a') /\
    length results = length emails /\
    (forall i email, emails !! i = Some email ->
       exists best parsed alert k0 k' rest,
         results !! i = Some best /\
         (parseEmail BANK_PATTERNS email bank (S k0)).1 = Ok parsed /\
         alert_of (alert_id_text (Date_now k0) i) parsed alert /\
         (findMatches alert txns k').1 = best :: rest) /\
    config a' = config a.
Proof.
  intros Hb Hne.
  destruct (processAlerts_built emails txns bank a k Hb Hne)
    as (alerts & results & a' & Hbuild & Hrun & Hall & Hcfg).
  destruct (build_alerts_parsed Date_now Date_parse emails 0 bank k Hb)
    as (alerts' & Hok & Hlen & Hpar).
  rewrite Hbuild in Hok. injection Hok as <-.
  exists results, a'. split; [done|].
  split; [rewrite <- Hlen; symmetry; by eapply Forall2_length|].
  split; [|done]. intros i email Hi.
  destruct (Hpar i email Hi) as (parsed & k0 & alert & Hal & Hp & Hof).
  destruct (Forall2_lookup_l _ _ _ _ _ Hall Hal) as (best & Hbest & k' & rest & Hf).
  exists best, parsed, alert, k0, k', rest. done.
Qed.

(** X17. After a successful [processAlerts] the counters are cumulative:
    the total grows by the number of emails, the matched count by the
    number of matched results, and the accuracy is the matched count over
    the total since the last reset, not the ratio of the batch. If the
    matched count did not exceed the total before, it does not after, and
    the accuracy lies between 0 and 1. *)
Theorem processAlerts_metrics_are_cumulative
    (emails : list jsstring) (txns : list Transaction) (bank : jsstring)
    (a : agent) (k : nat) :
  bank ∉ Object_prototype_properties -> txns <> [] ->
  (matchedAlerts (metrics a) <= totalAlerts (metrics a))%nat ->
  exists results a',
    (processAlerts BANK_PATTERNS emails txns bank a k).1 = (Ok results, a') /\
    totalAlerts (metrics a') = (totalAlerts (metrics a) + length emails)%nat /\
    matchedAlerts (metrics a')
    = (matchedAlerts (metrics a)
       + length (filter (fun r => matched r = true) results))%nat /\
    (matchedAlerts (metrics a') <= totalAlerts (metrics a'))%nat /\
    exists q,
      accuracy (metrics a') = Num q /\ 0 <= q <= 1 /\
      q * inject_Z (Z.of_nat (totalAlerts (metrics a')))
      == inject_Z (Z.of_nat (matchedAlerts (metrics a'))).
Proof.
  intros Hb Hne Hinv.
  destruct (processAlerts_run emails txns bank a k Hb Hne)
    as (alerts & results & a' & Hrun & Hraw & Hall & Hcfg & Htot & Hmat & Hacc).
  exists results, a'. split; [done|]. split; [done|]. split; [done|].
  assert (Hlen : length results = length emails).
  { rewrite <- Hraw, length_map. symmetry. by eapply Forall2_length. }
  assert (Hle : (matchedAlerts (metrics a') <= totalAlerts (metrics a'))%nat).
  { rewrite Htot, Hmat. pose proof (length_filter (fun r => matched r = true) results).
    lia. }
  split; [done|]. rewrite Hacc.
  destruct (Nat.ltb_spec 0 (totalAlerts (metrics a'))) as [Hpos|Hz].
  - set (t := totalAlerts (metrics a')) in *.
    set (m := matchedAlerts (metrics a')) in *.
    assert (Htq : 0 < inject_Z (Z.of_nat t)).
    { change 0 with (inject_Z 0). rewrite <- Zlt_Qlt. lia. }
    assert (Hmq : 0 <= inject_Z (Z.of_nat m) <= inject_Z (Z.of_nat t)).
    { change 0 with (inject_Z 0). rewrite <- !Zle_Qle. lia. }
    unfold of_nat. cbn [num_div]. rewrite (Qsign_pos _ Htq).
    eexists. split; [reflexivity|]. split; [split|].
    + apply Qle_shift_div_l; [done|]. lra.
    + apply Qle_shift_div_r; [done|]. lra.
    + field. lra.
  - exists 0. split; [done|]. split; [lra|].
    assert (totalAlerts (metrics a') = 0)%nat as Ht by lia.
    assert (matchedAlerts (metrics a') = 0)%nat as -> by lia.
    rewrite Ht. reflexivity.
Qed.

(** X18. With no candidate and at least one email (built-in table, format
    name not inherited) [processAlerts] throws: the first alert has no
    best match to read. By then that alert has been counted: the total is
    one more than before, while the matched count, the accuracy and the
    time of the last run are unchanged. *)
Theorem processAlerts_without_candidates_throws
    (email : jsstring) (rest : list jsstring) (bank : jsstring)
    (a : agent) (k : nat) :
  bank ∉ Object_prototype_properties ->
  exists a',
    (processAlerts BANK_PATTERNS (email :: rest) [] bank a k).1 = (Throw, a') /\
    totalAlerts (metrics a') = S (totalAlerts (metrics a)) /\
    matchedAlerts (metrics a') = matchedAlerts (metrics a) /\
    accuracy (metrics a') = accuracy (metrics a) /\
    lastRun (metrics a') = lastRun (metrics a) /\
    config a' = config a.
Proof.
  intros Hb. unfold Agent.processAlerts, bind.
  destruct (build_alerts_builtin Date_now Date_parse (email :: rest) 0 bank k Hb)
    as (alerts & nows & Hok & Hraw & _).
  destruct (build_alerts BANK_PATTERNS (email :: rest) 0 bank k) as [built k1].
  simpl in Hok. subst built.
  destruct alerts as [|alert alerts]; [done|].
  destruct (match_alerts_no_candidate Date_now Date_parse String_toLowerCase alert alerts (metrics a) [] k1)
    as (k' & ->).
  cbn. eexists. split; [reflexivity|]. done.
Qed.

(** X19. Under a format name inherited from [Object.prototype], such as
    ["toString"], [processAlerts] on a non-empty batch throws while the
    first email is parsed and leaves the agent exactly as it was. *)
Theorem processAlerts_inherited_name_throws
    (email : jsstring) (rest : list jsstring) (txns : list Transaction)
    (bank : jsstring) (a : agent) (k : nat) :
  bank ∈ Object_prototype_properties ->
  (processAlerts BANK_PATTERNS (email :: rest) txns bank a k).1 = (Throw, a).
Proof.
  intros Hb. unfold Agent.processAlerts, bind. cbn [Agent.build_alerts].
  rewrite parseEmail_inherited_throws; [done| |done].
  by apply BANK_PATTERNS_no_inherited.
Qed.

(** X20. The configuration of the agent has no part in the outcome:
    updating it before [processAlerts], with any values for the time
    window, the tolerance or the threshold, gives the same results, the
    same metrics and the same readings of the clock as updating it after. *)
Theorem processAlerts_ignores_config
    (table : gmap jsstring BankPatterns) (emails : list jsstring)
    (txns : list Transaction) (bank : jsstring) (a : agent)
    (newConfig : PartialAgentConfig) (k : nat) :
  processAlerts table emails txns bank (updateConfig newConfig a) k =
  prod_map (prod_map id (updateConfig newConfig)) id
           (processAlerts table emails txns bank a k).
Proof.
  unfold Agent.processAlerts, bind.
  destruct (build_alerts table emails 0 bank k) as [[alerts|] k1]; [|done].
  cbn [metrics updateConfig].
  destruct (match_alerts alerts txns (metrics a) [] k1) as [[[results|] m] k2];
    done.
Qed.
(** X21. After a successful [processAlerts], [isMeetingTarget] answers
    true exactly when at least one alert has been counted and at least four
    in five of the alerts counted since the last reset were matched. With
    nothing counted the accuracy is 0 and the target is not met. *)
Theorem isMeetingTarget_after_processAlerts
    (emails : list jsstring) (txns : list Transaction) (bank : jsstring)
    (a : agent) (k : nat) :
  bank ∉ Object_prototype_properties -> txns <> [] ->
  exists results a',
    (processAlerts BANK_PATTERNS emails txns bank a k).1 = (Ok results, a') /\
    (isMeetingTarget a' = true <->
     (0 < totalAlerts (metrics a'))%nat /\
     (4 * totalAlerts (metrics a') <= 5 * matchedAlerts (metrics a'))%nat).
Proof.
  intros Hb Hne.
  destruct (processAlerts_run emails txns bank a k Hb Hne)
    as (alerts & results & a' & Hrun & _ & _ & _ & _ & _ & Hacc).
  exists results, a'. split; [done|].
  unfold isMeetingTarget. rewrite Hacc.
  destruct (Nat.ltb_spec 0 (totalAlerts (metrics a'))) as [Hpos|Hz].
  - set (t := totalAlerts (metrics a')) in *.
    set (m := matchedAlerts (metrics a')) in *.
    assert (Htq : 0 < inject_Z (Z.of_nat t)).
    { change 0 with (inject_Z 0). rewrite <- Zlt_Qlt. lia. }
    unfold of_nat. cbn [num_div]. rewrite (Qsign_pos _ Htq).
    rewrite num_geb_Num.
    assert (E : 0.8 <= inject_Z (Z.of_nat m) / inject_Z (Z.of_nat t) <->
                inject_Z (4 * Z.of_nat t) <= inject_Z (5 * Z.of_nat m)).
    { rewrite !inject_Z_mult.
      change (inject_Z 4) with 4. change (inject_Z 5) with 5.
      generalize dependent (inject_Z (Z.of_nat t)).
      generalize (inject_Z (Z.of_nat m)). intros x y Hy. split; intros H.
      - assert (F : x == x / y * y) by (field; lra).
        assert (G : 0.8 * y <= x / y * y)
          by (apply Qmult_le_compat_r; [done|lra]).
        lra.
      - apply Qle_shift_div_l; [done|]. lra. }
    rewrite E, <- Zle_Qle. lia.
  - split; [|lia]. intros H. exfalso. apply num_geb_Num in H. lra.
Qed.

(** X22. [resetMetrics] followed by a successful [processAlerts] leaves
    the metrics of that batch alone: the total is the number of emails, the
    matched count the number of matched results, whatever the agent had
    counted before. The configuration survives both calls. *)
Theorem resetMetrics_then_processAlerts
    (emails : list jsstring) (txns : list Transaction) (bank : jsstring)
    (a : agent) (k : nat) :
  bank ∉ Object_prototype_properties -> txns <> [] ->
  let fresh := resetMetrics Date_now a k in
  exists results a',
    (processAlerts BANK_PATTERNS emails txns bank fresh.1 fresh.2).1
    = (Ok results, a') /\
    length results = length emails /\
    totalAlerts (metrics a') = length emails /\
    matchedAlerts (metrics a')
    = length (filter (fun r => matched r = true) results) /\
    config a' = config a.
Proof.
  intros Hb Hne fresh.
  destruct (processAlerts_run emails txns bank fresh.1 fresh.2 Hb Hne)
    as (alerts & results & a' & Hrun & Hraw & Hall & Hcfg & Htot & Hmat & _).
  exists results, a'. split; [done|].
  split; [rewrite <- Hraw, length_map; symmetry; by eapply Forall2_length|].
  by rewrite Htot, Hmat, Hcfg.
Qed.
End ProcessAlertsProperties.

(** ** The extractor and the scorer together *)

Section EndToEnd.
Variable Date_now : nat -> Z.
Variable Date_parse : jsstring -> number.
Variable String_toLowerCase : jsstring -> jsstring.

Local Abbreviation parseEmail := (parseEmail Date_now Date_parse).
Local Abbreviation scoreMatch := (scoreMatch Date_now Date_parse String_toLowerCase).

Lemma parseEmail_depends_on_selection (t1 t2 : gmap jsstring BankPatterns)
    (email bank : jsstring) (k : nat) :
  select_patterns t1 bank = select_patterns t2 bank ->
  parseEmail t1 email bank k = parseEmail t2 email bank k.
Proof. intros H. unfold BankAlertParser.parseEmail. by rewrite H. Qed.

(** X23. Registering a profile under a name (other than ["__proto__"])
    makes [parseEmail] under that name use that profile alone, replaces a
    profile registered there before, and changes nothing under any other
    name, unless the name is ["gtbank"], the profile every unknown name
    falls back to. *)
Theorem addBankPattern_then_parseEmail
    (table : gmap jsstring BankPatterns) (name : jsstring)
    (p : BankPatterns) (email : jsstring) (k : nat) :
  name <> str "__proto__" ->
  select_patterns (addBankPattern name p table) name = Own p /\
  parseEmail (addBankPattern name p table) email name k
  = parseEmail (addBankPattern name p ∅) email name k /\
  (forall p0, addBankPattern name p (addBankPattern name p0 table)
              = addBankPattern name p table) /\
  (forall bank, bank <> name -> name <> str "gtbank" ->
     parseEmail (addBankPattern name p table) email bank k
     = parseEmail table email bank k) /\
  (forall bank, name = str "gtbank" -> table !! bank = None ->
     bank ∉ Object_prototype_properties ->
     select_patterns (addBankPattern name p table) bank = Own p).
Proof.
  intros _. unfold addBankPattern.
  assert (Hsel : forall t, select_patterns (<[name := p]> t) name = Own p).
  { intros t. unfold select_patterns, get_property. by rewrite lookup_insert_eq. }
  split; [apply Hsel|]. split.
  { apply parseEmail_depends_on_selection. by rewrite !Hsel. }
  split; [intros p0; apply insert_insert_eq|]. split.
  - intros bank Hne Hgt. apply parseEmail_depends_on_selection.
    unfold select_patterns, get_property.
    by rewrite !lookup_insert_ne by done.
  - intros bank -> Hn Hb. unfold select_patterns, get_property.
    destruct (decide (str "gtbank" = bank)) as [<-|Hne].
    + by rewrite lookup_insert_eq.
    + rewrite lookup_insert_ne, Hn, bool_decide_eq_false_2 by done.
      by rewrite lookup_insert_eq.
Qed.

(** X24. An email in which neither the amount pattern nor the account
    pattern of the selected profile finds anything is parsed to amount 0
    and an empty account number, and the alert made of it is matched, with
    confidence at least 0.7, to every candidate whose account number is
    empty, whatever that candidate's amount. *)
Theorem unparsed_email_matches_accountless_candidate
    (table : gmap jsstring BankPatterns) (email bank : jsstring) (k : nat)
    (p : BankPatterns) (a : ParsedAlert) (id : jsstring) (txn : Transaction)
    (k' : nat) :
  select_patterns table bank = Own p ->
  (parseEmail table email bank k).1 = Ok a ->
  String_match email (Some (amountPattern p)) = None ->
  String_match email (Some (accountPattern p)) = None ->
  txn_accountNumber txn = [] ->
  let r := (scoreMatch (with_id id a) txn k').1 in
  matched r = true /\
  transactionId r = Some (txn_id txn) /\
  exists c, confidence r = Num c /\ 0.7 <= c.
Proof.
  intros Hsel Hok Ham Hac Htx.
  destruct (parseEmail_fields Date_now Date_parse table email bank k p a Hsel Hok)
    as (Hamount & _ & Haccount & _).
  rewrite Ham in Hamount. rewrite Hac in Haccount.
  destruct (scoreMatch_unfold Date_now Date_parse String_toLowerCase (with_id id a) txn k')
    as (td & E).
  cbv zeta in E |- *. rewrite E. cbn [matched transactionId confidence].
  assert (H1 : amountMatches (with_id id a) txn = true).
  { unfold amountMatches, amountDiffPercent. cbn [alert_amount with_id].
    by rewrite Hamount. }
  assert (H2 : accountMatches (with_id id a) txn = true).
  { unfold accountMatches. cbn [alert_accountNumber with_id].
    by rewrite Haccount, Htx. }
  rewrite H1, H2.
  destruct (calculateSimilarity_range String_toLowerCase (alert_description (with_id id a))
              (txn_description txn)) as (s & -> & Hs).
  destruct (score_value true true (withinTimeWindow td) s) as (c & -> & Hc).
  assert (Hge : 0.7 <= c).
  { rewrite Hc. unfold weight. destruct (withinTimeWindow td); lra. }
  assert (Hm : num_geb (Num c) MIN_CONFIDENCE_THRESHOLD = true).
  { unfold MIN_CONFIDENCE_THRESHOLD. apply num_geb_Num. lra. }
  rewrite Hm. split; [done|]. split; [done|]. by exists c.
Qed.

(** X25. When the time pattern matches, the timestamp of the alert is what
    the host's [Date] makes of the token, with no fallback: if that is an
    invalid date ([NaN]), the alert fails the time factor against every
    candidate. The clock is read only when the pattern does not match, and
    its reading is then the timestamp. *)
Theorem parseEmail_timestamp_has_no_fallback
    (table : gmap jsstring BankPatterns) (email bank : jsstring) (k : nat)
    (p : BankPatterns) (a : ParsedAlert) :
  select_patterns table bank = Own p ->
  (parseEmail table email bank k).1 = Ok a ->
  match String_match email (Some (timePattern p)) with
  | Some (Some t) =>
      parsed_timestamp a = TDate (Date_parse t) /\
      (parseEmail table email bank k).2 = k /\
      (Date_parse t = NaN ->
       forall id txn k',
         withinTimeWindow
           (timeWindow (matchDetails (scoreMatch (with_id id a) txn k').1))
         = false)
  | Some None => parsed_timestamp a = TDate NaN
  | None =>
      parsed_timestamp a = TDate (Num (inject_Z (Date_now k))) /\
      (parseEmail table email bank k).2 = S k
  end.
Proof.
  intros Hsel. unfold BankAlertParser.parseEmail. rewrite Hsel.
  destruct (String_match email (Some (amountPattern p))) as [[token|]|];
    unfold bind; cbn [String_match]; try done;
    destruct (search _ (source (timePattern p)) email) as [[t|]|];
    cbn; intros [= <-]; cbn; try done;
    (split; [done|]; split; [done|]; intros Hnan id txn k';
     unfold TransactionMatcher.scoreMatch, bind; cbn; rewrite Hnan; cbn;
     by destruct (toTimestamp Date_now Date_parse (txn_timestamp txn) k')).
Qed.
End EndToEnd.

(** ** The statements above at sample inputs *)

Lemma sample_not_inherited : str "gtbank" ∉ Object_prototype_properties.
Proof. apply (bool_decide_unpack _). vm_compute. exact I. Defined.

Lemma sample_inherited : str "toString" ∈ Object_prototype_properties.
Proof. apply (bool_decide_unpack _). vm_compute. exact I. Defined.

Section Samples.
Local Abbreviation Date_now := sample_now.
Local Abbreviation Date_parse := sample_parse.
Local Abbreviation parseEmail := (parseEmail sample_now sample_parse).
Local Abbreviation parseEmails := (parseEmails sample_now sample_parse).
Local Abbreviation scoreMatch := (scoreMatch sample_now sample_parse sample_lower).
Local Abbreviation findMatches := (findMatches sample_now sample_parse sample_lower).
Local Abbreviation build_alerts := (build_alerts sample_now sample_parse).
Local Abbreviation processAlerts := (processAlerts sample_now sample_parse sample_lower).

Lemma parseEmail_amount_is_decimal_reading_witness :
  let email := sample_email in
  let bank := str "gtbank" in
  let k := 0%nat in
  let p := gtbank in
  let tok := str "1,250.50" in
  exists a : ParsedAlert,
  (select_patterns BANK_PATTERNS bank = Own p) /\
  ((parseEmail BANK_PATTERNS email bank k).1 = Ok a) /\
  (String_match email (Some (amountPattern p)) = Some (Some tok)) /\
  (occurs_in tok email /\
  (Forall (fun x => is_digit x = false) tok -> parsed_amount a = NaN) /\
  (~ Forall (fun x => is_digit x = false) tok ->
   exists ip fp,
     all_digits ip /\ all_digits fp /\
     (remove_commas tok = ip ++ fp /\ fp = [] \/
      remove_commas tok = ip ++ [46%N] ++ fp) /\
     parsed_amount a = binary64 (decimal_value ip fp) /\
     parsed_amount a <> NaN /\
     (forall z, decimal_value ip fp == inject_Z z -> (z < 2 ^ 53)%Z ->
                parsed_amount a = Num (inject_Z z)) /\
     (inject_Z (2 ^ 1024) <= decimal_value ip fp -> parsed_amount a = PInf))).
Proof.
  cbv zeta. eexists.
  split; [reflexivity|].
  split; [reflexivity|].
  split; [reflexivity|].
  apply (parseEmail_amount_is_decimal_reading sample_now sample_parse sample_email (str "gtbank") 0%nat gtbank _ (str "1,250.50")); reflexivity.
Defined.

Lemma parseEmail_amount_never_negative_witness :
  let email := sample_email in
  let bank := str "gtbank" in
  let k := 0%nat in
  exists a : ParsedAlert,
  ((parseEmail BANK_PATTERNS email bank k).1 = Ok a) /\
  (num_ltb (parsed_amount a) (Num 0) = false).
Proof.
  cbv zeta. eexists.
  split; [reflexivity|].
  apply (parseEmail_amount_never_negative sample_now sample_parse sample_email (str "gtbank") 0%nat _); reflexivity.
Defined.

Lemma parseEmail_account_is_masked_or_empty_witness :
  let email := sample_email in
  let bank := str "gtbank" in
  let k := 0%nat in
  exists a : ParsedAlert,
  ((parseEmail BANK_PATTERNS email bank k).1 = Ok a) /\
  (parsed_accountNumber a = [] \/
  (occurs_in (parsed_accountNumber a) email /\
   exists stars digits,
     parsed_accountNumber a = stars ++ digits /\
     Forall (fun x => x = 42%N) stars /\ (2 <= length stars <= 4)%nat /\
     all_digits digits /\ (4 <= length digits <= 10)%nat)).
Proof.
  cbv zeta. eexists.
  split; [reflexivity|].
  apply (parseEmail_account_is_masked_or_empty sample_now sample_parse sample_email (str "gtbank") 0%nat _); reflexivity.
Defined.

Lemma parseEmail_debit_only_with_keyword_witness :
  let table := BANK_PATTERNS in
  let email := sample_email in
  let bank := str "gtbank" in
  let k := 0%nat in
  exists a : ParsedAlert,
  ((parseEmail table email bank k).1 = Ok a) /\
  ((parsed_transactionType a = debit ->
   includes (toLowerCase email) (str "debit") = true \/
   includes (toLowerCase email) (str "withdrawal") = true) /\
  (includes (toLowerCase email) (str "debit") = false ->
   includes (toLowerCase email) (str "withdrawal") = false ->
   parsed_transactionType a = credit)).
Proof.
  cbv zeta. eexists.
  split; [reflexivity|].
  apply (parseEmail_debit_only_with_keyword sample_now sample_parse BANK_PATTERNS sample_email (str "gtbank") 0%nat _); reflexivity.
Defined.

Lemma time_factor_on_dates_witness :
  let alert := sample_alert (Num 1000) (str "****1234") in
  let txn := sample_txn (Num 1000) (str "****1234") in
  let k := 0%nat in
  let ta := Num 1000 in
  let tt := Num 2000 in
  (alert_timestamp alert = TDate ta) /\
  (txn_timestamp txn = TDate tt) /\
  (let r := scoreMatch alert txn k in
  r.2 = k /\
  timeWindow (matchDetails r.1) = Math_abs (num_sub ta tt) /\
  (withinTimeWindow (timeWindow (matchDetails r.1)) = true <->
   exists x y, ta = Num x /\ tt = Num y /\ - (900000) <= x - y <= 900000)).
Proof.
  cbv zeta.
  split; [reflexivity|].
  split; [reflexivity|].
  apply (time_factor_on_dates sample_now sample_parse sample_lower (sample_alert (Num 1000) (str "****1234")) (sample_txn (Num 1000) (str "****1234")) 0%nat (Num 1000) (Num 2000)); reflexivity.
Defined.

Lemma parseEmails_one_alert_per_email_witness :
  let emails := sample_emails in
  let bank := str "gtbank" in
  let k := 0%nat in
  (bank ∉ Object_prototype_properties) /\
  (exists alerts,
    (parseEmails BANK_PATTERNS emails bank k).1 = Ok alerts /\
    map parsed_rawEmail alerts = emails /\
    Forall (fun a =>
              parsed_description a = take 200 (parsed_rawEmail a) /\
              (length (parsed_description a) <= 200)%nat /\
              parsed_currency a = str "NGN" /\
              parsed_bank a = bank) alerts).
Proof.
  cbv zeta.
  split; [exact sample_not_inherited|].
  apply (parseEmails_one_alert_per_email sample_now sample_parse sample_emails (str "gtbank") 0%nat); exact sample_not_inherited.
Defined.

Lemma parseEmails_inherited_name_throws_witness :
  let emails := sample_emails in
  let bank := str "toString" in
  let k := 0%nat in
  (bank ∈ Object_prototype_properties) /\
  (parseEmails BANK_PATTERNS emails bank k =
  (match emails with [] => Ok [] | _ :: _ => Throw end, k)).
Proof.
  cbv zeta.
  split; [exact sample_inherited|].
  apply (parseEmails_inherited_name_throws sample_now sample_parse sample_emails (str "toString") 0%nat); exact sample_inherited.
Defined.

Lemma batch_alerts_have_distinct_ids_witness :
  let emails := sample_emails in
  let bank := str "gtbank" in
  let k := 0%nat in
  (bank ∉ Object_prototype_properties) /\
  (exists alerts,
    (build_alerts BANK_PATTERNS emails 0 bank k).1 = Ok alerts /\
    map alert_rawEmail alerts = emails /\
    NoDup (map alert_id alerts)).
Proof.
  cbv zeta.
  split; [exact sample_not_inherited|].
  apply (batch_alerts_have_distinct_ids sample_now sample_parse sample_emails (str "gtbank") 0%nat); exact sample_not_inherited.
Defined.

Lemma processAlerts_returns_best_match_per_email_witness :
  let emails := sample_emails in
  let txns := sample_txns in
  let bank := str "gtbank" in
  let a := sample_agent in
  let k := 0%nat in
  (bank ∉ Object_prototype_properties) /\
  (txns <> []) /\
  (exists results a',
    (processAlerts BANK_PATTERNS emails txns bank a k).1 = (Ok results, a') /\
    length results = length emails /\
    (forall i email, emails !! i = Some email ->
       exists best parsed alert k0 k' rest,
         results !! i = Some best /\
         (parseEmail BANK_PATTERNS email bank (S k0)).1 = Ok parsed /\
         alert_of (alert_id_text (Date_now k0) i) parsed alert /\
         (findMatches alert txns k').1 = best :: rest) /\
    config a' = config a).
Proof.
  cbv zeta.
  split; [exact sample_not_inherited|].
  split; [discriminate|].
  apply (processAlerts_returns_best_match_per_email sample_now sample_parse sample_lower sample_emails sample_txns (str "gtbank") sample_agent 0%nat); [exact sample_not_inherited|discriminate].
Defined.

Lemma processAlerts_metrics_are_cumulative_witness :
  let emails := sample_emails in
  let txns := sample_txns in
  let bank := str "gtbank" in
  let a := sample_agent in
  let k := 0%nat in
  (bank ∉ Object_prototype_properties) /\
  (txns <> []) /\
  ((matchedAlerts (metrics a) <= totalAlerts (metrics a))%nat) /\
  (exists results a',
    (processAlerts BANK_PATTERNS emails txns bank a k).1 = (Ok results, a') /\
    totalAlerts (metrics a') = (totalAlerts (metrics a) + length emails)%nat /\
    matchedAlerts (metrics a')
    = (matchedAlerts (metrics a)
       + length (filter (fun r => matched r = true) results))%nat /\
    (matchedAlerts (metrics a') <= totalAlerts (metrics a'))%nat /\
    exists q,
      accuracy (metrics a') = Num q /\ 0 <= q <= 1 /\
      q * inject_Z (Z.of_nat (totalAlerts (metrics a')))
      == inject_Z (Z.of_nat (matchedAlerts (metrics a')))).
Proof.
  cbv zeta.
  split; [exact sample_not_inherited|].
  split; [discriminate|].
  split; [apply le_n|].
  apply (processAlerts_metrics_are_cumulative sample_now sample_parse sample_lower sample_emails sample_txns (str "gtbank") sample_agent 0%nat); [exact sample_not_inherited|discriminate|apply le_n].
Defined.

Lemma processAlerts_without_candidates_throws_witness :
  let email := sample_email in
  let rest := [str "hello"] in
  let bank := str "gtbank" in
  let a := sample_agent in
  let k := 0%nat in
  (bank ∉ Object_prototype_properties) /\
  (exists a',
    (processAlerts BANK_PATTERNS (email :: rest) [] bank a k).1 = (Throw, a') /\
    totalAlerts (metrics a') = S (totalAlerts (metrics a)) /\
    matchedAlerts (metrics a') = matchedAlerts (metrics a) /\
    accuracy (metrics a') = accuracy (metrics a) /\
    lastRun (metrics a') = lastRun (metrics a) /\
    config a' = config a).
Proof.
  cbv zeta.
  split; [exact sample_not_inherited|].
  apply (processAlerts_without_candidates_throws sample_now sample_parse sample_lower sample_email [str "hello"] (str "gtbank") sample_agent 0%nat); exact sample_not_inherited.
Defined.

Lemma processAlerts_inherited_name_throws_witness :
  let email := sample_email in
  let rest := [str "hello"] in
  let txns := sample_txns in
  let bank := str "toString" in
  let a := sample_agent in
  let k := 0%nat in
  (bank ∈ Object_prototype_properties) /\
  ((processAlerts BANK_PATTERNS (email :: rest) txns bank a k).1 = (Throw, a)).
Proof.
  cbv zeta.
  split; [exact sample_inherited|].
  apply (processAlerts_inherited_name_throws sample_now sample_parse sample_lower sample_email [str "hello"] sample_txns (str "toString") sample_agent 0%nat); exact sample_inherited.
Defined.

Lemma addBankPattern_then_parseEmail_witness :
  let table := BANK_PATTERNS in
  let name := str "zenith" in
  let p := access in
  let email := sample_email in
  let k := 0%nat in
  (name <> str "__proto__") /\
  (select_patterns (addBankPattern name p table) name = Own p /\
  parseEmail (addBankPattern name p table) email name k
  = parseEmail (addBankPattern name p ∅) email name k /\
  (forall p0, addBankPattern name p (addBankPattern name p0 table)
              = addBankPattern name p table) /\
  (forall bank, bank <> name -> name <> str "gtbank" ->
     parseEmail (addBankPattern name p table) email bank k
     = parseEmail table email bank k) /\
  (forall bank, name = str "gtbank" -> table !! bank = None ->
     bank ∉ Object_prototype_properties ->
     select_patterns (addBankPattern name p table) bank = Own p)).
Proof.
  cbv zeta.
  split; [intros H; vm_compute in H; discriminate H|].
  apply (addBankPattern_then_parseEmail sample_now sample_parse BANK_PATTERNS (str "zenith") access sample_email 0%nat); intros H; vm_compute in H; discriminate H.
Defined.

Lemma unparsed_email_matches_accountless_candidate_witness :
  let table := BANK_PATTERNS in
  let email := str "hello" in
  let bank := str "gtbank" in
  let k := 0%nat in
  let p := gtbank in
  let id := str "alert-1" in
  let txn := sample_txn (Num 5) [] in
  let k' := 0%nat in
  exists a : ParsedAlert,
  (select_patterns table bank = Own p) /\
  ((parseEmail table email bank k).1 = Ok a) /\
  (String_match email (Some (amountPattern p)) = None) /\
  (String_match email (Some (accountPattern p)) = None) /\
  (txn_accountNumber txn = []) /\
  (let r := (scoreMatch (with_id id a) txn k').1 in
  matched r = true /\
  transactionId r = Some (txn_id txn) /\
  exists c, confidence r = Num c /\ 0.7 <= c).
Proof.
  cbv zeta. eexists.
  split; [reflexivity|].
  split; [reflexivity|].
  split; [reflexivity|].
  split; [reflexivity|].
  split; [reflexivity|].
  apply (unparsed_email_matches_accountless_candidate sample_now sample_parse sample_lower BANK_PATTERNS (str "hello") (str "gtbank") 0%nat gtbank _ (str "alert-1") (sample_txn (Num 5) []) 0%nat); reflexivity.
Defined.

Lemma parseEmail_timestamp_has_no_fallback_witness :
  let table := BANK_PATTERNS in
  let email := sample_email in
  let bank := str "gtbank" in
  let k := 0%nat in
  let p := gtbank in
  exists a : ParsedAlert,
  (select_patterns table bank = Own p) /\
  ((parseEmail table email bank k).1 = Ok a) /\
  (match String_match email (Some (timePattern p)) with
  | Some (Some t) =>
      parsed_timestamp a = TDate (Date_parse t) /\
      (parseEmail table email bank k).2 = k /\
      (Date_parse t = NaN ->
       forall id txn k',
         withinTimeWindow
           (timeWindow (matchDetails (scoreMatch (with_id id a) txn k').1))
         = false)
  | Some None => parsed_timestamp a = TDate NaN
  | None =>
      parsed_timestamp a = TDate (Num (inject_Z (Date_now k))) /\
      (parseEmail table email bank k).2 = S k
  end).
Proof.
  cbv zeta. eexists.
  split; [reflexivity|].
  split; [reflexivity|].
  apply (parseEmail_timestamp_has_no_fallback sample_now sample_parse sample_lower BANK_PATTERNS sample_email (str "gtbank") 0%nat gtbank _); reflexivity.
Defined.

Lemma isMeetingTarget_after_processAlerts_witness :
  let emails := sample_emails in
  let txns := sample_txns in
  let bank := str "gtbank" in
  let a := sample_agent in
  let k := 0%nat in
  (bank ∉ Object_prototype_properties) /\
  (txns <> []) /\
  (exists results a',
    (processAlerts BANK_PATTERNS emails txns bank a k).1 = (Ok results, a') /\
    (isMeetingTarget a' = true <->
     (0 < totalAlerts (metrics a'))%nat /\
     (4 * totalAlerts (metrics a') <= 5 * matchedAlerts (metrics a'))%nat)).
Proof.
  cbv zeta.
  split; [exact sample_not_inherited|].
  split; [discriminate|].
  apply (isMeetingTarget_after_processAlerts sample_now sample_parse sample_lower sample_emails sample_txns (str "gtbank") sample_agent 0%nat); [exact sample_not_inherited|discriminate].
Defined.

Lemma resetMetrics_then_processAlerts_witness :
  let emails := sample_emails in
  let txns := sample_txns in
  let bank := str "gtbank" in
  let a := sample_agent in
  let k := 0%nat in
  (bank ∉ Object_prototype_properties) /\
  (txns <> []) /\
  (let fresh := resetMetrics Date_now a k in
  exists results a',
    (processAlerts BANK_PATTERNS emails txns bank fresh.1 fresh.2).1
    = (Ok results, a') /\
    length results = length emails /\
    totalAlerts (metrics a') = length emails /\
    matchedAlerts (metrics a')
    = length (filter (fun r => matched r = true) results) /\
    config a' = config a).
Proof.
  cbv zeta.
  split; [exact sample_not_inherited|].
  split; [discriminate|].
  apply (resetMetrics_then_processAlerts sample_now sample_parse sample_lower sample_emails sample_txns (str "gtbank") sample_agent 0%nat); [exact sample_not_inherited|discriminate].
Defined.
End Samples.
